(** * SmartChatParser: a shallow embedding of [smart-chat-parser.js]

    The parser recognises chat lines with nine regular expressions, tried
    in the order of the [patterns] object, and folds unmatched lines into
    the message that is open.  Everything the program does goes through the
    regular-expression engine of the language, so the development starts
    with a model of the fragment of ECMAScript regular expressions that the
    source uses, as a backtracking matcher that lists its successes in
    priority order. *)

From Stdlib Require Import String Ascii.
From Stdlib Require Import List NArith Bool Arith Lia.
Import ListNotations.

(** ** Strings

    A JavaScript string is a sequence of UTF-16 code units. *)

Definition jsstring := list N.

(** Code units of an ASCII literal. *)
Definition str (s : string) : jsstring :=
  map N_of_ascii (list_ascii_of_string s).

Definition chr (a : ascii) : N := N_of_ascii a.

Definition LF : N := 10%N.
Definition CR : N := 13%N.
Definition DQUOTE : N := 34%N.
Definition SQUOTE : N := 39%N.
Definition SPACE : N := 32%N.
Definition COLON : N := 58%N.

Local Open Scope N_scope.

(** LineTerminator: LF, CR, LS, PS. *)
Definition isLineTerminator (c : N) : bool :=
  (c =? 10) || (c =? 13) || (c =? 0x2028) || (c =? 0x2029).

(** WhiteSpace: TAB, VT, FF, SP, NBSP, ZWNBSP and the category Zs. *)
Definition isWhiteSpace (c : N) : bool :=
  (c =? 9) || (c =? 11) || (c =? 12) || (c =? 32) || (c =? 160)
  || (c =? 0x1680) || ((0x2000 <=? c) && (c <=? 0x200A))
  || (c =? 0x202F) || (c =? 0x205F) || (c =? 0x3000) || (c =? 0xFEFF).

(** The set of [\s] and of [String.prototype.trim]. *)
Definition isSpaceChar (c : N) : bool := isWhiteSpace c || isLineTerminator c.

(** The set of [\d]. *)
Definition isDigit (c : N) : bool := (48 <=? c) && (c <=? 57).

(** Upper-casing of one code unit, on the ASCII letters.  Every character
    that the patterns name is ASCII, and without the [u] flag the
    canonicalisation of the language never maps a code unit at or above
    128 to one below it, so a code unit outside ASCII is never equated
    with a character of a pattern; on those code units the function is
    left as the identity. *)
Definition toUpperUnit (c : N) : N :=
  if (97 <=? c) && (c <=? 122) then c - 32 else c.

Definition Canonicalize (ignoreCase : bool) (c : N) : N :=
  if ignoreCase then toUpperUnit c else c.

(** [String.prototype.toUpperCase], on the strings the program passes to
    it: the text matched by [/(am|pm)/i]. *)
Definition toUpperCase (s : jsstring) : jsstring := map toUpperUnit s.

Fixpoint trimStart (s : jsstring) : jsstring :=
  match s with
  | c :: r => if isSpaceChar c then trimStart r else s
  | [] => []
  end.

Definition trimEnd (s : jsstring) : jsstring := rev (trimStart (rev s)).

Definition trim (s : jsstring) : jsstring := trimEnd (trimStart s).

(** [s.split(sep)] for a separator of one code unit. *)
Fixpoint split (sep : N) (s : jsstring) : list jsstring :=
  match s with
  | [] => [[]]
  | c :: r =>
      if c =? sep then [] :: split sep r
      else match split sep r with
           | l :: ls => (c :: l) :: ls
           | [] => [[c]]
           end
  end.

Fixpoint join (sep : jsstring) (l : list jsstring) : jsstring :=
  match l with
  | [] => []
  | [a] => a
  | a :: rest => a ++ sep ++ join sep rest
  end.

Definition isEmpty (s : jsstring) : bool :=
  match s with [] => true | _ => false end.

(** ** Regular expressions

    The fragment of the pattern language used by the source: literal
    characters, [.], [\d], [\s], bracketed classes, the assertions [^] and
    [$], sequence, alternation, capturing groups, the greedy [?] and the
    quantifiers [*], [+] and [+?], which the source applies to
    single-character atoms only.  No group stands under a quantifier, so
    captures are never reset. *)

Inductive ClassAtom : Type :=
| CChar (c : N)
| CDigit
| CSpace.

Inductive CharSet : Type :=
| Dot
| Atom (a : ClassAtom)
| Class (invert : bool) (members : list ClassAtom).

Inductive Regex : Type :=
| Empty
| Chr (cs : CharSet)
| Bol
| Eol
| Seq (r1 r2 : Regex)
| Alt (r1 r2 : Regex)
| Group (n : nat) (r : Regex)
| Opt (r : Regex)
| Star (cs : CharSet)
| Plus (cs : CharSet)
| PlusLazy (cs : CharSet).

Record RegExp : Type := mkRegExp {
  source : Regex;
  ignoreCase : bool;
  multiline : bool
}.

(** The state of a match: the input before the current position (nearest
    character first), the input after it, and the groups captured so
    far (latest first). *)
Record State : Type := mkState {
  before : list N;
  after : list N;
  captures : list (nat * jsstring)
}.

Definition atomMatches (ic : bool) (a : ClassAtom) (c : N) : bool :=
  match a with
  | CChar x => Canonicalize ic x =? Canonicalize ic c
  | CDigit => isDigit (Canonicalize ic c)
  | CSpace => isSpaceChar (Canonicalize ic c)
  end.

Definition charMatches (ic : bool) (cs : CharSet) (c : N) : bool :=
  match cs with
  | Dot => negb (isLineTerminator c)
  | Atom a => atomMatches ic a c
  | Class invert members =>
      xorb invert (existsb (fun a => atomMatches ic a c) members)
  end.

(** Greedy repetition of a single-character atom: the longest run first. *)
Fixpoint starGreedy (ic : bool) (cs : CharSet) (bef aft : list N)
    (caps : list (nat * jsstring)) : list State :=
  match aft with
  | c :: rest =>
      if charMatches ic cs c
      then starGreedy ic cs (c :: bef) rest caps ++ [mkState bef aft caps]
      else [mkState bef aft caps]
  | [] => [mkState bef aft caps]
  end.

(** Lazy repetition: the shortest run first. *)
Fixpoint starLazy (ic : bool) (cs : CharSet) (bef aft : list N)
    (caps : list (nat * jsstring)) : list State :=
  mkState bef aft caps ::
  match aft with
  | c :: rest =>
      if charMatches ic cs c then starLazy ic cs (c :: bef) rest caps else []
  | [] => []
  end.

Definition stepChar (ic : bool) (cs : CharSet) (x : State) : list State :=
  match after x with
  | c :: rest =>
      if charMatches ic cs c
      then [mkState (c :: before x) rest (captures x)]
      else []
  | [] => []
  end.

Definition atLineStart (ml : bool) (x : State) : bool :=
  match before x with
  | [] => true
  | c :: _ => ml && isLineTerminator c
  end.

Definition atLineEnd (ml : bool) (x : State) : bool :=
  match after x with
  | [] => true
  | c :: _ => ml && isLineTerminator c
  end.

(** The text consumed between two states of one match. *)
Definition consumed (x y : State) : jsstring :=
  firstn (length (after x) - length (after y)) (after x).

Definition setCapture (n : nat) (x y : State) : State :=
  mkState (before y) (after y) ((n, consumed x y) :: captures y).

Definition progressed (x y : State) : bool :=
  negb (length (after y) =? length (after x))%nat.

(** All the ways in which [r] matches at [x], in the order in which a
    backtracking matcher tries them. *)
Fixpoint matcher (ic ml : bool) (r : Regex) (x : State) : list State :=
  match r with
  | Empty => [x]
  | Chr cs => stepChar ic cs x
  | Bol => if atLineStart ml x then [x] else []
  | Eol => if atLineEnd ml x then [x] else []
  | Seq r1 r2 => flat_map (matcher ic ml r2) (matcher ic ml r1 x)
  | Alt r1 r2 => matcher ic ml r1 x ++ matcher ic ml r2 x
  | Group n r1 => map (setCapture n x) (matcher ic ml r1 x)
  | Opt r1 => filter (progressed x) (matcher ic ml r1 x) ++ [x]
  | Star cs => starGreedy ic cs (before x) (after x) (captures x)
  | Plus cs =>
      flat_map (fun y => starGreedy ic cs (before y) (after y) (captures y))
               (stepChar ic cs x)
  | PlusLazy cs =>
      flat_map (fun y => starLazy ic cs (before y) (after y) (captures y))
               (stepChar ic cs x)
  end.

(** The result of a successful [exec]: where the match starts and the
    state in which it ends. *)
Record MatchResult : Type := mkMatch {
  prefix : list N;
  final : State
}.

(** The search of [RegExpBuiltinExec]: the match is tried at each index
    from the current one to the length of the input. *)
Fixpoint execFrom (re : RegExp) (bef aft : list N) : option MatchResult :=
  match matcher (ignoreCase re) (multiline re) (source re)
                (mkState bef aft []) with
  | y :: _ => Some (mkMatch bef y)
  | [] =>
      match aft with
      | c :: rest => execFrom re (c :: bef) rest
      | [] => None
      end
  end.

Definition exec (re : RegExp) (s : jsstring) : option MatchResult :=
  execFrom re [] s.

Definition test (re : RegExp) (s : jsstring) : bool :=
  match exec re s with Some _ => true | None => false end.

(** [match[0]]: the text of the match. *)
Definition matched (r : MatchResult) : jsstring :=
  rev (firstn (length (before (final r)) - length (prefix r))
              (before (final r))).

(** [match[n]] for [n >= 1]; [None] is [undefined]. *)
Fixpoint lookup (n : nat) (caps : list (nat * jsstring)) : option jsstring :=
  match caps with
  | [] => None
  | (k, v) :: rest => if Nat.eqb k n then Some v else lookup n rest
  end.

Definition group (r : MatchResult) (n : nat) : option jsstring :=
  lookup n (captures (final r)).

(** [$n] in a replacement template: an unset group is the empty string. *)
Definition subst (r : MatchResult) (n : nat) : jsstring :=
  match group r n with Some v => v | None => [] end.

(** [s.replace(re, f)] for [re] without the [g] flag: the first match. *)
Definition replace (re : RegExp) (f : MatchResult -> jsstring)
    (s : jsstring) : jsstring :=
  match exec re s with
  | None => s
  | Some r => rev (prefix r) ++ f r ++ after (final r)
  end.

(** The text between two positions given by their reversed prefixes. *)
Definition between (bef bef' : list N) : jsstring :=
  rev (firstn (length bef' - length bef) bef').

(** [s.replace(re, f)] for [re] with the [g] flag, from the position
    [bef | aft] on.  After an empty match the search resumes one code
    unit further.  Each round moves at least one code unit forward, so
    [S (length aft)] rounds are enough. *)
Fixpoint replaceAllFrom (fuel : nat) (re : RegExp)
    (f : MatchResult -> jsstring) (bef aft : list N) : jsstring :=
  match fuel with
  | O => aft
  | S fuel' =>
      match execFrom re bef aft with
      | None => aft
      | Some r =>
          let y := final r in
          between bef (prefix r) ++ f r ++
          (if isEmpty (matched r)
           then match after y with
                | c :: rest =>
                    c :: replaceAllFrom fuel' re f (c :: before y) rest
                | [] => []
                end
           else replaceAllFrom fuel' re f (before y) (after y))
      end
  end.

Definition replaceAll (re : RegExp) (f : MatchResult -> jsstring)
    (s : jsstring) : jsstring :=
  replaceAllFrom (S (length s)) re f [] s.

(** ** Pattern syntax *)

Declare Scope regex_scope.
Delimit Scope regex_scope with regex.
Notation "r1 ;; r2" := (Seq r1 r2)
  (at level 61, right associativity) : regex_scope.

Definition ch (a : ascii) : Regex := Chr (Atom (CChar (chr a))).

Fixpoint word (l : list ascii) : Regex :=
  match l with
  | [] => Empty
  | [a] => ch a
  | a :: rest => Seq (ch a) (word rest)
  end.

Definition lit (s : string) : Regex := word (list_ascii_of_string s).

Definition digitOrColon : CharSet := Class false [CDigit; CChar COLON].
Definition spaceSet : CharSet := Atom CSpace.
Definition notChar (a : ascii) : CharSet := Class true [CChar (chr a)].
Definition notDigitNorLF : CharSet := Class true [CDigit; CChar LF].

(** [([\d:]+\s*(?:AM|PM)?)], the timestamp group shared by all patterns. *)
Definition timeGroup (n : nat) : Regex :=
  Group n (Plus digitOrColon ;; Star spaceSet ;;
           Opt (Alt (lit "AM") (lit "PM")))%regex.

(** [:\s*(.+)], the tail shared by the single-line patterns. *)
Definition contentTail : Regex :=
  (ch ":" ;; Star spaceSet ;; Group 3 (Plus Dot))%regex.

(** ** The program *)

Inductive Format : Type :=
| imessage | discord | whatsapp1 | whatsapp2 | slack
| generic1 | telegram | sms | standard.

Definition Format_eqb (a b : Format) : bool :=
  match a, b with
  | imessage, imessage | discord, discord | whatsapp1, whatsapp1
  | whatsapp2, whatsapp2 | slack, slack | generic1, generic1
  | telegram, telegram | sms, sms | standard, standard => true
  | _, _ => false
  end.

Definition formatName (f : Format) : string :=
  match f with
  | imessage => "imessage" | discord => "discord"
  | whatsapp1 => "whatsapp1" | whatsapp2 => "whatsapp2"
  | slack => "slack" | generic1 => "generic1"
  | telegram => "telegram" | sms => "sms" | standard => "standard"
  end.

Module Pattern.

Local Open Scope regex_scope.

(** [/^(.+)\n([\d:]+\s*(?:AM|PM)?)\n(.+)/im] *)
Definition imessage : RegExp :=
  mkRegExp (Bol ;; Group 1 (Plus Dot) ;; Chr (Atom (CChar LF)) ;;
            timeGroup 2 ;; Chr (Atom (CChar LF)) ;; Group 3 (Plus Dot))
           true true.

(** [/\[([\d:]+\s*(?:AM|PM)?)\]\s*([^:]+):\s*(.+)/i] *)
Definition discord : RegExp :=
  mkRegExp (ch "[" ;; timeGroup 1 ;; ch "]" ;; Star spaceSet ;;
            Group 2 (Plus (notChar ":")) ;; contentTail)
           true false.

(** [/([\d:]+\s*(?:AM|PM)?)\s*-\s*([^:]+):\s*(.+)/i] *)
Definition whatsapp1 : RegExp :=
  mkRegExp (timeGroup 1 ;; Star spaceSet ;; ch "-" ;; Star spaceSet ;;
            Group 2 (Plus (notChar ":")) ;; contentTail)
           true false.

(** [/([^,]+),\s*([\d:]+\s*(?:AM|PM)?):\s*(.+)/i] *)
Definition whatsapp2 : RegExp :=
  mkRegExp (Group 1 (Plus (notChar ",")) ;; ch "," ;; Star spaceSet ;;
            timeGroup 2 ;; contentTail)
           true false.

(** [/^([^\d\n]+)\s+([\d:]+\s*(?:AM|PM)?)\n(.+)/im] *)
Definition slack : RegExp :=
  mkRegExp (Bol ;; Group 1 (Plus notDigitNorLF) ;; Plus spaceSet ;;
            timeGroup 2 ;; Chr (Atom (CChar LF)) ;; Group 3 (Plus Dot))
           true true.

(** [/([^(]+)\s*\(([\d:]+\s*(?:AM|PM)?)\):\s*(.+)/i] *)
Definition generic1 : RegExp :=
  mkRegExp (Group 1 (Plus (notChar "(")) ;; Star spaceSet ;; ch "(" ;;
            timeGroup 2 ;; ch ")" ;; contentTail)
           true false.

(** [/([^\[]+)\s*\[([\d:]+\s*(?:AM|PM)?)\]\n(.+)/im] *)
Definition telegram : RegExp :=
  mkRegExp (Group 1 (Plus (notChar "[")) ;; Star spaceSet ;; ch "[" ;;
            timeGroup 2 ;; ch "]" ;; Chr (Atom (CChar LF)) ;;
            Group 3 (Plus Dot))
           true true.

(** [/^([^\d\n]+?)\s*([\d:]+\s*(?:AM|PM)?)\n(.+)/im] *)
Definition sms : RegExp :=
  mkRegExp (Bol ;; Group 1 (PlusLazy notDigitNorLF) ;; Star spaceSet ;;
            timeGroup 2 ;; Chr (Atom (CChar LF)) ;; Group 3 (Plus Dot))
           true true.

(** [/\[([\d:]+\s*(?:AM|PM)?)\]\s*([^:]+):\s*(.+)/i] *)
Definition standard : RegExp :=
  mkRegExp (ch "[" ;; timeGroup 1 ;; ch "]" ;; Star spaceSet ;;
            Group 2 (Plus (notChar ":")) ;; contentTail)
           true false.

(** The global pattern of [cleanUsername] whose class holds the single
    and the double quote. *)
Definition quotes : RegExp :=
  mkRegExp (Chr (Class false [CChar SQUOTE; CChar DQUOTE])) false false.

(** [/\s+/g] *)
Definition spaces : RegExp := mkRegExp (Plus spaceSet) false false.

(** [/:+$/] *)
Definition trailingColons : RegExp :=
  mkRegExp (Plus (Atom (CChar COLON)) ;; Eol) false false.

(** [/(\d)(AM|PM)/i] *)
Definition digitMeridiem : RegExp :=
  mkRegExp (Group 1 (Chr (Atom CDigit)) ;;
            Group 2 (Alt (lit "AM") (lit "PM")))
           true false.

(** [/(am|pm)/i] *)
Definition meridiem : RegExp :=
  mkRegExp (Group 1 (Alt (lit "am") (lit "pm"))) true false.

End Pattern.

(** [this.patterns], in the order of [Object.entries]: the keys are not
    integer-like, so the order is that of the object literal. *)
Definition patterns : list (Format * RegExp) :=
  [ (imessage, Pattern.imessage);
    (discord, Pattern.discord);
    (whatsapp1, Pattern.whatsapp1);
    (whatsapp2, Pattern.whatsapp2);
    (slack, Pattern.slack);
    (generic1, Pattern.generic1);
    (telegram, Pattern.telegram);
    (sms, Pattern.sms);
    (standard, Pattern.standard) ].

Record Message : Type := mkMessage {
  time : jsstring;
  user : jsstring;
  content : jsstring;
  format : Format
}.

(** Completions: a call returns or throws. *)
Inductive Error : Type := TypeError.

Inductive Completion (A : Type) : Type :=
| Normal (a : A)
| Throw (e : Error).

Arguments Normal {A} a.
Arguments Throw {A} e.

Definition bind {A B : Type} (c : Completion A) (k : A -> Completion B)
    : Completion B :=
  match c with
  | Normal a => k a
  | Throw e => Throw e
  end.

Notation "x <- c ;; k" := (bind c (fun x => k))
  (at level 61, c at next level, right associativity).

(** [match[n].trim()]: a method call on [undefined] throws. *)
Definition groupTrim (r : MatchResult) (n : nat) : Completion jsstring :=
  match group r n with
  | Some v => Normal (trim v)
  | None => Throw TypeError
  end.

Definition cleanUsername (name : jsstring) : jsstring :=
  let name := replaceAll Pattern.quotes (fun _ => []) name in
  let name := trim (replaceAll Pattern.spaces (fun _ => [SPACE]) name) in
  let name := replace Pattern.trailingColons (fun _ => []) name in
  name.

Definition normalizeTime (time : jsstring) : jsstring :=
  let time := replace Pattern.digitMeridiem
                (fun r => subst r 1 ++ [SPACE] ++ subst r 2) time in
  let time := replace Pattern.meridiem
                (fun r => toUpperCase (matched r)) time in
  time.

(** The assignment of the three groups to the fields, by format.  The
    result is (time, user, content); when no branch is taken the fields
    stay [undefined] and the call of [cleanUsername] throws. *)
Definition fields (format : Format) (r : MatchResult)
    : Completion (jsstring * jsstring * jsstring) :=
  if Format_eqb format imessage || Format_eqb format slack
     || Format_eqb format telegram || Format_eqb format sms then
    user <- groupTrim r 1 ;; time <- groupTrim r 2 ;;
    content <- groupTrim r 3 ;; Normal (time, user, content)
  else if Format_eqb format whatsapp1 then
    time <- groupTrim r 1 ;; user <- groupTrim r 2 ;;
    content <- groupTrim r 3 ;; Normal (time, user, content)
  else if Format_eqb format whatsapp2 then
    user <- groupTrim r 1 ;; time <- groupTrim r 2 ;;
    content <- groupTrim r 3 ;; Normal (time, user, content)
  else if Format_eqb format discord || Format_eqb format standard then
    time <- groupTrim r 1 ;; user <- groupTrim r 2 ;;
    content <- groupTrim r 3 ;; Normal (time, user, content)
  else if Format_eqb format generic1 then
    user <- groupTrim r 1 ;; time <- groupTrim r 2 ;;
    content <- groupTrim r 3 ;; Normal (time, user, content)
  else Throw TypeError.

(** The loop of [parseLine] over the entries of the table. *)
Fixpoint parseLineWith (table : list (Format * RegExp)) (line : jsstring)
    : Completion (option Message) :=
  match table with
  | [] => Normal None
  | (format, pattern) :: rest =>
      match exec pattern line with
      | None => parseLineWith rest line
      | Some r =>
          tuc <- fields format r ;;
          let '(time, user, content) := tuc in
          let user := cleanUsername user in
          let time := normalizeTime time in
          Normal (Some (mkMessage time user content format))
      end
  end.

Definition parseLine (line : jsstring) : Completion (option Message) :=
  parseLineWith patterns line.

Definition appendContent (m : Message) (s : jsstring) : Message :=
  mkMessage (time m) (user m) (content m ++ s) (format m).

(** The body of the loop of [parse], on the pair of [messages] and
    [currentMessage]. *)
Definition parseStep (st : list Message * option Message) (line : jsstring)
    : Completion (list Message * option Message) :=
  let '(messages, currentMessage) := st in
  parsed <- parseLine line ;;
  match parsed with
  | Some p =>
      let messages :=
        match currentMessage with
        | Some c => messages ++ [c]
        | None => messages
        end in
      Normal (messages, Some p)
  | None =>
      match currentMessage with
      | Some c => Normal (messages, Some (appendContent c (SPACE :: line)))
      | None => Normal (messages, None)
      end
  end.

Fixpoint parseLoop (lines : list jsstring)
    (st : list Message * option Message)
    : Completion (list Message * option Message) :=
  match lines with
  | [] => Normal st
  | line :: rest => st' <- parseStep st line ;; parseLoop rest st'
  end.

(** [text.split('\n').map(l => l.trim()).filter(l => l)] *)
Definition linesOf (text : jsstring) : list jsstring :=
  filter (fun l => negb (isEmpty l)) (map trim (split LF text)).

Definition parse (text : jsstring) : Completion (list Message) :=
  if isEmpty text || isEmpty (trim text) then Normal []
  else
    st <- parseLoop (linesOf text) ([], None) ;;
    let '(messages, currentMessage) := st in
    Normal match currentMessage with
           | Some c => messages ++ [c]
           | None => messages
           end.

Definition standardLine (msg : Message) : jsstring :=
  str "[" ++ time msg ++ str "] " ++ user msg ++ str ": " ++ content msg.

Definition toStandardFormat (messages : list Message) : jsstring :=
  join [LF] (map standardLine messages).

Fixpoint firstMatching (table : list (Format * RegExp)) (sample : jsstring)
    : option Format :=
  match table with
  | [] => None
  | (format, pattern) :: rest =>
      if test pattern sample then Some format else firstMatching rest sample
  end.

Definition detectFormat (text : jsstring) : string :=
  let sample := join [LF] (firstn 5 (split LF text)) in
  match firstMatching patterns sample with
  | Some format => formatName format
  | None => "unknown"
  end.

Definition examples : list (string * jsstring) :=
  [ ("imessage"%string, str "John Doe" ++ LF :: str "10:30 AM" ++ LF ::
                 str "Hey what's up");
    ("discord"%string, str "[10:30 AM] John: Hey what's up");
    ("whatsapp1"%string, str "10:30 AM - John: Hey what's up");
    ("whatsapp2"%string, str "John, 10:30 AM: Hey what's up");
    ("slack"%string, str "John 10:30 AM" ++ LF :: str "Hey what's up");
    ("telegram"%string, str "John [10:30]" ++ LF :: str "Hey what's up");
    ("sms"%string, str "John 10:30" ++ LF :: str "Hey what's up");
    ("generic1"%string, str "John (10:30): Hey what's up");
    ("standard"%string, str "[10:30 AM] John: Hey what's up") ].

Fixpoint property (key : string) (obj : list (string * jsstring))
    : option jsstring :=
  match obj with
  | [] => None
  | (k, v) :: rest => if String.eqb k key then Some v else property key rest
  end.

(** [examples[format] || examples.standard]: a missing key gives
    [undefined], which is falsy, and so would an empty example.  The keys
    that an object literal inherits from its prototype are not modelled;
    the properties below call the function on the nine tags only. *)
Definition getFormatExample (format : string) : jsstring :=
  match property format examples with
  | Some v => if isEmpty v then str "[10:30 AM] John: Hey what's up" else v
  | None => str "[10:30 AM] John: Hey what's up"
  end.

(** ** Reference definitions

    Direct descriptions of what the properties below talk about, against
    which the functions of the program are compared. *)

Definition endsWithSpace (s : jsstring) : bool :=
  match rev s with
  | c :: _ => isSpaceChar c
  | [] => false
  end.

Definition hasMultilineTag (m : Message) : bool :=
  match format m with
  | imessage | slack | telegram | sms => true
  | _ => false
  end.

(** The pattern matches at some index of the string. *)
Definition matchesSomewhere (re : RegExp) (s : jsstring) : Prop :=
  exists pre post,
    s = pre ++ post /\
    matcher (ignoreCase re) (multiline re) (source re)
            (mkState (rev pre) post []) <> [].

(** [f] is the first rule of the table, in its order, that satisfies [P]. *)
Definition firstRule (P : RegExp -> Prop) (table : list (Format * RegExp))
    (f : Format) : Prop :=
  exists pre pat post,
    table = pre ++ (f, pat) :: post /\ P pat /\
    Forall (fun e => ~ P (snd e)) pre.

Definition noRule (P : RegExp -> Prop) (table : list (Format * RegExp))
    : Prop :=
  Forall (fun e => ~ P (snd e)) table.

(** The detector as the specification words it: the sample is made of the
    first five lines that are not empty. *)
Definition detectFormatNonEmpty (text : jsstring) : string :=
  let sample :=
    join [LF] (firstn 5 (filter (fun l => negb (isEmpty l))
                                (split LF text))) in
  match firstMatching patterns sample with
  | Some format => formatName format
  | None => "unknown"
  end.

(** A meridiem marker, in either case. *)
Definition isMeridiem (a b : N) : bool :=
  ((toUpperUnit a =? 65) || (toUpperUnit a =? 80)) && (toUpperUnit b =? 77).

(** A space at the first place where a digit touches a marker. *)
Fixpoint spaceFirst (s : jsstring) : jsstring :=
  match s with
  | [] => []
  | d :: rest =>
      match rest with
      | a :: b :: _ =>
          if isDigit d && isMeridiem a b then d :: SPACE :: rest
          else d :: spaceFirst rest
      | _ => d :: spaceFirst rest
      end
  end.

(** The first marker in upper case. *)
Fixpoint upperFirst (s : jsstring) : jsstring :=
  match s with
  | [] => []
  | a :: rest =>
      match rest with
      | b :: rest' =>
          if isMeridiem a b then toUpperUnit a :: toUpperUnit b :: rest'
          else a :: upperFirst rest
      | [] => [a]
      end
  end.

(** A space at every place where a digit touches a marker. *)
Fixpoint spaceEvery (s : jsstring) : jsstring :=
  match s with
  | [] => []
  | d :: rest =>
      match rest with
      | a :: b :: _ =>
          if isDigit d && isMeridiem a b then d :: SPACE :: spaceEvery rest
          else d :: spaceEvery rest
      | _ => d :: spaceEvery rest
      end
  end.

(** Every marker in upper case. *)
Fixpoint upperEvery (s : jsstring) : jsstring :=
  match s with
  | [] => []
  | a :: rest =>
      match rest with
      | b :: rest' =>
          if isMeridiem a b
          then toUpperUnit a :: toUpperUnit b :: upperEvery rest'
          else a :: upperEvery rest
      | [] => [a]
      end
  end.

(** The three fields that the round trip is about. *)
Definition triple (m : Message) : jsstring * jsstring * jsstring :=
  (time m, user m, content m).

(** The message of the one-line examples of the source. *)
Definition john (t : string) (f : Format) : Message :=
  mkMessage (str t) (str "John") (str "Hey what's up") f.

(** The pattern cannot match without consuming a line feed. *)
Fixpoint requiresLF (r : Regex) : bool :=
  match r with
  | Chr (Atom (CChar c)) => c =? LF
  | Seq a b => requiresLF a || requiresLF b
  | Group _ a => requiresLF a
  | Alt a b => requiresLF a && requiresLF b
  | _ => false
  end.

(** Every match of the pattern sets group [n]. *)
Fixpoint binds (n : nat) (r : Regex) : bool :=
  match r with
  | Group k a => Nat.eqb k n || binds n a
  | Seq a b => binds n a || binds n b
  | Alt a b => binds n a && binds n b
  | _ => false
  end.

(** [y] is reached from [x] by reading [w]. *)
Definition extends (x : State) (w : jsstring) (y : State) : Prop :=
  after x = w ++ after y /\ before y = rev w ++ before x.

(** The message that [parseLine] builds from the trimmed fields. *)
Definition messageOf (f : Format) (tuc : jsstring * jsstring * jsstring)
    : Message :=
  let '(t, u, c) := tuc in mkMessage (normalizeTime t) (cleanUsername u) c f.

(** A property of every message of a state of the loop of [parse]. *)
Definition stateAll (P : Message -> Prop)
    (st : list Message * option Message) : Prop :=
  Forall P (fst st) /\
  match snd st with Some c => P c | None => True end.

(** The patterns of the multi-line header rules. *)
Definition multilinePatterns : list RegExp :=
  [Pattern.imessage; Pattern.slack; Pattern.telegram; Pattern.sms].

(** The part of [replace] behind the position [bef | aft]. *)
Definition replaceFrom (re : RegExp) (f : MatchResult -> jsstring)
    (bef aft : list N) : jsstring :=
  match execFrom re bef aft with
  | None => aft
  | Some r => between bef (prefix r) ++ f r ++ after (final r)
  end.

(** What is left of [s] after its longest prefix in [p]. *)
Fixpoint skipRun (p : N -> bool) (s : jsstring) : jsstring :=
  match s with
  | c :: r => if p c then skipRun p r else s
  | [] => []
  end.

Definition isQuote (c : N) : bool := (c =? SQUOTE) || (c =? DQUOTE).

Definition isColon (c : N) : bool := c =? COLON.

(** Every run of white space replaced by one space; [inRun] tells that
    the character before was white space. *)
Fixpoint collapse (inRun : bool) (s : jsstring) : jsstring :=
  match s with
  | [] => []
  | c :: r =>
      if isSpaceChar c
      then if inRun then collapse true r else SPACE :: collapse true r
      else c :: collapse false r
  end.

(** The string without the colons at its end. *)
Fixpoint stripColons (s : jsstring) : jsstring :=
  match s with
  | [] => []
  | c :: r => if forallb isColon s then [] else c :: stripColons r
  end.

(** The steps of [cleanUsername], without regular expressions. *)
Definition cleanUsernamePlain (name : jsstring) : jsstring :=
  stripColons
    (trim (collapse false (filter (fun c => negb (isQuote c)) name))).

Definition startsWithSpace (s : jsstring) : bool :=
  match s with
  | c :: _ => isSpaceChar c
  | [] => false
  end.

(** Every white space character of [s] is a space that follows no white
    space; [inRun] tells that the character before was white space. *)
Fixpoint spacedFrom (inRun : bool) (s : jsstring) : bool :=
  match s with
  | [] => true
  | c :: r =>
      if isSpaceChar c
      then (c =? SPACE) && negb inRun && spacedFrom true r
      else spacedFrom false r
  end.

Definition isDigitOrColon (c : N) : bool := isDigit c || isColon c.

(** The string starts with a meridiem marker. *)
Definition meridiemAhead (s : jsstring) : bool :=
  match s with
  | a :: b :: _ => isMeridiem a b
  | _ => false
  end.

(** The timestamps that [normalizeTime] returns on the trimmed text of a
    timestamp group of a line: digits and colons, alone or followed by
    white space other than a line feed and an upper-case marker, with the
    white space there when the last character before the marker is a
    digit. *)
Inductive normalTime : jsstring -> Prop :=
| plainTime D :
    D <> [] -> forallb isDigitOrColon D = true -> normalTime D
| markedTime D W X :
    D <> [] -> forallb isDigitOrColon D = true ->
    forallb isSpaceChar W = true -> ~ In LF W ->
    (W = [] -> isDigit (last D 0) = false) ->
    X = 65 \/ X = 80 ->
    normalTime (D ++ W ++ [X; 77]).

(** The bodies of the groups numbered [n] in a pattern. *)
Fixpoint groupBodies (n : nat) (r : Regex) : list Regex :=
  match r with
  | Group k a => (if Nat.eqb k n then [a] else []) ++ groupBodies n a
  | Seq a b | Alt a b => groupBodies n a ++ groupBodies n b
  | Opt a => groupBodies n a
  | _ => []
  end.

(** The body of the timestamp group. *)
Definition timeBody : Regex :=
  (Plus digitOrColon ;; Star spaceSet ;;
   Opt (Alt (lit "AM") (lit "PM")))%regex.

(** [y] is the first element of [l]. *)
Definition headIs {A : Type} (l : list A) (y : A) : Prop :=
  exists tl, l = y :: tl.

(** The pattern is a sequence of terms that ends with [t]. *)
Inductive seqTail (t : Regex) : Regex -> Prop :=
| seqTail_here : seqTail t t
| seqTail_next a r : seqTail t r -> seqTail t (Seq a r).

(** [\s*(.+)], the end of every single-line pattern. *)
Definition spacesThenContent : Regex :=
  (Star spaceSet ;; Group 3 (Plus Dot))%regex.

Definition singleLinePatterns : list RegExp :=
  [Pattern.discord; Pattern.whatsapp1; Pattern.whatsapp2;
   Pattern.generic1; Pattern.standard].

(** The lines that [parse] gives to [parseLine]: trimmed, not empty, and
    without a line feed. *)
Definition trimmedLine (line : jsstring) : Prop :=
  line <> [] /\ startsWithSpace line = false /\
  endsWithSpace line = false /\ ~ In LF line.

(** What every message returned by [parse] satisfies. *)
Definition wellFormed (m : Message) : Prop :=
  normalTime (time m) /\
  (exists name, user m = cleanUsername name) /\
  content m <> [] /\ startsWithSpace (content m) = false /\
  endsWithSpace (content m) = false.

(** The conditions under which a message survives the round trip: no
    colon in the user, no white space at its end, and no line terminator
    in the content. *)
Definition roundTrips (m : Message) : Prop :=
  ~ In COLON (user m) /\ endsWithSpace (user m) = false /\
  forallb (fun c => negb (isLineTerminator c)) (content m) = true.

(** The message with the tag of the rule that reads the standard form. *)
Definition retagged (m : Message) : Message :=
  mkMessage (time m) (user m) (content m) discord.

(** The first way in which [r] matches before [w ++ rest] reads exactly
    [w] and turns the captures [caps] into [caps']. *)
Definition reads (r : Regex) (w rest : jsstring)
    (caps caps' : list (nat * jsstring)) : Prop :=
  forall bef, exists bef',
    headIs (matcher true false r (mkState bef (w ++ rest) caps))
           (mkState bef' rest caps').

(** The next character, if any, is outside the set. *)
Definition stopsAt (p : N -> bool) (rest : jsstring) : Prop :=
  match rest with
  | c :: _ => p c = false
  | [] => True
  end.

(** The messages of a state of the loop of [parse], the open one last. *)
Definition closeAll (st : list Message * option Message) : list Message :=
  fst st ++ match snd st with Some c => [c] | None => [] end.

(** The messages that the lines open, in the order of the lines: one for
    each line that [parseLine] takes. *)
Definition openers (lines : list jsstring) : list Message :=
  flat_map (fun l => match parseLine l with
                     | Normal (Some m) => [m]
                     | _ => []
                     end) lines.

(** [m] is [o] with more content after it. *)
Definition continues (m o : Message) : Prop :=
  time m = time o /\ user m = user o /\ format m = format o /\
  exists tail, content m = content o ++ tail.

(** The pattern cannot match without consuming the code unit [u]. *)
Fixpoint requiresUnit (u : N) (r : Regex) : bool :=
  match r with
  | Chr (Atom (CChar c)) => c =? u
  | Seq a b => requiresUnit u a || requiresUnit u b
  | Group _ a => requiresUnit u a
  | Alt a b => requiresUnit u a && requiresUnit u b
  | _ => false
  end.

(** The characters that a string must hold for the pattern of the rule
    to match it: brackets, dash, comma, parentheses, colon, line feed. *)
Definition delimiters (f : Format) : list N :=
  match f with
  | discord | standard => [91; 93; COLON]
  | whatsapp1 => [45; COLON]
  | whatsapp2 => [44; COLON]
  | generic1 => [40; 41; COLON]
  | telegram => [91; 93; LF]
  | imessage | slack | sms => [LF]
  end.

Definition endsWithColon (s : jsstring) : bool :=
  match rev s with
  | c :: _ => isColon c
  | [] => false
  end.

(** The pattern holds neither [^] nor [$]. *)
Fixpoint assertionFree (r : Regex) : bool :=
  match r with
  | Bol | Eol => false
  | Seq a b | Alt a b => assertionFree a && assertionFree b
  | Group _ a | Opt a => assertionFree a
  | _ => true
  end.

(** The state [x] in an input with [l] more before and [r] more after. *)
Definition widen (l r : list N) (x : State) : State :=
  mkState (before x ++ l) (after x ++ r) (captures x).

(** The name is one that [cleanUsername] returns as it is. *)
Definition cleanName (u : jsstring) : Prop :=
  forallb (fun c => negb (isQuote c)) u = true /\
  spacedFrom false u = true /\
  startsWithSpace u = false /\ endsWithSpace u = false /\
  endsWithColon u = false.

(** Some digit of the string is immediately followed by a marker. *)
Fixpoint digitBeforeMarker (s : jsstring) : bool :=
  match s with
  | [] => false
  | d :: rest => (isDigit d && meridiemAhead rest) || digitBeforeMarker rest
  end.

(** The string without its spaces and in upper case. *)
Definition squash (s : jsstring) : jsstring :=
  map toUpperUnit (filter (fun c => negb (c =? SPACE)) s).

(** The number of the timestamp group in the pattern of the rule. *)
Definition timeIndex (f : Format) : nat :=
  match f with
  | discord | whatsapp1 | standard => 1
  | _ => 2
  end.

(** What [parse] guarantees about each message it returns. *)
Definition tidy (m : Message) : Prop :=
  (time m <> [] /\ trim (time m) = time m /\
   normalizeTime (time m) = time m) /\
  (forallb (fun c => negb (isQuote c)) (user m) = true /\
   spacedFrom false (user m) = true /\
   startsWithSpace (user m) = false /\ endsWithColon (user m) = false) /\
  (content m <> [] /\ trim (content m) = content m) /\
  ~ In LF (time m ++ user m ++ content m).

(** * Properties *)

(** ** Evaluation on the examples of the source *)

(** C1, as amended: for each single-line rule tag (discord, whatsapp1,
    whatsapp2, generic1) the parse of the example of the tag is exactly one
    message, with that tag as format and the sender, timestamp and body of
    the example as fields; the example of standard parses to the same
    message as that of discord, with format discord; and the two bracketed
    lines parse to exactly the two messages of John and Jane. *)
Theorem parse_single_line_examples :
  parse (getFormatExample (formatName discord))
    = Normal [john "10:30 AM" discord] /\
  parse (getFormatExample (formatName whatsapp1))
    = Normal [john "10:30 AM" whatsapp1] /\
  parse (getFormatExample (formatName whatsapp2))
    = Normal [john "10:30 AM" whatsapp2] /\
  parse (getFormatExample (formatName generic1))
    = Normal [john "10:30" generic1] /\
  parse (getFormatExample (formatName standard))
    = Normal [john "10:30 AM" discord] /\
  parse (str "[10:30 AM] John: Hey what's up" ++ LF ::
         str "[10:31 AM] Jane: Not much, you?")
    = Normal [ mkMessage (str "10:30 AM") (str "John")
                         (str "Hey what's up") discord;
               mkMessage (str "10:31 AM") (str "Jane")
                         (str "Not much, you?") discord ].
Proof. repeat split; vm_compute; reflexivity. Qed.

(** C1 fails as stated: the example of the tag standard parses to a single
    message whose format is discord, so no message of the result carries
    the tag standard. *)
Lemma standard_example_not_tagged_standard :
  ~ exists msgs m,
      parse (getFormatExample (formatName standard)) = Normal msgs /\
      In m msgs /\ format m = standard.
Proof.
  intros (msgs & m & Hp & Hin & Hf).
  vm_compute in Hp. injection Hp as <-.
  destruct Hin as [<- | []]. discriminate Hf.
Qed.

(** C9: [normalizeTime] puts the space and the upper case into 10:30am,
    leaves 10:30 AM as it is, and [cleanUsername] turns the quoted John,
    two spaces, Doe, colon, space into John Doe. *)
Theorem normalization_examples :
  normalizeTime (str "10:30am") = str "10:30 AM" /\
  normalizeTime (str "10:30 AM") = str "10:30 AM" /\
  cleanUsername (DQUOTE :: str "John" ++ DQUOTE :: str "  Doe: ")
    = str "John Doe".
Proof. repeat split; vm_compute; reflexivity. Qed.

(** C10: some input makes [parse] return a message whose user ends with
    white space: the line a, space, colon, comma, 10:30, colon, hi is taken
    by the whatsapp2 rule, its sender capture a, space, colon is cleaned to
    a, space, because the colons go after the trim. *)
Theorem user_may_end_with_space :
  cleanUsername (str "a :") = str "a " /\
  parse (str "a :, 10:30: hi")
    = Normal [mkMessage (str "10:30") (str "a ") (str "hi") whatsapp2] /\
  exists text msgs m,
    parse text = Normal msgs /\ In m msgs /\ endsWithSpace (user m) = true.
Proof.
  split; [vm_compute; reflexivity|].
  split; [vm_compute; reflexivity|].
  exists (str "a :, 10:30: hi"), [mkMessage (str "10:30") (str "a ") (str "hi") whatsapp2],
    (mkMessage (str "10:30") (str "a ") (str "hi") whatsapp2).
  split; [vm_compute; reflexivity|].
  split; [left; reflexivity | vm_compute; reflexivity].
Qed.

(** ** Characters *)

Lemma canonicalize_LF ic c : Canonicalize ic c = LF -> c = LF.
Proof.
  unfold Canonicalize, toUpperUnit, LF.
  destruct ic; [|auto].
  destruct ((97 <=? c) && (c <=? 122)) eqn:E; [|auto].
  apply andb_true_iff in E as [E1 E2].
  apply N.leb_le in E1. lia.
Qed.

Lemma charMatches_LF ic c :
  charMatches ic (Atom (CChar LF)) c = true -> c = LF.
Proof.
  simpl. intros H. apply N.eqb_eq in H.
  apply canonicalize_LF with ic. rewrite <- H.
  destruct ic; reflexivity.
Qed.

Lemma nonSpace_matches_dot ic c :
  isSpaceChar c = false -> charMatches ic Dot c = true.
Proof.
  unfold isSpaceChar. intros H. apply orb_false_iff in H as [_ H].
  simpl. now rewrite H.
Qed.

(** ** The matcher reads the input forward *)

Lemma extends_refl x : extends x [] x.
Proof. split; reflexivity. Qed.

Lemma extends_trans x w y v z :
  extends x w y -> extends y v z -> extends x (w ++ v) z.
Proof.
  intros [A1 B1] [A2 B2]. split.
  - now rewrite A1, A2, app_assoc.
  - now rewrite B2, B1, rev_app_distr, app_assoc.
Qed.

Lemma consumed_extends x w y : extends x w y -> consumed x y = w.
Proof.
  intros [A _]. unfold consumed. rewrite A, length_app.
  replace (length w + length (after y) - length (after y))%nat
    with (length w + 0)%nat by lia.
  rewrite firstn_app_2. simpl. apply app_nil_r.
Qed.

Lemma stepChar_in ic cs x y :
  In y (stepChar ic cs x) ->
  exists c, charMatches ic cs c = true /\ extends x [c] y /\
            captures y = captures x.
Proof.
  unfold stepChar. destruct (after x) as [|c rest] eqn:E; [intros []|].
  destruct (charMatches ic cs c) eqn:M; [|intros []].
  intros [<- | []]. exists c. repeat split; simpl; auto.
Qed.

Lemma starGreedy_in ic cs aft : forall bef caps y,
  In y (starGreedy ic cs bef aft caps) ->
  exists w, forallb (charMatches ic cs) w = true /\
            aft = w ++ after y /\ before y = rev w ++ bef /\
            captures y = caps.
Proof.
  induction aft as [|c rest IH]; intros bef caps y; simpl.
  - intros [<- | []]. exists []. auto.
  - destruct (charMatches ic cs c) eqn:M.
    + rewrite in_app_iff. intros [H | [<- | []]].
      * apply IH in H as (w & F & A & B & C).
        exists (c :: w). simpl. rewrite M, F, <- A, B, <- app_assoc.
        auto.
      * exists []. auto.
    + intros [<- | []]. exists []. auto.
Qed.

Lemma starLazy_in ic cs aft : forall bef caps y,
  In y (starLazy ic cs bef aft caps) ->
  exists w, forallb (charMatches ic cs) w = true /\
            aft = w ++ after y /\ before y = rev w ++ bef /\
            captures y = caps.
Proof.
  induction aft as [|c rest IH]; intros bef caps y; simpl.
  - intros [<- | []]. exists []. auto.
  - intros [<- | H]; [exists []; auto|].
    destruct (charMatches ic cs c) eqn:M; [|destruct H].
    apply IH in H as (w & F & A & B & C).
    exists (c :: w). simpl. rewrite M, F, <- A, B, <- app_assoc. auto.
Qed.

Lemma matcher_extends ic ml r : forall x y,
  In y (matcher ic ml r x) -> exists w, extends x w y.
Proof.
  induction r; intros x y; simpl.
  - intros [<- | []]. exists []. apply extends_refl.
  - intros H. apply stepChar_in in H as (c & _ & E & _). eauto.
  - destruct (atLineStart ml x); [|intros []].
    intros [<- | []]. exists []. apply extends_refl.
  - destruct (atLineEnd ml x); [|intros []].
    intros [<- | []]. exists []. apply extends_refl.
  - rewrite in_flat_map. intros (z & H1 & H2).
    apply IHr1 in H1 as (w & E1). apply IHr2 in H2 as (v & E2).
    exists (w ++ v). eapply extends_trans; eauto.
  - rewrite in_app_iff. intros [H | H]; eauto.
  - rewrite in_map_iff. intros (z & <- & H).
    apply IHr in H as (w & E). exists w. exact E.
  - rewrite in_app_iff, filter_In. intros [[H _] | [<- | []]]; eauto.
    exists []. apply extends_refl.
  - intros H. apply starGreedy_in in H as (w & _ & A & B & _).
    exists w. split; assumption.
  - rewrite in_flat_map. intros (z & H1 & H2).
    apply stepChar_in in H1 as (c & _ & E1 & _).
    apply starGreedy_in in H2 as (w & _ & A & B & _).
    exists ([c] ++ w). eapply extends_trans; eauto. split; assumption.
  - rewrite in_flat_map. intros (z & H1 & H2).
    apply stepChar_in in H1 as (c & _ & E1 & _).
    apply starLazy_in in H2 as (w & _ & A & B & _).
    exists ([c] ++ w). eapply extends_trans; eauto. split; assumption.
Qed.

Lemma matcher_requiresLF ic ml r : forall x y,
  requiresLF r = true -> In y (matcher ic ml r x) ->
  exists w, extends x w y /\ In LF w.
Proof.
  induction r; intros x y R; simpl in R; try discriminate; simpl.
  - destruct cs as [|[c| |]|]; try discriminate.
    apply N.eqb_eq in R. subst c.
    intros H. apply stepChar_in in H as (c & M & E & _).
    apply charMatches_LF in M. subst c.
    exists [LF]. split; [assumption | now left].
  - rewrite in_flat_map. intros (z & H1 & H2).
    apply orb_true_iff in R as [R | R].
    + apply (IHr1 _ _ R) in H1 as (w & E1 & I).
      apply matcher_extends in H2 as (v & E2).
      exists (w ++ v). split; [eapply extends_trans; eauto|].
      apply in_app_iff. now left.
    + apply matcher_extends in H1 as (w & E1).
      apply (IHr2 _ _ R) in H2 as (v & E2 & I).
      exists (w ++ v). split; [eapply extends_trans; eauto|].
      apply in_app_iff. now right.
  - apply andb_true_iff in R as [R1 R2].
    rewrite in_app_iff. intros [H | H]; eauto.
  - rewrite in_map_iff. intros (z & <- & H).
    apply (IHr _ _ R) in H as (w & E & I). exists w. split; assumption.
Qed.

(** ** The search *)

Lemma execFrom_some re aft : forall bef r,
  execFrom re bef aft = Some r ->
  exists pre post,
    aft = pre ++ post /\ prefix r = rev pre ++ bef /\
    exists tl, matcher (ignoreCase re) (multiline re) (source re)
                       (mkState (prefix r) post []) = final r :: tl.
Proof.
  induction aft as [|c rest IH]; intros bef r; simpl.
  - destruct (matcher _ _ _ _) as [|y tl] eqn:M; [discriminate|].
    intros [= <-]. exists [], []. simpl. eauto.
  - destruct (matcher _ _ _ _) as [|y tl] eqn:M.
    + intros H. apply IH in H as (pre & post & A & B & C).
      exists (c :: pre), post. simpl. rewrite <- app_assoc.
      repeat split; [now rewrite A | exact B | exact C].
    + intros [= <-]. exists [], (c :: rest). simpl. eauto.
Qed.

Lemma execFrom_none re aft : forall bef,
  execFrom re bef aft = None ->
  forall pre post, aft = pre ++ post ->
    matcher (ignoreCase re) (multiline re) (source re)
            (mkState (rev pre ++ bef) post []) = [].
Proof.
  induction aft as [|c rest IH]; intros bef; simpl.
  - destruct (matcher _ _ _ _) as [|y tl] eqn:M; [|discriminate].
    intros _ pre post E. symmetry in E.
    apply app_eq_nil in E as [-> ->]. exact M.
  - destruct (matcher _ _ _ _) as [|y tl] eqn:M; [|discriminate].
    intros H [|c' pre] post E.
    + simpl in E. subst post. exact M.
    + simpl in E. injection E as -> ->.
      specialize (IH _ H pre post eq_refl).
      simpl. now rewrite <- app_assoc.
Qed.

Lemma test_matchesSomewhere re s :
  test re s = true <-> matchesSomewhere re s.
Proof.
  unfold test, exec, matchesSomewhere. split.
  - destruct (execFrom re [] s) as [r|] eqn:E; [|discriminate].
    intros _. apply execFrom_some in E as (pre & post & A & B & tl & C).
    exists pre, post. split; [assumption|].
    rewrite app_nil_r in B. rewrite <- B, C. discriminate.
  - intros (pre & post & A & M).
    destruct (execFrom re [] s) as [r|] eqn:E; [reflexivity|].
    exfalso. apply M.
    pose proof (execFrom_none _ _ _ E pre post A) as H.
    now rewrite app_nil_r in H.
Qed.

Lemma exec_requiresLF re s r :
  requiresLF (source re) = true -> exec re s = Some r -> In LF s.
Proof.
  intros R E. apply execFrom_some in E as (pre & post & A & _ & tl & C).
  assert (H : In (final r) (matcher (ignoreCase re) (multiline re)
                (source re) (mkState (prefix r) post [])))
    by (rewrite C; now left).
  apply (matcher_requiresLF _ _ _ _ _ R) in H as (w & [E _] & I).
  simpl in E. subst s. apply in_app_iff. right.
  rewrite E. apply in_app_iff. now left.
Qed.

Lemma exec_matchesSomewhere re s :
  exec re s <> None <-> matchesSomewhere re s.
Proof.
  rewrite <- test_matchesSomewhere. unfold test.
  destruct (exec re s); split; congruence.
Qed.

(** ** Captures *)

Lemma matcher_lookup ic ml n r : forall x y,
  In y (matcher ic ml r x) ->
  binds n r = true \/ lookup n (captures x) <> None ->
  lookup n (captures y) <> None.
Proof.
  induction r; intros x y; simpl.
  - intros [<- | []] [H | H]; [discriminate | assumption].
  - intros H [K | K]; [discriminate|].
    apply stepChar_in in H as (c & _ & _ & ->). assumption.
  - destruct (atLineStart ml x); [|intros []].
    intros [<- | []] [H | H]; [discriminate | assumption].
  - destruct (atLineEnd ml x); [|intros []].
    intros [<- | []] [H | H]; [discriminate | assumption].
  - rewrite in_flat_map. intros (z & H1 & H2) K.
    apply (IHr2 _ _ H2).
    destruct K as [K | K].
    + apply orb_true_iff in K as [K | K]; [right | now left].
      apply (IHr1 _ _ H1). now left.
    + right. apply (IHr1 _ _ H1). now right.
  - rewrite in_app_iff. intros [H | H] [K | K].
    + apply andb_true_iff in K as [K _]. apply (IHr1 _ _ H). now left.
    + apply (IHr1 _ _ H). now right.
    + apply andb_true_iff in K as [_ K]. apply (IHr2 _ _ H). now left.
    + apply (IHr2 _ _ H). now right.
  - rewrite in_map_iff. intros (z & <- & H) K. simpl.
    destruct (Nat.eqb n0 n) eqn:E; [discriminate|].
    apply (IHr _ _ H). destruct K as [K | K]; [left | now right].
    exact K.
  - rewrite in_app_iff, filter_In.
    intros [[H _] | [<- | []]] [K | K]; try discriminate; try assumption.
    apply (IHr _ _ H). now right.
  - intros H [K | K]; [discriminate|].
    apply starGreedy_in in H as (_ & _ & _ & _ & ->). assumption.
  - rewrite in_flat_map. intros (z & H1 & H2) [K | K]; [discriminate|].
    apply stepChar_in in H1 as (c & _ & _ & C1).
    apply starGreedy_in in H2 as (_ & _ & _ & _ & ->). now rewrite C1.
  - rewrite in_flat_map. intros (z & H1 & H2) [K | K]; [discriminate|].
    apply stepChar_in in H1 as (c & _ & _ & C1).
    apply starLazy_in in H2 as (_ & _ & _ & _ & ->). now rewrite C1.
Qed.

Lemma exec_binds re s r n :
  binds n (source re) = true -> exec re s = Some r ->
  exists v, group r n = Some v.
Proof.
  intros B E. apply execFrom_some in E as (pre & post & _ & _ & tl & C).
  assert (H : In (final r) (matcher (ignoreCase re) (multiline re)
                (source re) (mkState (prefix r) post [])))
    by (rewrite C; now left).
  apply (matcher_lookup _ _ n) in H; [|now left].
  unfold group. destruct (lookup n (captures (final r))); [eauto|].
  now destruct H.
Qed.

Lemma groupTrim_bound re s r n :
  binds n (source re) = true -> exec re s = Some r ->
  exists v, group r n = Some v /\ groupTrim r n = Normal (trim v).
Proof.
  intros B E. destruct (exec_binds _ _ _ _ B E) as (v & G).
  exists v. unfold groupTrim. now rewrite G.
Qed.

(** ** [split] and [trim] *)

Lemma split_not_nil sep s : split sep s <> [].
Proof.
  destruct s as [|c r]; simpl; [discriminate|].
  destruct (c =? sep); [discriminate|].
  destruct (split sep r); discriminate.
Qed.

Lemma split_no_sep sep s : forall l, In l (split sep s) -> ~ In sep l.
Proof.
  induction s as [|c r IH]; simpl.
  - intros l [<- | []] [].
  - destruct (c =? sep) eqn:E.
    + intros l [<- | H]; [intros [] | now apply IH].
    + destruct (split sep r) as [|l0 ls] eqn:S.
      * now destruct (split_not_nil sep r).
      * intros l [<- | H].
        -- intros [-> | H]; [now rewrite N.eqb_refl in E|].
           apply (IH l0); [now left | assumption].
        -- apply IH. now right.
Qed.

Lemma trimStart_suffix s : exists w,
  s = w ++ trimStart s /\ forallb isSpaceChar w = true.
Proof.
  induction s as [|c r (w & E & F)]; simpl.
  - exists []. auto.
  - destruct (isSpaceChar c) eqn:S.
    + exists (c :: w). simpl. rewrite S, F, <- E. auto.
    + exists []. auto.
Qed.

Lemma trimEnd_prefix s : exists w,
  s = trimEnd s ++ w /\ forallb isSpaceChar w = true.
Proof.
  unfold trimEnd. destruct (trimStart_suffix (rev s)) as (w & E & F).
  exists (rev w). split.
  - rewrite <- rev_app_distr, <- E. symmetry. apply rev_involutive.
  - rewrite forallb_forall in *. intros c H. apply F. now apply in_rev.
Qed.

Lemma trim_parts s : exists a b,
  s = a ++ trim s ++ b /\
  forallb isSpaceChar a = true /\ forallb isSpaceChar b = true.
Proof.
  destruct (trimStart_suffix s) as (a & E & F).
  destruct (trimEnd_prefix (trimStart s)) as (b & E' & F').
  exists a, b. unfold trim. now rewrite <- E', <- E.
Qed.

Lemma trim_incl s c : In c (trim s) -> In c s.
Proof.
  destruct (trim_parts s) as (a & b & E & _). intros H.
  rewrite E, !in_app_iff. auto.
Qed.

Lemma linesOf_no_LF text line : In line (linesOf text) -> ~ In LF line.
Proof.
  unfold linesOf. rewrite filter_In, in_map_iff.
  intros [(l & <- & H) _] I. apply trim_incl in I.
  exact (split_no_sep _ _ _ H I).
Qed.

(** ** [parseLine] *)

Lemma parseLineWith_none (table : list (Format * RegExp)) line :
  Forall (fun e => exec (snd e) line = None) table ->
  parseLineWith table line = Normal None.
Proof.
  induction 1 as [|[f re] rest E _ IH]; simpl; [reflexivity|].
  simpl in E. now rewrite E.
Qed.

Lemma parseLineWith_first (pre : list (Format * RegExp)) f re post line r :
  Forall (fun e => exec (snd e) line = None) pre ->
  exec re line = Some r ->
  parseLineWith (pre ++ (f, re) :: post) line
    = (tuc <- fields f r ;; Normal (Some (messageOf f tuc))).
Proof.
  induction 1 as [|[f' re'] rest E _ IH]; simpl; intros H.
  - rewrite H. destruct (fields f r) as [[[t u] c]|]; reflexivity.
  - simpl in E. rewrite E. now apply IH.
Qed.

Lemma parseLineWith_split (table : list (Format * RegExp)) line :
  Forall (fun e => exec (snd e) line = None) table \/
  exists pre f re post r,
    table = pre ++ (f, re) :: post /\
    Forall (fun e => exec (snd e) line = None) pre /\
    exec re line = Some r.
Proof.
  induction table as [|[f re] rest IH]; [left; constructor|].
  destruct (exec re line) as [r|] eqn:E.
  - right. exists [], f, re, rest, r. simpl. auto.
  - destruct IH as [IH | (pre & f' & re' & post & r & -> & F & E')].
    + left. constructor; assumption.
    + right. exists ((f, re) :: pre), f', re', post, r.
      simpl. repeat split; auto.
Qed.

Lemma fields_returns f re line r :
  In (f, re) patterns -> exec re line = Some r ->
  exists g1 g2 g3,
    group r 1 = Some g1 /\ group r 2 = Some g2 /\ group r 3 = Some g3 /\
    fields f r = Normal
      (match f with
       | whatsapp1 | discord | standard => (trim g1, trim g2, trim g3)
       | _ => (trim g2, trim g1, trim g3)
       end).
Proof.
  intros I E.
  assert (B : forall n, (n = 1 \/ n = 2 \/ n = 3)%nat ->
                        binds n (source re) = true).
  { intros n Hn. simpl in I.
    repeat (destruct I as [[= <- <-] | I];
            [destruct Hn as [-> | [-> | ->]]; reflexivity|]).
    destruct I. }
  destruct (groupTrim_bound re line r 1) as (g1 & G1 & T1); auto.
  destruct (groupTrim_bound re line r 2) as (g2 & G2 & T2); auto.
  destruct (groupTrim_bound re line r 3) as (g3 & G3 & T3); auto.
  exists g1, g2, g3. repeat split; try assumption.
  unfold fields. rewrite T1, T2, T3. destruct f; reflexivity.
Qed.

Lemma parseLine_cases line :
  (noRule (fun re => exec re line <> None) patterns /\
   parseLine line = Normal None) \/
  exists pre f re post r tuc,
    patterns = pre ++ (f, re) :: post /\
    Forall (fun e => exec (snd e) line = None) pre /\
    exec re line = Some r /\
    fields f r = Normal tuc /\
    parseLine line = Normal (Some (messageOf f tuc)).
Proof.
  unfold parseLine.
  destruct (parseLineWith_split patterns line)
    as [F | (pre & f & re & post & r & P & F & E)].
  - left. split; [|now apply parseLineWith_none].
    unfold noRule. eapply Forall_impl; [|exact F].
    intros e H. simpl. congruence.
  - right. assert (I : In (f, re) patterns)
      by (rewrite P; apply in_app_iff; right; now left).
    destruct (fields_returns _ _ _ _ I E) as (g1 & g2 & g3 & _ & _ & _ & Fd).
    eexists pre, f, re, post, r, _. repeat split; try eassumption.
    rewrite P at 1. rewrite (parseLineWith_first _ _ _ _ _ _ F E), Fd.
    reflexivity.
Qed.

Lemma parseLine_returns line : exists o, parseLine line = Normal o.
Proof.
  destruct (parseLine_cases line)
    as [[_ H] | (pre & f & re & post & r & tuc & _ & _ & _ & _ & H)];
    eauto.
Qed.

Lemma format_messageOf f tuc : format (messageOf f tuc) = f.
Proof. destruct tuc as [[t u] c]. reflexivity. Qed.

(** ** The loop of [parse] *)

Section LoopInvariant.

Variable L : jsstring -> Prop.
Variable P : Message -> Prop.
Hypothesis opened :
  forall line m, L line -> parseLine line = Normal (Some m) -> P m.
Hypothesis folded :
  forall line m, L line -> parseLine line = Normal None -> P m ->
                 P (appendContent m (SPACE :: line)).

Lemma parseStep_invariant st line :
  L line -> stateAll P st ->
  exists st', parseStep st line = Normal st' /\ stateAll P st'.
Proof.
  intros Hl [Hm Hc]. destruct st as [messages cur]. simpl in *.
  destruct (parseLine_returns line) as ([m|] & E); rewrite E; simpl.
  - eexists. split; [reflexivity|]. split; simpl; [|eauto].
    destruct cur; [|assumption].
    apply Forall_app. split; [assumption | now constructor].
  - destruct cur as [c|]; eexists; (split; [reflexivity|]);
      split; simpl; auto.
Qed.

Lemma parseLoop_invariant lines : forall st,
  Forall L lines -> stateAll P st ->
  exists st', parseLoop lines st = Normal st' /\ stateAll P st'.
Proof.
  induction lines as [|line rest IH]; intros st Hl Hs; simpl.
  - eauto.
  - inversion Hl as [|? ? H1 H2]; subst.
    destruct (parseStep_invariant st line H1 Hs) as (st1 & E & Hs1).
    rewrite E. simpl. now apply IH.
Qed.

Lemma parse_invariant text :
  Forall L (linesOf text) ->
  exists msgs, parse text = Normal msgs /\ Forall P msgs.
Proof.
  intros Hl. unfold parse.
  destruct (isEmpty text || isEmpty (trim text)); [eauto|].
  destruct (parseLoop_invariant (linesOf text) ([], None) Hl)
    as ([messages cur] & E & Hm & Hc); [split; simpl; auto|].
  rewrite E. simpl in *.
  eexists. split; [reflexivity|].
  destruct cur; [|assumption].
  apply Forall_app. split; [assumption | now constructor].
Qed.

End LoopInvariant.

Lemma parse_returns text : exists msgs, parse text = Normal msgs.
Proof.
  destruct (parse_invariant (fun _ => True) (fun _ => True)) with (text := text)
    as (msgs & E & _); auto.
  - apply Forall_forall. auto.
  - eauto.
Qed.

Lemma trimStart_all_space s :
  forallb isSpaceChar s = true -> trimStart s = [].
Proof.
  induction s as [|c r IH]; simpl; [reflexivity|].
  intros H. apply andb_true_iff in H as [-> H]. auto.
Qed.

Lemma trim_all_space s : forallb isSpaceChar s = true -> trim s = [].
Proof.
  intros H. unfold trim. rewrite (trimStart_all_space _ H). reflexivity.
Qed.

Lemma parseLoop_unmatched lines :
  Forall (fun line => parseLine line = Normal None) lines ->
  parseLoop lines ([], None) = Normal ([], None).
Proof.
  induction 1 as [|line rest E _ IH]; simpl; [reflexivity|].
  rewrite E. simpl. exact IH.
Qed.

Lemma noRule_exec line :
  noRule (fun re => matchesSomewhere re line) patterns ->
  Forall (fun e => exec (snd e) line = None) patterns.
Proof.
  unfold noRule. apply Forall_impl. intros e H.
  destruct (exec (snd e) line) eqn:E; [|reflexivity].
  exfalso. apply H, exec_matchesSomewhere. congruence.
Qed.

(** C8: [parse] returns a sequence of messages for every string, and never
    throws; the sequence is empty for an input that is empty or made of
    white space only, and for an input none of whose lines is matched by a
    rule. *)
Theorem parse_total (text : jsstring) :
  (exists msgs, parse text = Normal msgs) /\
  (forallb isSpaceChar text = true -> parse text = Normal []) /\
  ((forall line, In line (linesOf text) ->
      noRule (fun re => matchesSomewhere re line) patterns) ->
   parse text = Normal []).
Proof.
  split; [apply parse_returns|]. split.
  - intros H. unfold parse. rewrite (trim_all_space _ H). simpl.
    now rewrite orb_true_r.
  - intros H. unfold parse.
    destruct (isEmpty text || isEmpty (trim text)); [reflexivity|].
    rewrite parseLoop_unmatched; [reflexivity|].
    apply Forall_forall. intros line I.
    apply parseLineWith_none, noRule_exec, H, I.
Qed.

Lemma noRule_from_exec line :
  Forall (fun e => exec (snd e) line = None) patterns ->
  noRule (fun re => matchesSomewhere re line) patterns.
Proof.
  unfold noRule. apply Forall_impl. intros e H M.
  apply exec_matchesSomewhere in M. congruence.
Qed.

(** The empty results of C8 on a blank text and on two lines of plain
    words. *)
Lemma parse_total_witness :
  parse (str "   ") = Normal [] /\
  parse (str "hello" ++ LF :: str "world") = Normal [].
Proof.
  split.
  - apply (proj1 (proj2 (parse_total (str "   ")))). reflexivity.
  - apply (proj2 (proj2 (parse_total (str "hello" ++ LF :: str "world")))).
    intros line [<- | [<- | []]]; apply noRule_from_exec;
      repeat constructor.
Defined.

(** ** Multi-line header rules *)

Lemma multiline_exec_none line re :
  ~ In LF line -> In re multilinePatterns -> exec re line = None.
Proof.
  intros N I. destruct (exec re line) as [r|] eqn:E; [|reflexivity].
  exfalso. apply N. apply (exec_requiresLF re line r); [|assumption].
  simpl in I.
  repeat (destruct I as [<- | I]; [reflexivity|]). destruct I.
Qed.

Lemma parseLine_singleline_tag line m :
  ~ In LF line -> parseLine line = Normal (Some m) ->
  hasMultilineTag m = false.
Proof.
  intros N H.
  destruct (parseLine_cases line)
    as [[_ K] | (pre & f & re & post & r & tuc & P & _ & E & _ & K)];
    [congruence|].
  rewrite K in H. injection H as <-.
  unfold hasMultilineTag. rewrite format_messageOf.
  assert (I : In (f, re) patterns)
    by (rewrite P; apply in_app_iff; right; now left).
  simpl in I.
  repeat (destruct I as [[= <- <-] | I];
          [first [reflexivity
                 | rewrite multiline_exec_none in E;
                   [discriminate | assumption | simpl; tauto]]|]).
  destruct I.
Qed.

(** C2: no message returned by [parse] carries the tag of a multi-line
    header rule (imessage, slack, telegram, sms): the lines are cut at the
    line feeds before they are classified, and the four patterns, which
    need a line feed, match none of those lines. *)
Theorem multiline_tags_unreachable (text : jsstring) :
  (exists msgs, parse text = Normal msgs /\
                Forall (fun m => hasMultilineTag m = false) msgs) /\
  Forall (fun line =>
            Forall (fun re => ~ matchesSomewhere re line) multilinePatterns)
         (linesOf text).
Proof.
  split.
  - apply parse_invariant with (L := fun line => ~ In LF line).
    + apply parseLine_singleline_tag.
    + intros line m _ _ H. exact H.
    + apply Forall_forall. apply linesOf_no_LF.
  - apply Forall_forall. intros line I.
    apply Forall_forall. intros re R M.
    apply exec_matchesSomewhere in M. apply M.
    apply multiline_exec_none; [|assumption].
    now apply linesOf_no_LF with text.
Qed.

(** ** Table order *)

Lemma firstRule_exec line f :
  firstRule (fun re => matchesSomewhere re line) patterns f ->
  exists pre re post r,
    patterns = pre ++ (f, re) :: post /\
    Forall (fun e => exec (snd e) line = None) pre /\
    exec re line = Some r.
Proof.
  intros (pre & re & post & P & M & F).
  apply exec_matchesSomewhere in M.
  destruct (exec re line) as [r|] eqn:E; [|congruence].
  exists pre, re, post, r. repeat split; try assumption.
  eapply Forall_impl; [|exact F]. intros e H. simpl in H.
  destruct (exec (snd e) line) eqn:E'; [|reflexivity].
  exfalso. apply H, exec_matchesSomewhere. congruence.
Qed.

Lemma exec_firstRule line pre f re post r :
  patterns = pre ++ (f, re) :: post ->
  Forall (fun e => exec (snd e) line = None) pre ->
  exec re line = Some r ->
  firstRule (fun re => matchesSomewhere re line) patterns f.
Proof.
  intros P F E. exists pre, re, post. repeat split; try assumption.
  - apply exec_matchesSomewhere. congruence.
  - eapply Forall_impl; [|exact F]. intros e H M.
    apply exec_matchesSomewhere in M. congruence.
Qed.

Lemma standard_after_discord pre re post :
  patterns = pre ++ (standard, re) :: post ->
  In (discord, Pattern.standard) pre /\ re = Pattern.standard.
Proof.
  unfold patterns. intros P.
  do 9 (destruct pre as [|? pre];
        [simpl in P; first [discriminate | injection P as <- _]|
         simpl in P; injection P as <- P]);
    try (split; [simpl; tauto | reflexivity]).
  destruct pre; discriminate.
Qed.

(** C4: [parseLine] tries the rules in the order of their declaration and
    reports the first one that matches, also for a line that several
    patterns match; it returns null when none matches; and because the
    discord and the standard patterns are the same and discord comes first,
    the tag standard is never returned. *)
Theorem parseLine_first_match (line : jsstring) :
  map fst patterns
    = [imessage; discord; whatsapp1; whatsapp2; slack;
       generic1; telegram; sms; standard] /\
  Pattern.discord = Pattern.standard /\
  (noRule (fun re => matchesSomewhere re line) patterns ->
   parseLine line = Normal None) /\
  (forall f, firstRule (fun re => matchesSomewhere re line) patterns f ->
             exists m, parseLine line = Normal (Some m) /\ format m = f) /\
  (forall m, parseLine line = Normal (Some m) ->
             firstRule (fun re => matchesSomewhere re line) patterns
                       (format m) /\
             format m <> standard).
Proof.
  split; [reflexivity|]. split; [reflexivity|]. split; [|split].
  - intros H. apply parseLineWith_none, noRule_exec, H.
  - intros f H.
    destruct (firstRule_exec _ _ H) as (pre & re & post & r & P & F & E).
    assert (I : In (f, re) patterns)
      by (rewrite P; apply in_app_iff; right; now left).
    destruct (fields_returns _ _ _ _ I E) as (g1 & g2 & g3 & _ & _ & _ & Fd).
    eexists. unfold parseLine. rewrite P at 1.
    rewrite (parseLineWith_first _ _ _ _ _ _ F E), Fd. simpl.
    split; [reflexivity | apply format_messageOf].
  - intros m H.
    destruct (parseLine_cases line)
      as [[_ K] | (pre & f & re & post & r & tuc & P & F & E & _ & K)];
      [congruence|].
    rewrite K in H. injection H as <-. rewrite format_messageOf.
    split; [eapply exec_firstRule; eassumption|].
    intros ->. destruct (standard_after_discord _ _ _ P) as [I ->].
    rewrite Forall_forall in F. specialize (F _ I). simpl in F.
    congruence.
Qed.

(** C4 on a line that no rule matches, on a line that both whatsapp
    rules match, and on the bracketed example. *)
Lemma parseLine_first_match_witness :
  parseLine (str "plain words") = Normal None /\
  (exists m, parseLine (str "1:05 - Ann, 2:10: hi") = Normal (Some m) /\
             format m = whatsapp1) /\
  format (john "10:30 AM" discord) <> standard.
Proof.
  split; [|split].
  - apply (parseLine_first_match (str "plain words")).
    apply noRule_from_exec. repeat constructor.
  - apply (parseLine_first_match (str "1:05 - Ann, 2:10: hi")).
    exists [(imessage, Pattern.imessage); (discord, Pattern.discord)],
      Pattern.whatsapp1, (skipn 3 patterns).
    split; [reflexivity|]. split.
    + apply test_matchesSomewhere. vm_compute. reflexivity.
    + repeat constructor; simpl; rewrite <- test_matchesSomewhere;
        vm_compute; discriminate.
  - apply (parseLine_first_match (str "[10:30 AM] John: Hey what's up")).
    vm_compute. reflexivity.
Defined.

(** ** The detector *)

Lemma firstMatching_some table sample f :
  firstMatching table sample = Some f ->
  firstRule (fun re => matchesSomewhere re sample) table f.
Proof.
  induction table as [|[f' re] rest IH]; simpl; [discriminate|].
  destruct (test re sample) eqn:T.
  - intros [= ->]. exists [], re, rest. repeat split; [|constructor].
    now apply test_matchesSomewhere.
  - intros H. destruct (IH H) as (pre & pat & post & -> & M & F).
    exists ((f', re) :: pre), pat, post. repeat split; [assumption|].
    constructor; [|assumption]. simpl. rewrite <- test_matchesSomewhere.
    congruence.
Qed.

Lemma firstMatching_none table sample :
  firstMatching table sample = None ->
  noRule (fun re => matchesSomewhere re sample) table.
Proof.
  induction table as [|[f' re] rest IH]; simpl; [constructor|].
  destruct (test re sample) eqn:T; [discriminate|].
  intros H. constructor; [|now apply IH].
  simpl. rewrite <- test_matchesSomewhere. congruence.
Qed.

Lemma firstRule_firstMatching table sample f :
  firstRule (fun re => matchesSomewhere re sample) table f ->
  firstMatching table sample = Some f.
Proof.
  intros (pre & pat & post & -> & M & F).
  induction F as [|[f' re] rest H _ IH]; simpl.
  - apply test_matchesSomewhere in M. now rewrite M.
  - simpl in H. rewrite <- test_matchesSomewhere in H.
    destruct (test re sample); [now destruct H | exact IH].
Qed.

Lemma noRule_firstMatching table sample :
  noRule (fun re => matchesSomewhere re sample) table ->
  firstMatching table sample = None.
Proof.
  induction 1 as [|[f' re] rest H _ IH]; simpl; [reflexivity|].
  simpl in H. rewrite <- test_matchesSomewhere in H.
  destruct (test re sample); [now destruct H | exact IH].
Qed.

(** C5, as amended: [detectFormat] takes the first five lines of the text,
    empty or not, joined with line feeds, and returns the name of the first
    rule, in table order, whose pattern matches somewhere in that sample,
    or unknown when no pattern does. *)
Theorem detectFormat_first_five_lines (text : jsstring) :
  let sample := join [LF] (firstn 5 (split LF text)) in
  (forall f, firstRule (fun re => matchesSomewhere re sample) patterns f <->
             detectFormat text = formatName f) /\
  (noRule (fun re => matchesSomewhere re sample) patterns <->
   detectFormat text = "unknown"%string).
Proof.
  intros sample. unfold detectFormat. fold sample. split.
  - intros f. split.
    + intros H. now rewrite (firstRule_firstMatching _ _ _ H).
    + destruct (firstMatching patterns sample) as [f'|] eqn:E.
      * intros H. apply firstMatching_some in E.
        destruct f, f'; try discriminate H; exact E.
      * destruct f; discriminate.
  - split.
    + intros H. now rewrite (noRule_firstMatching _ _ H).
    + destruct (firstMatching patterns sample) as [f'|] eqn:E.
      * destruct f'; discriminate.
      * intros _. now apply firstMatching_none.
Qed.

(** C5 fails as stated: on five empty lines followed by a bracketed line
    the detector answers unknown, while the first five lines that are not
    empty contain the bracketed line, which the discord rule matches. *)
Lemma detectFormat_counts_empty_lines :
  let text := [LF; LF; LF; LF; LF] ++ str "[10:30 AM] John: hi" in
  detectFormat text = "unknown"%string /\
  detectFormatNonEmpty text = "discord"%string /\
  detectFormat text <> detectFormatNonEmpty text.
Proof.
  repeat split; try (vm_compute; reflexivity).
  vm_compute. discriminate.
Qed.

(** C5 on a bracketed line and on plain words. *)
Lemma detectFormat_first_five_lines_witness :
  detectFormat (str "[10:30 AM] John: hi") = formatName discord /\
  detectFormat (str "plain words") = "unknown"%string.
Proof.
  split.
  - apply (detectFormat_first_five_lines (str "[10:30 AM] John: hi")).
    exists [(imessage, Pattern.imessage)], Pattern.discord, (skipn 2 patterns).
    split; [reflexivity|]. split.
    + apply test_matchesSomewhere. vm_compute. reflexivity.
    + repeat constructor. simpl. rewrite <- test_matchesSomewhere.
      vm_compute. discriminate.
  - apply (detectFormat_first_five_lines (str "plain words")).
    unfold noRule. repeat constructor; simpl;
      rewrite <- test_matchesSomewhere; vm_compute; discriminate.
Defined.

(** ** Replacement of the first match *)

Local Arguments N.eqb !n !m.
Local Arguments N.leb !x !y.
Local Arguments N.sub !n !m.
Local Arguments toUpperUnit !c.
Local Arguments isDigit !c.
Local Arguments isLineTerminator !c.
Local Arguments isWhiteSpace !c.
Local Arguments isSpaceChar !c.

Lemma between_app bef pre : between bef (rev pre ++ bef) = pre.
Proof.
  unfold between. rewrite length_app, Nat.add_sub.
  rewrite firstn_app, Nat.sub_diag, firstn_all. simpl.
  rewrite app_nil_r. apply rev_involutive.
Qed.

Lemma between_same bef : between bef bef = [].
Proof. apply (between_app bef []). Qed.

Lemma matched_between r : matched r = between (prefix r) (before (final r)).
Proof. reflexivity. Qed.

Lemma replace_replaceFrom re f s : replace re f s = replaceFrom re f [] s.
Proof.
  unfold replace, replaceFrom, exec.
  destruct (execFrom re [] s) as [r|] eqn:E; [|reflexivity].
  apply execFrom_some in E as (pre & post & _ & B & _).
  rewrite B, between_app, app_nil_r, rev_involutive. reflexivity.
Qed.

Lemma replaceFrom_nil re f bef :
  replaceFrom re f bef [] =
  match matcher (ignoreCase re) (multiline re) (source re)
                (mkState bef [] []) with
  | y :: _ => f (mkMatch bef y) ++ after y
  | [] => []
  end.
Proof.
  unfold replaceFrom. simpl.
  destruct (matcher _ _ _ _); [reflexivity|].
  simpl. now rewrite between_same.
Qed.

Lemma replaceFrom_cons re f bef c rest :
  replaceFrom re f bef (c :: rest) =
  match matcher (ignoreCase re) (multiline re) (source re)
                (mkState bef (c :: rest) []) with
  | y :: _ => f (mkMatch bef y) ++ after y
  | [] => c :: replaceFrom re f (c :: bef) rest
  end.
Proof.
  unfold replaceFrom. simpl.
  destruct (matcher _ _ _ _).
  - destruct (execFrom re (c :: bef) rest) as [r|] eqn:E; [|reflexivity].
    apply execFrom_some in E as (pre & post & _ & B & _).
    rewrite B, (between_app (c :: bef) pre).
    replace (rev pre ++ c :: bef) with (rev (c :: pre) ++ bef)
      by (simpl; now rewrite <- app_assoc).
    now rewrite between_app.
  - simpl. now rewrite between_same.
Qed.

(** ** [normalizeTime] *)

Lemma isDigit_upper d : isDigit (toUpperUnit d) = isDigit d.
Proof.
  unfold toUpperUnit, isDigit.
  destruct ((97 <=? d) && (d <=? 122)) eqn:E; [|reflexivity].
  apply andb_true_iff in E as [E1 E2].
  apply N.leb_le in E1. apply N.leb_le in E2.
  replace (d <=? 57) with false by (symmetry; apply N.leb_gt; lia).
  replace (d - 32 <=? 57) with false by (symmetry; apply N.leb_gt; lia).
  now rewrite !andb_false_r.
Qed.

Lemma upper_A_not_P a : (65 =? toUpperUnit a) = true ->
                        (80 =? toUpperUnit a) = false.
Proof.
  intros H. apply N.eqb_eq in H. rewrite <- H. reflexivity.
Qed.

Lemma meridiem_steps bef a b rest caps (x := mkState bef (a :: b :: rest) caps) :
  matcher true false (Alt (lit "AM") (lit "PM")) x
  = (if isMeridiem a b then [mkState (b :: a :: bef) rest caps] else []) /\
  matcher true false (Alt (lit "am") (lit "pm")) x
  = (if isMeridiem a b then [mkState (b :: a :: bef) rest caps] else []).
Proof.
  unfold isMeridiem. rewrite !(N.eqb_sym (toUpperUnit _)).
  split; cbn;
    destruct (65 =? toUpperUnit a) eqn:A;
    destruct (77 =? toUpperUnit b) eqn:B; cbn;
    rewrite ?(upper_A_not_P _ A); cbn; try reflexivity;
    destruct (80 =? toUpperUnit a); cbn; rewrite ?B; reflexivity.
Qed.

Lemma meridiem_short bef caps :
  (forall r, In r [Alt (lit "AM") (lit "PM"); Alt (lit "am") (lit "pm")] ->
     matcher true false r (mkState bef [] caps) = []) /\
  (forall r a, In r [Alt (lit "AM") (lit "PM"); Alt (lit "am") (lit "pm")] ->
     matcher true false r (mkState bef [a] caps) = []).
Proof.
  split.
  - intros r [<- | [<- | []]]; reflexivity.
  - intros r a [<- | [<- | []]]; cbn;
      destruct (65 =? toUpperUnit a); destruct (80 =? toUpperUnit a);
      reflexivity.
Qed.

Lemma matcher_seq ic ml a b x :
  matcher ic ml (Seq a b) x = flat_map (matcher ic ml b) (matcher ic ml a x).
Proof. reflexivity. Qed.

Lemma matcher_group ic ml n a x :
  matcher ic ml (Group n a) x = map (setCapture n x) (matcher ic ml a x).
Proof. reflexivity. Qed.

Lemma flat_map_one {A B : Type} (f : A -> list B) x :
  flat_map f [x] = f x.
Proof. simpl. apply app_nil_r. Qed.

Lemma consumed_app b1 c1 b2 c2 w aft :
  consumed (mkState b1 (w ++ aft) c1) (mkState b2 aft c2) = w.
Proof.
  unfold consumed. simpl. rewrite length_app, Nat.add_sub.
  rewrite firstn_app, Nat.sub_diag, firstn_all. simpl. apply app_nil_r.
Qed.

Lemma setCapture_app n b1 c1 b2 c2 w aft :
  setCapture n (mkState b1 (w ++ aft) c1) (mkState b2 aft c2)
  = mkState b2 aft ((n, w) :: c2).
Proof. unfold setCapture. now rewrite consumed_app. Qed.

Lemma digitMeridiem_here bef d rest :
  matcher true false (source Pattern.digitMeridiem)
          (mkState bef (d :: rest) [])
  = match rest with
    | a :: b :: rest' =>
        if isDigit d && isMeridiem a b
        then [mkState (b :: a :: d :: bef) rest' [(2%nat, [a; b]); (1%nat, [d])]]
        else []
    | _ => []
    end.
Proof.
  unfold Pattern.digitMeridiem, source.
  rewrite matcher_seq, matcher_group.
  change (matcher true false (Chr (Atom CDigit)) (mkState bef (d :: rest) []))
    with (if isDigit (toUpperUnit d)
          then [mkState (d :: bef) rest []] else []).
  rewrite isDigit_upper. destruct (isDigit d).
  - simpl map.
    rewrite (setCapture_app 1 bef [] (d :: bef) [] [d] rest : setCapture 1 (mkState bef (d :: rest) []) _ = _).
    rewrite flat_map_one, matcher_group.
    destruct rest as [|a [|b rest']].
    + now rewrite (proj1 (meridiem_short _ _)) by (simpl; auto).
    + now rewrite (proj2 (meridiem_short _ _)) by (simpl; auto).
    + rewrite (proj1 (meridiem_steps _ _ _ _ _)).
      destruct (isMeridiem a b); [|reflexivity].
      simpl map.
      now rewrite (setCapture_app 2 _ _ _ _ [a; b] rest'
                   : setCapture 2 (mkState _ (a :: b :: rest') _) _ = _).
  - destruct rest as [|a [|b rest']]; reflexivity.
Qed.

Lemma meridiem_here bef a rest :
  matcher true false (source Pattern.meridiem) (mkState bef (a :: rest) [])
  = match rest with
    | b :: rest' =>
        if isMeridiem a b
        then [mkState (b :: a :: bef) rest' [(1%nat, [a; b])]]
        else []
    | [] => []
    end.
Proof.
  unfold Pattern.meridiem, source. rewrite matcher_group.
  destruct rest as [|b rest'].
  - now rewrite (proj2 (meridiem_short _ _)) by (simpl; auto).
  - rewrite (proj2 (meridiem_steps _ _ _ _ _)).
    destruct (isMeridiem a b); [|reflexivity].
    simpl map.
    now rewrite (setCapture_app 1 _ _ _ _ [a; b] rest'
                 : setCapture 1 (mkState _ (a :: b :: rest') _) _ = _).
Qed.

Lemma replace_digitMeridiem aft : forall bef,
  replaceFrom Pattern.digitMeridiem
              (fun r => subst r 1 ++ [SPACE] ++ subst r 2) bef aft
  = spaceFirst aft.
Proof.
  induction aft as [|d rest IH]; intros bef.
  - rewrite replaceFrom_nil. reflexivity.
  - rewrite replaceFrom_cons.
    change (matcher _ _ _ _)
      with (matcher true false (source Pattern.digitMeridiem)
                    (mkState bef (d :: rest) [])).
    rewrite digitMeridiem_here.
    destruct rest as [|a [|b rest']]; try (simpl; now rewrite IH).
    change (spaceFirst (d :: a :: b :: rest'))
      with (if isDigit d && isMeridiem a b
            then d :: SPACE :: a :: b :: rest'
            else d :: spaceFirst (a :: b :: rest')).
    destruct (isDigit d && isMeridiem a b); [reflexivity|].
    now rewrite IH.
Qed.

Lemma replace_meridiem aft : forall bef,
  replaceFrom Pattern.meridiem (fun r => toUpperCase (matched r)) bef aft
  = upperFirst aft.
Proof.
  induction aft as [|a rest IH]; intros bef.
  - rewrite replaceFrom_nil. reflexivity.
  - rewrite replaceFrom_cons.
    change (matcher _ _ _ _)
      with (matcher true false (source Pattern.meridiem)
                    (mkState bef (a :: rest) [])).
    rewrite meridiem_here.
    destruct rest as [|b rest']; [simpl; now rewrite IH|].
    change (upperFirst (a :: b :: rest'))
      with (if isMeridiem a b
            then toUpperUnit a :: toUpperUnit b :: rest'
            else a :: upperFirst (b :: rest')).
    destruct (isMeridiem a b); [|now rewrite IH].
    rewrite matched_between. simpl prefix. simpl final. simpl before.
    change (b :: a :: bef) with (rev [a; b] ++ bef).
    rewrite between_app. reflexivity.
Qed.

Lemma normalizeTime_first_marker_eq time :
  normalizeTime time = upperFirst (spaceFirst time).
Proof.
  unfold normalizeTime.
  now rewrite !replace_replaceFrom, replace_digitMeridiem, replace_meridiem.
Qed.

(** C6, as amended: [normalizeTime] puts one space at the first place where
    a digit is immediately followed by a meridiem marker (AM or PM, in
    either case), then puts the first meridiem marker of the string in
    upper case, and leaves every other character as it is; markers after
    the first are not touched. *)
Theorem normalizeTime_first_marker (time : jsstring) :
  normalizeTime time = upperFirst (spaceFirst time).
Proof.
  unfold normalizeTime. rewrite !replace_replaceFrom.
  rewrite replace_digitMeridiem. apply replace_meridiem.
Qed.

(** C6 fails as stated: in 1am2pm only the first marker gets its space and
    its upper case, the second one stays as it was. *)
Lemma normalizeTime_second_marker_untouched :
  normalizeTime (str "1am2pm") = str "1 AM2pm" /\
  upperEvery (spaceEvery (str "1am2pm")) = str "1 AM2 PM" /\
  normalizeTime (str "1am2pm") <> upperEvery (spaceEvery (str "1am2pm")).
Proof.
  repeat split; try (vm_compute; reflexivity).
  vm_compute. discriminate.
Qed.

(** ** Continuation lines *)

Lemma split_app_sep sep s t :
  split sep (s ++ sep :: t) = split sep s ++ split sep t.
Proof.
  induction s as [|c r IH]; simpl.
  - now rewrite N.eqb_refl.
  - destruct (c =? sep); [now rewrite IH|].
    rewrite IH. destruct (split sep r) eqn:E; [|reflexivity].
    now destruct (split_not_nil sep r).
Qed.

Lemma split_single sep t : ~ In sep t -> split sep t = [t].
Proof.
  induction t as [|c r IH]; simpl; [reflexivity|].
  intros H. destruct (c =? sep) eqn:E.
  - apply N.eqb_eq in E. destruct H. now left.
  - rewrite IH; [reflexivity|]. intros I. apply H. now right.
Qed.

Lemma trim_nil_iff s : trim s = [] <-> forallb isSpaceChar s = true.
Proof.
  split; [|apply trim_all_space].
  intros H. destruct (trim_parts s) as (a & b & E & Fa & Fb).
  rewrite H in E. rewrite E, forallb_app, Fa. exact Fb.
Qed.

Lemma isEmpty_false (s : jsstring) : s <> [] -> isEmpty s = false.
Proof. destruct s; [congruence | reflexivity]. Qed.

Lemma isEmpty_true (s : jsstring) : isEmpty s = true -> s = [].
Proof. destruct s; [reflexivity | discriminate]. Qed.

Lemma linesOf_snoc text line :
  ~ In LF line -> trim line <> [] ->
  linesOf (text ++ LF :: line) = linesOf text ++ [trim line].
Proof.
  intros N T. unfold linesOf.
  rewrite split_app_sep, (split_single _ _ N), map_app, filter_app.
  simpl. now rewrite (isEmpty_false _ T).
Qed.

Lemma parseLoop_app l1 l2 : forall st,
  parseLoop (l1 ++ l2) st = (st' <- parseLoop l1 st ;; parseLoop l2 st').
Proof.
  induction l1 as [|line rest IH]; intros st; simpl; [reflexivity|].
  destruct (parseStep st line) as [st1|]; simpl; [apply IH | reflexivity].
Qed.

Lemma parseLoop_shape lines : forall st st',
  parseLoop lines st = Normal st' ->
  (snd st = None -> fst st = []) ->
  snd st' = None -> fst st' = [].
Proof.
  induction lines as [|line rest IH]; intros st st'; simpl.
  - intros [= ->]. auto.
  - destruct (parseStep st line) as [st1|] eqn:E; simpl; [|discriminate].
    intros H K. apply (IH _ _ H).
    destruct st as [messages cur]. unfold parseStep in E.
    destruct (parseLine line) as [[p|]|]; simpl in E; try discriminate.
    + injection E as <-. discriminate.
    + destruct cur; injection E as <-; [discriminate|]. exact K.
Qed.

Lemma parse_nonblank text :
  existsb (fun c => negb (isSpaceChar c)) text = true ->
  parse text =
  (st <- parseLoop (linesOf text) ([], None) ;;
   Normal match snd st with
          | Some c => fst st ++ [c]
          | None => fst st
          end).
Proof.
  intros H. unfold parse.
  assert (T : trim text <> []).
  { rewrite trim_nil_iff. intros F.
    apply existsb_exists in H as (c & I & C).
    rewrite forallb_forall in F. rewrite (F _ I) in C. discriminate. }
  rewrite (isEmpty_false _ T).
  destruct text; [discriminate H|]. simpl.
  destruct (parseLoop _ _) as [[messages cur]|]; reflexivity.
Qed.

Lemma parse_blank text :
  existsb (fun c => negb (isSpaceChar c)) text = false ->
  parse text = Normal [].
Proof.
  intros H. unfold parse.
  assert (F : forallb isSpaceChar text = true).
  { apply forallb_forall. intros c I.
    destruct (isSpaceChar c) eqn:C; [reflexivity|].
    assert (existsb (fun c => negb (isSpaceChar c)) text = true)
      by (apply existsb_exists; exists c; now rewrite C).
    congruence. }
  rewrite (trim_all_space _ F). simpl. now rewrite orb_true_r.
Qed.

(** C7: the bracketed line followed by the words still talking parses to
    one message with content Hello still talking; and in general, when a
    text leaves the message [last] open and the next line is matched by no
    rule, the parse of the text with that line added has the same earlier
    messages and ends with a message that has the time, the user and the
    format of [last], and as content the content of [last] followed by one
    space and the trimmed line. *)
Theorem continuation_folding :
  parse (str "[10:30 AM] John: Hello" ++ LF :: str "still talking")
    = Normal [mkMessage (str "10:30 AM") (str "John")
                        (str "Hello still talking") discord] /\
  forall text line msgs last,
    ~ In LF line -> trim line <> [] ->
    noRule (fun re => matchesSomewhere re (trim line)) patterns ->
    parse text = Normal (msgs ++ [last]) ->
    parse (text ++ LF :: line)
      = Normal (msgs ++ [mkMessage (time last) (user last)
                                   (content last ++ SPACE :: trim line)
                                   (format last)]).
Proof.
  split; [vm_compute; reflexivity|].
  intros text line msgs last N T U P.
  assert (E : parseLine (trim line) = Normal None)
    by (apply parseLineWith_none, noRule_exec, U).
  destruct (existsb (fun c => negb (isSpaceChar c)) text) eqn:B.
  - rewrite (parse_nonblank _ B) in P.
    destruct (parseLoop (linesOf text) ([], None)) as [[messages cur]|] eqn:L;
      simpl in P; [|discriminate].
    pose proof (parseLoop_shape _ _ _ L (fun _ => eq_refl)) as S.
    simpl in S.
    destruct cur as [c|].
    + injection P as P. apply app_inj_tail in P as [-> ->].
      rewrite parse_nonblank, linesOf_snoc, parseLoop_app, L by
        (try assumption; rewrite existsb_app, B; reflexivity).
      simpl. unfold parseLine in E |- *. now rewrite E.
    + rewrite S in P by reflexivity. injection P as P.
      now destruct msgs.
  - rewrite (parse_blank _ B) in P. injection P as P. now destruct msgs.
Qed.

(** C7 on a continuation line with white space around it. *)
Lemma continuation_folding_witness :
  parse (str "[10:30 AM] John: Hello" ++ LF :: str "   still talking ")
    = Normal [mkMessage (str "10:30 AM") (str "John")
                        (str "Hello still talking") discord].
Proof.
  apply (proj2 continuation_folding (str "[10:30 AM] John: Hello")
               (str "   still talking ") []
               (mkMessage (str "10:30 AM") (str "John") (str "Hello")
                          discord)).
  - vm_compute. intuition discriminate.
  - vm_compute. discriminate.
  - apply noRule_from_exec. repeat constructor.
  - vm_compute. reflexivity.
Defined.

(** ** Greedy runs *)

Lemma skipRun_app p w rest :
  forallb p w = true ->
  match rest with c :: _ => p c = false | [] => True end ->
  skipRun p (w ++ rest) = rest.
Proof.
  intros F H. induction w as [|c w IH]; simpl in *.
  - destruct rest as [|c r]; [reflexivity|]. simpl. now rewrite H.
  - apply andb_true_iff in F as [-> F]. auto.
Qed.

Lemma skipRun_length p s : (length (skipRun p s) <= length s)%nat.
Proof.
  induction s as [|c r IH]; simpl; [lia|].
  destruct (p c); simpl; lia.
Qed.

Lemma trimStart_skipRun s : trimStart s = skipRun isSpaceChar s.
Proof.
  induction s as [|c r IH]; simpl; [reflexivity|]. now rewrite IH.
Qed.

Lemma starGreedy_head ic cs aft : forall bef caps,
  exists w tl,
    starGreedy ic cs bef aft caps
    = mkState (rev w ++ bef) (skipRun (charMatches ic cs) aft) caps :: tl /\
    aft = w ++ skipRun (charMatches ic cs) aft.
Proof.
  induction aft as [|c r IH]; intros bef caps; simpl.
  - exists [], []. auto.
  - destruct (charMatches ic cs c) eqn:M.
    + destruct (IH (c :: bef) caps) as (w & tl & E & A).
      exists (c :: w), (tl ++ [mkState bef (c :: r) caps]).
      rewrite E. simpl. rewrite <- app_assoc, <- A. auto.
    + exists [], []. auto.
Qed.

Lemma plus_cons ic ml cs bef c rest caps :
  matcher ic ml (Plus cs) (mkState bef (c :: rest) caps)
  = if charMatches ic cs c then starGreedy ic cs (c :: bef) rest caps else [].
Proof.
  simpl. unfold stepChar. simpl.
  destruct (charMatches ic cs c); [simpl; apply app_nil_r | reflexivity].
Qed.

(** The first result of [cs+] on a run [w] that cannot go on. *)
Lemma plus_run ic ml cs bef w rest caps :
  w <> [] -> forallb (charMatches ic cs) w = true ->
  match rest with c :: _ => charMatches ic cs c = false | [] => True end ->
  exists tl,
    matcher ic ml (Plus cs) (mkState bef (w ++ rest) caps)
    = mkState (rev w ++ bef) rest caps :: tl.
Proof.
  intros NE F R. destruct w as [|c w]; [congruence|].
  simpl in F. apply andb_true_iff in F as [M F].
  simpl app. rewrite plus_cons, M.
  destruct (starGreedy_head ic cs (w ++ rest) (c :: bef) caps)
    as (w' & tl & E & A).
  rewrite (skipRun_app _ _ _ F R) in E, A.
  apply app_inv_tail in A. subst w'.
  exists tl. rewrite E. simpl. now rewrite <- app_assoc.
Qed.

Lemma star_run ic ml cs bef w rest caps :
  forallb (charMatches ic cs) w = true ->
  match rest with c :: _ => charMatches ic cs c = false | [] => True end ->
  exists tl,
    matcher ic ml (Star cs) (mkState bef (w ++ rest) caps)
    = mkState (rev w ++ bef) rest caps :: tl.
Proof.
  intros F R. simpl.
  destruct (starGreedy_head ic cs (w ++ rest) bef caps)
    as (w' & tl & E & A).
  rewrite (skipRun_app _ _ _ F R) in E, A.
  apply app_inv_tail in A. subst w'. eauto.
Qed.

(** ** Replacement of every match *)

Lemma replaceAllFrom_nil n re f bef :
  matcher (ignoreCase re) (multiline re) (source re) (mkState bef [] []) = [] ->
  replaceAllFrom n re f bef [] = [].
Proof.
  intros H. destruct n; simpl; [reflexivity|]. now rewrite H.
Qed.

Lemma replaceAllFrom_cons n re f bef c rest :
  replaceAllFrom (S n) re f bef (c :: rest) =
  match matcher (ignoreCase re) (multiline re) (source re)
                (mkState bef (c :: rest) []) with
  | y :: _ =>
      f (mkMatch bef y) ++
      (if isEmpty (matched (mkMatch bef y))
       then match after y with
            | c' :: rest' =>
                c' :: replaceAllFrom n re f (c' :: before y) rest'
            | [] => []
            end
       else replaceAllFrom n re f (before y) (after y))
  | [] => c :: replaceAllFrom (S n) re f (c :: bef) rest
  end.
Proof.
  simpl. destruct (matcher _ _ _ _).
  - destruct (execFrom re (c :: bef) rest) as [r|] eqn:E; [|reflexivity].
    apply execFrom_some in E as (pre & post & _ & B & _).
    rewrite B, (between_app (c :: bef) pre).
    replace (rev pre ++ c :: bef) with (rev (c :: pre) ++ bef)
      by (simpl; now rewrite <- app_assoc).
    now rewrite between_app.
  - simpl. now rewrite between_same.
Qed.

Lemma matched_nonempty re bef aft r :
  execFrom re bef aft = Some r ->
  (length (after (final r)) <= length aft)%nat /\
  (isEmpty (matched r) = false ->
   (length (after (final r)) < length aft)%nat).
Proof.
  intros E. apply execFrom_some in E as (pre & post & A & B & tl & M).
  assert (I : In (final r) (matcher (ignoreCase re) (multiline re)
                (source re) (mkState (prefix r) post [])))
    by (rewrite M; now left).
  apply matcher_extends in I as (w & X & Y). simpl in X, Y.
  rewrite A, X, !length_app. split; [lia|].
  rewrite matched_between, Y, between_app.
  destruct w; [discriminate | simpl; lia].
Qed.

(** The number of rounds given to [replaceAll] is enough: more rounds give
    the same string. *)
Lemma replaceAllFrom_fuel re f n : forall m aft bef,
  (length aft < n)%nat -> (length aft < m)%nat ->
  replaceAllFrom n re f bef aft = replaceAllFrom m re f bef aft.
Proof.
  induction n as [|n IH]; intros m aft bef Ln Lm; [lia|].
  destruct m as [|m]; [lia|]. simpl.
  destruct (execFrom re bef aft) as [r|] eqn:E; [|reflexivity].
  destruct (matched_nonempty _ _ _ _ E) as [L1 L2].
  do 2 f_equal. destruct (isEmpty (matched r)).
  - destruct (after (final r)) as [|c rest]; [reflexivity|].
    simpl in L1. f_equal. apply IH; lia.
  - specialize (L2 eq_refl). apply IH; lia.
Qed.

Lemma replaceAll_quotes s :
  replaceAll Pattern.quotes (fun _ => []) s
  = filter (fun c => negb (isQuote c)) s.
Proof.
  unfold replaceAll.
  assert (H : forall aft n bef, (length aft < n)%nat ->
            replaceAllFrom n Pattern.quotes (fun _ => []) bef aft
            = filter (fun c => negb (isQuote c)) aft).
  { induction aft as [|c rest IH]; intros n bef L.
    - now apply replaceAllFrom_nil.
    - destruct n as [|n]; [simpl in L; lia|].
      rewrite replaceAllFrom_cons. simpl in L.
      cbn -[replaceAllFrom matched].
      unfold isQuote, SQUOTE, DQUOTE.
      rewrite (N.eqb_sym c 39), (N.eqb_sym c 34), orb_false_r.
      destruct ((39 =? c) || (34 =? c)); cbn -[replaceAllFrom matched].
      + rewrite matched_between. simpl prefix. simpl final. simpl before.
        change (c :: bef) with (rev [c] ++ bef). rewrite between_app.
        simpl. apply IH. lia.
      + rewrite IH by lia. reflexivity. }
  apply H. lia.
Qed.

Lemma collapse_true s : collapse true s = collapse false (trimStart s).
Proof.
  induction s as [|c r IH]; simpl; [reflexivity|].
  destruct (isSpaceChar c) eqn:E; [exact IH|].
  simpl. now rewrite E.
Qed.

Lemma replaceAll_spaces s :
  replaceAll Pattern.spaces (fun _ => [SPACE]) s = collapse false s.
Proof.
  unfold replaceAll.
  assert (H : forall n aft bef, (length aft < n)%nat ->
            replaceAllFrom n Pattern.spaces (fun _ => [SPACE]) bef aft
            = collapse false aft).
  { induction n as [|n IHn]; [intros aft bef L; lia|].
    induction aft as [|c rest IH]; intros bef L.
    - now apply replaceAllFrom_nil.
    - rewrite replaceAllFrom_cons. simpl in L.
      change (matcher _ _ _ _)
        with (matcher false false (Plus spaceSet) (mkState bef (c :: rest) [])).
      rewrite plus_cons.
      change (charMatches false spaceSet c) with (isSpaceChar c).
      simpl collapse. destruct (isSpaceChar c).
      + destruct (starGreedy_head false spaceSet rest (c :: bef) [])
          as (w & tl & E & A).
        rewrite E, matched_between. simpl prefix. simpl final.
        simpl before. simpl after.
        replace (rev w ++ c :: bef) with (rev (c :: w) ++ bef)
          by (simpl; now rewrite <- app_assoc).
        rewrite between_app. simpl isEmpty. cbv iota.
        rewrite IHn.
        * rewrite collapse_true, trimStart_skipRun. reflexivity.
        * pose proof (skipRun_length (charMatches false spaceSet) rest). lia.
      + rewrite IH by lia. reflexivity. }
  apply H. lia.
Qed.

Lemma forallb_colon w :
  forallb (charMatches false (Atom (CChar COLON))) w = forallb isColon w.
Proof.
  induction w as [|a w IH]; simpl; [reflexivity|].
  rewrite <- IH. unfold isColon. now rewrite (N.eqb_sym a).
Qed.

Lemma replace_trailingColons s :
  replace Pattern.trailingColons (fun _ => []) s = stripColons s.
Proof.
  rewrite replace_replaceFrom.
  assert (H : forall bef,
            replaceFrom Pattern.trailingColons (fun _ => []) bef s
            = stripColons s); [|apply H].
  induction s as [|c rest IH]; intros bef.
  - rewrite replaceFrom_nil. reflexivity.
  - rewrite replaceFrom_cons.
    change (matcher _ _ _ _)
      with (matcher false false (Plus (Atom (CChar COLON)) ;; Eol)%regex
                    (mkState bef (c :: rest) [])).
    change (stripColons (c :: rest))
      with (if forallb isColon (c :: rest) then []
            else c :: stripColons rest).
    destruct (forallb isColon (c :: rest)) eqn:F.
    + destruct (plus_run false false (Atom (CChar COLON)) bef (c :: rest) [] [])
        as (tl & E); [discriminate | now rewrite forallb_colon | exact I |].
      rewrite matcher_seq, app_nil_r in *. rewrite E. reflexivity.
    + destruct (matcher _ _ _ _) as [|y tl] eqn:M; [now rewrite IH|].
      exfalso.
      assert (K : In y (matcher false false
                   (Plus (Atom (CChar COLON)) ;; Eol)%regex
                   (mkState bef (c :: rest) []))) by (rewrite M; now left).
      rewrite matcher_seq in K. apply in_flat_map in K as (z & K1 & K2).
      simpl in K2. destruct (atLineEnd false z) eqn:Z; [|destruct K2].
      unfold atLineEnd in Z. destruct (after z) eqn:Az; [|discriminate].
      rewrite plus_cons in K1.
      destruct (charMatches false (Atom (CChar COLON)) c) eqn:C;
        [|destruct K1].
      apply starGreedy_in in K1 as (w & Fw & A & _).
      rewrite Az, app_nil_r in A. subst rest.
      rewrite <- forallb_colon in F. simpl in F.
      simpl in C. rewrite C in F. simpl in Fw. rewrite Fw in F.
      discriminate.
Qed.

Lemma cleanUsername_plain name : cleanUsername name = cleanUsernamePlain name.
Proof.
  unfold cleanUsername, cleanUsernamePlain.
  now rewrite replaceAll_quotes, replaceAll_spaces, replace_trailingColons.
Qed.

(** ** Trimmed strings *)

Lemma trimStart_solid s : startsWithSpace s = false -> trimStart s = s.
Proof. destruct s as [|c r]; simpl; [reflexivity|]. now intros ->. Qed.

Lemma startsWithSpace_trimStart s : startsWithSpace (trimStart s) = false.
Proof.
  induction s as [|c r IH]; simpl; [reflexivity|].
  destruct (isSpaceChar c) eqn:E; [exact IH|]. simpl. exact E.
Qed.

Lemma trim_solid s :
  startsWithSpace s = false -> endsWithSpace s = false -> trim s = s.
Proof.
  intros S E. unfold trim, trimEnd. rewrite (trimStart_solid _ S).
  rewrite trimStart_solid; [apply rev_involutive|].
  unfold endsWithSpace in E. destruct (rev s); [reflexivity | exact E].
Qed.

Lemma endsWithSpace_trimEnd s : endsWithSpace (trimEnd s) = false.
Proof.
  unfold endsWithSpace, trimEnd. rewrite rev_involutive.
  apply startsWithSpace_trimStart.
Qed.

Lemma startsWithSpace_prefix p w :
  startsWithSpace (p ++ w) = false -> p <> [] -> startsWithSpace p = false.
Proof. destruct p; [congruence | auto]. Qed.

Lemma startsWithSpace_trimEnd s :
  startsWithSpace s = false -> startsWithSpace (trimEnd s) = false.
Proof.
  intros S. destruct (trimEnd_prefix s) as (w & E & F).
  destruct (trimEnd s) as [|c p] eqn:T; [reflexivity|].
  rewrite E in S. exact S.
Qed.

Lemma trim_edges s :
  startsWithSpace (trim s) = false /\ endsWithSpace (trim s) = false.
Proof.
  split; unfold trim.
  - apply startsWithSpace_trimEnd, startsWithSpace_trimStart.
  - apply endsWithSpace_trimEnd.
Qed.

Lemma endsWithSpace_app a b :
  b <> [] -> endsWithSpace (a ++ b) = endsWithSpace b.
Proof.
  intros NE. unfold endsWithSpace. rewrite rev_app_distr.
  destruct (rev b) eqn:E; [|reflexivity].
  apply (f_equal (@rev N)) in E. rewrite rev_involutive in E.
  now destruct NE.
Qed.

Lemma endsWithSpace_last p c : endsWithSpace (p ++ [c]) = isSpaceChar c.
Proof. unfold endsWithSpace. now rewrite rev_app_distr. Qed.

(** ** What [cleanUsername] returns *)

Lemma filter_all {A : Type} (p : A -> bool) l :
  forallb p l = true -> filter p l = l.
Proof.
  induction l as [|a l IH]; simpl; [reflexivity|].
  intros H. apply andb_true_iff in H as [-> H]. now rewrite IH.
Qed.

Lemma collapse_incl b s c :
  In c (collapse b s) -> c = SPACE \/ In c s.
Proof.
  revert b. induction s as [|a r IH]; intros b; simpl; [intros []|].
  destruct (isSpaceChar a).
  - destruct b.
    + intros H. destruct (IH _ H); auto.
    + intros [<- | H]; [now left|]. destruct (IH _ H); auto.
  - intros [<- | H]; [auto|]. destruct (IH _ H); auto.
Qed.

Lemma spacedFrom_collapse s : forall b, spacedFrom b (collapse b s) = true.
Proof.
  induction s as [|c r IH]; intros b; simpl; [reflexivity|].
  destruct (isSpaceChar c) eqn:E.
  - destruct b; [apply IH|]. simpl. now rewrite IH.
  - simpl. rewrite E. apply IH.
Qed.

Lemma spacedFrom_weaken s : spacedFrom true s = true -> spacedFrom false s = true.
Proof.
  destruct s as [|c r]; simpl; [reflexivity|].
  destruct (isSpaceChar c); [|auto].
  rewrite andb_false_r. discriminate.
Qed.

Lemma spacedFrom_suffix w : forall b s,
  spacedFrom b (w ++ s) = true -> spacedFrom false s = true.
Proof.
  induction w as [|c w IH]; intros b s; simpl.
  - destruct b; [apply spacedFrom_weaken | auto].
  - destruct (isSpaceChar c); [|apply IH].
    intros H. apply andb_true_iff in H as [_ H]. now apply IH in H.
Qed.

Lemma spacedFrom_prefix s : forall b w,
  spacedFrom b (s ++ w) = true -> spacedFrom b s = true.
Proof.
  induction s as [|c s IH]; intros b w; simpl; [reflexivity|].
  destruct (isSpaceChar c); [|apply IH].
  intros H. apply andb_true_iff in H as [-> H]. now apply IH in H.
Qed.

Lemma collapse_spaced s : forall b,
  spacedFrom b s = true -> collapse b s = s.
Proof.
  induction s as [|c r IH]; intros b; simpl; [reflexivity|].
  destruct (isSpaceChar c).
  - intros H. apply andb_true_iff in H as [H1 H].
    apply andb_true_iff in H1 as [C B].
    apply N.eqb_eq in C. subst c.
    destruct b; [discriminate|]. now rewrite IH.
  - intros H. now rewrite IH.
Qed.

Lemma spacedFrom_space s : forall b c,
  spacedFrom b s = true -> In c s -> isSpaceChar c = true -> c = SPACE.
Proof.
  induction s as [|a r IH]; intros b c; simpl; [intros _ []|].
  destruct (isSpaceChar a) eqn:E.
  - intros H [<- | I] Sc.
    + apply andb_true_iff in H as [H _].
      apply andb_true_iff in H as [H _]. now apply N.eqb_eq in H.
    + apply andb_true_iff in H as [_ H]. eapply IH; eauto.
  - intros H [<- | I] Sc; [congruence|]. eapply IH; eauto.
Qed.

Lemma stripColons_parts s : exists w,
  s = stripColons s ++ w /\ forallb isColon w = true.
Proof.
  induction s as [|c r (w & E & F)]; [exists []; auto|].
  change (stripColons (c :: r))
    with (if forallb isColon (c :: r) then [] else c :: stripColons r).
  destruct (forallb isColon (c :: r)) eqn:G.
  - exists (c :: r). auto.
  - exists w. simpl. now rewrite <- E.
Qed.

Lemma stripColons_none s : ~ In COLON s -> stripColons s = s.
Proof.
  induction s as [|c r IH]; [reflexivity|]. intros H.
  change (stripColons (c :: r))
    with (if forallb isColon (c :: r) then [] else c :: stripColons r).
  simpl forallb. destruct (isColon c) eqn:C.
  - apply N.eqb_eq in C. destruct H. now left.
  - simpl. rewrite IH; [reflexivity|]. intros I. apply H. now right.
Qed.

(** A name that [cleanUsername] returned, without a colon and without a
    space at its end, is left as it is by the trim and by
    [cleanUsername]. *)
Lemma cleanUsername_fixed name (u := cleanUsername name) :
  ~ In COLON u -> endsWithSpace u = false ->
  startsWithSpace u = false /\ trim u = u /\ cleanUsername u = u /\
  ~ In LF u.
Proof.
  subst u. rewrite cleanUsername_plain. unfold cleanUsernamePlain.
  set (q := filter (fun c => negb (isQuote c)) name).
  set (v := trim (collapse false q)).
  destruct (stripColons_parts v) as (w & E & _).
  set (u := stripColons v) in *. intros NC ES.
  assert (SS : startsWithSpace u = false).
  { destruct u as [|c u'] eqn:U; [reflexivity|].
    apply startsWithSpace_prefix with w; [|discriminate].
    rewrite <- E. apply trim_edges. }
  assert (SP : spacedFrom false u = true).
  { apply spacedFrom_prefix with w. rewrite <- E. unfold v.
    destruct (trim_parts (collapse false q)) as (a & b & P & _).
    pose proof (spacedFrom_collapse q false) as K. rewrite P in K.
    apply spacedFrom_suffix in K. now apply spacedFrom_prefix in K. }
  assert (NQ : forallb (fun c => negb (isQuote c)) u = true).
  { apply forallb_forall. intros c I.
    assert (Iv : In c v) by (rewrite E; apply in_app_iff; now left).
    apply trim_incl, collapse_incl in Iv as [-> | Iq]; [reflexivity|].
    unfold q in Iq. apply filter_In in Iq as [_ Iq]. exact Iq. }
  assert (T : trim u = u) by now apply trim_solid.
  repeat split; try assumption.
  - rewrite cleanUsername_plain. unfold cleanUsernamePlain.
    rewrite (filter_all _ _ NQ), (collapse_spaced _ _ SP), T.
    now apply stripColons_none.
  - intros I. assert (LF = SPACE); [|discriminate].
    eapply spacedFrom_space; eauto.
Qed.

(** ** Character classes of the patterns *)

Ltac decide_units :=
  repeat match goal with
         | H : (_ <=? _) = true |- _ => apply N.leb_le in H
         | H : (_ <=? _) = false |- _ => apply N.leb_gt in H
         | H : (_ =? _) = true |- _ => apply N.eqb_eq in H
         | H : (_ =? _) = false |- _ => apply N.eqb_neq in H
         | H : _ && _ = true |- _ => apply andb_true_iff in H as [? ?]
         end;
  repeat match goal with
         | |- context [?a =? ?b] =>
             first [ replace (a =? b) with false
                       by (symmetry; apply N.eqb_neq; lia)
                   | replace (a =? b) with true
                       by (symmetry; apply N.eqb_eq; lia) ]
         | |- context [?a <=? ?b] =>
             first [ replace (a <=? b) with false
                       by (symmetry; apply N.leb_gt; lia)
                   | replace (a <=? b) with true
                       by (symmetry; apply N.leb_le; lia) ]
         end.

Lemma upper_cases c :
  toUpperUnit c = c \/ (97 <= c <= 122 /\ toUpperUnit c = c - 32).
Proof.
  unfold toUpperUnit.
  destruct ((97 <=? c) && (c <=? 122)) eqn:E; [right | now left].
  decide_units. auto.
Qed.

Lemma isSpaceChar_upper c : isSpaceChar (toUpperUnit c) = isSpaceChar c.
Proof.
  destruct (upper_cases c) as [-> | [R ->]]; [reflexivity|].
  unfold isSpaceChar, isWhiteSpace, isLineTerminator.
  decide_units. reflexivity.
Qed.

Lemma upper_eq_nonletter k c :
  (k < 65 \/ 122 < k) -> (k =? toUpperUnit c) = (c =? k).
Proof.
  intros K. rewrite (N.eqb_sym c k).
  destruct (upper_cases c) as [-> | [R ->]]; [reflexivity|].
  destruct (N.eqb_spec k (c - 32)), (N.eqb_spec k c); try reflexivity; lia.
Qed.

Lemma charMatches_digitOrColon c :
  charMatches true digitOrColon c = isDigitOrColon c.
Proof.
  unfold isDigitOrColon, isColon, COLON. simpl.
  rewrite isDigit_upper, orb_false_r.
  now rewrite (upper_eq_nonletter 58) by lia.
Qed.

Lemma charMatches_space ic c : charMatches ic spaceSet c = isSpaceChar c.
Proof. destruct ic; simpl; [apply isSpaceChar_upper | reflexivity]. Qed.

Lemma charMatches_notColon c :
  charMatches true (notChar ":") c = negb (isColon c).
Proof.
  unfold isColon, COLON. simpl. rewrite orb_false_r.
  now rewrite (upper_eq_nonletter 58) by lia.
Qed.

Lemma forallb_eq {A : Type} (p q : A -> bool) l :
  (forall a, p a = q a) -> forallb p l = forallb q l.
Proof.
  intros H. induction l as [|a l IH]; simpl; [reflexivity|].
  now rewrite H, IH.
Qed.

Lemma digitOrColon_solid c : isDigitOrColon c = true -> isSpaceChar c = false.
Proof.
  unfold isDigitOrColon, isDigit, isColon, COLON. intros H.
  apply orb_true_iff in H as [H | H]; decide_units;
    unfold isSpaceChar, isWhiteSpace, isLineTerminator;
    decide_units; reflexivity.
Qed.

Lemma meridiem_units a b :
  isMeridiem a b = true ->
  (toUpperUnit a = 65 \/ toUpperUnit a = 80) /\ toUpperUnit b = 77.
Proof.
  unfold isMeridiem. intros H. apply andb_true_iff in H as [H1 H2].
  apply N.eqb_eq in H2. apply orb_true_iff in H1 as [H1 | H1];
    apply N.eqb_eq in H1; auto.
Qed.

Lemma letter_units c k :
  65 <= k <= 90 -> toUpperUnit c = k -> c = k \/ c = k + 32.
Proof.
  intros K H. destruct (upper_cases c) as [E | [R E]]; rewrite E in H; lia.
Qed.

Lemma meridiem_solid a b :
  isMeridiem a b = true ->
  isSpaceChar a = false /\ isSpaceChar b = false /\
  isDigitOrColon a = false /\ isDigit a = false.
Proof.
  intros H. apply meridiem_units in H as [Ha Hb].
  apply letter_units in Hb; [|lia].
  assert (Ha' : a = 65 \/ a = 97 \/ a = 80 \/ a = 112).
  { destruct Ha as [Ha | Ha]; apply letter_units in Ha; lia. }
  repeat split;
    [ destruct Ha' as [-> | [-> | [-> | ->]]]; reflexivity
    | destruct Hb as [-> | ->]; reflexivity
    | destruct Ha' as [-> | [-> | [-> | ->]]]; reflexivity
    | destruct Ha' as [-> | [-> | [-> | ->]]]; reflexivity ].
Qed.

Lemma not_meridiem_start a b :
  isDigitOrColon a = true \/ isSpaceChar a = true -> isMeridiem a b = false.
Proof.
  intros H. destruct (isMeridiem a b) eqn:M; [|reflexivity].
  apply meridiem_solid in M as (S1 & _ & D1 & _).
  destruct H; congruence.
Qed.

(** ** Where a capture comes from *)

Lemma capture_origin ic ml n r : forall x y g,
  In y (matcher ic ml r x) -> lookup n (captures y) = Some g ->
  lookup n (captures x) = Some g \/
  exists sub x' y',
    In sub (groupBodies n r) /\ In y' (matcher ic ml sub x') /\
    g = consumed x' y'.
Proof.
  induction r; intros x y g; simpl.
  - intros [<- | []]. auto.
  - intros H. apply stepChar_in in H as (c & _ & _ & ->). auto.
  - destruct (atLineStart ml x); [|intros []]. intros [<- | []]. auto.
  - destruct (atLineEnd ml x); [|intros []]. intros [<- | []]. auto.
  - rewrite in_flat_map. intros (z & H1 & H2) L.
    destruct (IHr2 _ _ _ H2 L) as [L' | (sub & x' & y' & I & M & E)].
    + destruct (IHr1 _ _ _ H1 L') as [L'' | (sub & x' & y' & I & M & E)];
        [now left | right].
      exists sub, x', y'. rewrite in_app_iff. auto.
    + right. exists sub, x', y'. rewrite in_app_iff. auto.
  - rewrite in_app_iff. intros [H | H] L.
    + destruct (IHr1 _ _ _ H L) as [L' | (sub & x' & y' & I & M & E)];
        [now left | right].
      exists sub, x', y'. rewrite in_app_iff. auto.
    + destruct (IHr2 _ _ _ H L) as [L' | (sub & x' & y' & I & M & E)];
        [now left | right].
      exists sub, x', y'. rewrite in_app_iff. auto.
  - rewrite in_map_iff. intros (z & <- & H). simpl.
    destruct (Nat.eqb n0 n) eqn:E.
    + intros [= <-]. right. exists r, x, z. simpl. auto.
    + intros L.
      destruct (IHr _ _ _ H L) as [L' | (sub & x' & y' & I & M & E')];
        [now left | right].
      exists sub, x', y'. auto.
  - rewrite in_app_iff, filter_In. intros [[H _] | [<- | []]] L; [|auto].
    apply (IHr _ _ _ H L).
  - intros H. apply starGreedy_in in H as (_ & _ & _ & _ & ->). auto.
  - rewrite in_flat_map. intros (z & H1 & H2).
    apply stepChar_in in H1 as (c & _ & _ & C1).
    apply starGreedy_in in H2 as (_ & _ & _ & _ & ->). rewrite C1. auto.
  - rewrite in_flat_map. intros (z & H1 & H2).
    apply stepChar_in in H1 as (c & _ & _ & C1).
    apply starLazy_in in H2 as (_ & _ & _ & _ & ->). rewrite C1. auto.
Qed.

Lemma capture_incl ic ml n r : forall x y g,
  In y (matcher ic ml r x) -> lookup n (captures y) = Some g ->
  lookup n (captures x) = Some g \/ incl g (after x).
Proof.
  induction r; intros x y g; simpl.
  - intros [<- | []]. auto.
  - intros H. apply stepChar_in in H as (c & _ & _ & ->). auto.
  - destruct (atLineStart ml x); [|intros []]. intros [<- | []]. auto.
  - destruct (atLineEnd ml x); [|intros []]. intros [<- | []]. auto.
  - rewrite in_flat_map. intros (z & H1 & H2) L.
    destruct (IHr2 _ _ _ H2 L) as [L' | I]; [eauto|].
    right. apply matcher_extends in H1 as (w & E & _). rewrite E.
    now apply incl_appr.
  - rewrite in_app_iff. intros [H | H]; eauto.
  - rewrite in_map_iff. intros (z & <- & H). simpl.
    destruct (Nat.eqb n0 n); [|eauto].
    intros [= <-]. right.
    apply matcher_extends in H as (w & E).
    rewrite (consumed_extends _ _ _ E). destruct E as [E _]. rewrite E.
    now apply incl_appl, incl_refl.
  - rewrite in_app_iff, filter_In. intros [[H _] | [<- | []]]; eauto.
  - intros H. apply starGreedy_in in H as (_ & _ & _ & _ & ->). auto.
  - rewrite in_flat_map. intros (z & H1 & H2).
    apply stepChar_in in H1 as (c & _ & _ & C1).
    apply starGreedy_in in H2 as (_ & _ & _ & _ & ->). rewrite C1. auto.
  - rewrite in_flat_map. intros (z & H1 & H2).
    apply stepChar_in in H1 as (c & _ & _ & C1).
    apply starLazy_in in H2 as (_ & _ & _ & _ & ->). rewrite C1. auto.
Qed.

Lemma exec_capture re s r n g :
  exec re s = Some r -> group r n = Some g ->
  incl g s /\
  exists sub x y,
    In sub (groupBodies n (source re)) /\
    In y (matcher (ignoreCase re) (multiline re) sub x) /\
    g = consumed x y.
Proof.
  intros E G. apply execFrom_some in E as (pre & post & A & _ & tl & C).
  assert (H : In (final r) (matcher (ignoreCase re) (multiline re)
                (source re) (mkState (prefix r) post [])))
    by (rewrite C; now left).
  unfold group in G. split.
  - destruct (capture_incl _ _ _ _ _ _ _ H G) as [K | K]; [discriminate|].
    simpl in K. rewrite A. now apply incl_appr.
  - destruct (capture_origin _ _ _ _ _ _ _ H G) as [K | K];
      [discriminate | exact K].
Qed.

(** ** The text of a timestamp group *)

Lemma consumed_after x w y : after x = w ++ after y -> consumed x y = w.
Proof.
  intros A. unfold consumed. rewrite A, length_app, Nat.add_sub.
  rewrite firstn_app, Nat.sub_diag, firstn_all. simpl. apply app_nil_r.
Qed.

Lemma meridiem_in bef aft caps y :
  In y (matcher true false (Alt (lit "AM") (lit "PM"))
                (mkState bef aft caps)) ->
  exists a b rest,
    aft = a :: b :: rest /\ isMeridiem a b = true /\
    y = mkState (b :: a :: bef) rest caps.
Proof.
  destruct aft as [|a [|b rest]].
  - now rewrite (proj1 (meridiem_short _ _)) by (simpl; auto).
  - now rewrite (proj2 (meridiem_short _ _)) by (simpl; auto).
  - rewrite (proj1 (meridiem_steps _ _ _ _ _)).
    destruct (isMeridiem a b) eqn:M; [|intros []].
    intros [<- | []]. exists a, b, rest. auto.
Qed.

Lemma timeBody_shape x y :
  In y (matcher true false timeBody x) ->
  exists D W A,
    consumed x y = D ++ W ++ A /\
    D <> [] /\ forallb isDigitOrColon D = true /\
    forallb isSpaceChar W = true /\
    (A = [] \/ exists a b, A = [a; b] /\ isMeridiem a b = true).
Proof.
  unfold timeBody. rewrite matcher_seq, in_flat_map.
  intros (z1 & H1 & H2).
  rewrite matcher_seq, in_flat_map in H2. destruct H2 as (z2 & H2 & H3).
  destruct x as [bef aft caps].
  destruct aft as [|c aft]; [destruct H1|].
  rewrite plus_cons in H1.
  destruct (charMatches true digitOrColon c) eqn:Mc; [|destruct H1].
  apply starGreedy_in in H1 as (d & Fd & A1 & B1 & C1).
  destruct z1 as [bef1 aft1 caps1]. simpl in A1, B1, C1.
  simpl in H2. apply starGreedy_in in H2 as (w & Fw & A2 & B2 & C2).
  destruct z2 as [bef2 aft2 caps2]. simpl in A2, B2, C2.
  rewrite (forallb_eq _ _ _ charMatches_digitOrColon) in Fd.
  rewrite (forallb_eq _ _ _ (charMatches_space true)) in Fw.
  rewrite charMatches_digitOrColon in Mc.
  simpl in H3. rewrite in_app_iff, filter_In in H3.
  exists (c :: d), w.
  destruct H3 as [[H3 _] | [<- | []]].
  - apply meridiem_in in H3 as (a & b & rest & E & M & ->).
    exists [a; b]. subst. split; [|repeat split].
    + apply consumed_after. simpl. now rewrite <- !app_assoc.
    + discriminate.
    + simpl. now rewrite Mc, Fd.
    + exact Fw.
    + right. eauto.
  - exists []. subst. split; [|repeat split].
    + apply consumed_after. simpl. now rewrite app_nil_r, <- !app_assoc.
    + discriminate.
    + simpl. now rewrite Mc, Fd.
    + exact Fw.
    + now left.
Qed.

(** ** [normalizeTime] on the text of a timestamp group *)

Lemma spaceFirst_step d s :
  spaceFirst (d :: s)
  = if isDigit d && meridiemAhead s then d :: SPACE :: s
    else d :: spaceFirst s.
Proof.
  destruct s as [|a [|b r]]; simpl; rewrite ?andb_false_r; reflexivity.
Qed.

Lemma meridiemAhead_false s :
  match s with
  | a :: _ => isDigitOrColon a = true \/ isSpaceChar a = true
  | [] => True
  end ->
  meridiemAhead s = false.
Proof.
  destruct s as [|a [|b r]]; try reflexivity.
  intros H. simpl. now apply not_meridiem_start.
Qed.

Lemma digit_isDigitOrColon c : isDigit c = true -> isDigitOrColon c = true.
Proof. unfold isDigitOrColon. now intros ->. Qed.

Lemma spaceFirst_nodigit P s :
  forallb (fun c => negb (isDigit c)) P = true ->
  spaceFirst (P ++ s) = P ++ spaceFirst s.
Proof.
  induction P as [|c P IH]; simpl app; [reflexivity|].
  intros H. simpl in H. apply andb_true_iff in H as [H1 H2].
  rewrite spaceFirst_step. apply negb_true_iff in H1. rewrite H1.
  simpl. now rewrite IH.
Qed.

Lemma space_not_digit c : isSpaceChar c = true -> negb (isDigit c) = true.
Proof.
  intros H. destruct (isDigit c) eqn:D; [|reflexivity].
  apply digit_isDigitOrColon, digitOrColon_solid in D. congruence.
Qed.

Lemma spaceFirst_plain D :
  forallb isDigitOrColon D = true -> spaceFirst D = D.
Proof.
  induction D as [|d D IH]; [reflexivity|]. intros H.
  simpl in H. apply andb_true_iff in H as [H1 H2].
  rewrite spaceFirst_step, meridiemAhead_false, andb_false_r, IH; auto.
  destruct D as [|d' D]; [exact I|].
  simpl in H2. apply andb_true_iff in H2 as [H2 _]. now left.
Qed.

Lemma spaceFirst_time D W a b :
  D <> [] -> forallb isDigitOrColon D = true ->
  forallb isSpaceChar W = true -> isMeridiem a b = true ->
  spaceFirst (D ++ W ++ [a; b])
  = D ++ (if isEmpty W && isDigit (last D 0) then [SPACE] else W) ++ [a; b].
Proof.
  intros ND FD FW M. induction D as [|d D IH]; [congruence|].
  simpl in FD. apply andb_true_iff in FD as [Fd FD].
  destruct D as [|d' D].
  - simpl app at 1. rewrite spaceFirst_step. simpl last.
    destruct W as [|w W].
    + simpl app. simpl meridiemAhead. rewrite M, andb_true_r. simpl isEmpty.
      simpl andb. destruct (isDigit d); reflexivity.
    + simpl in FW. apply andb_true_iff in FW as [Fw FW].
      rewrite meridiemAhead_false, andb_false_r by (simpl; now right).
      simpl isEmpty. simpl andb. cbv iota.
      rewrite (spaceFirst_nodigit (w :: W)); [reflexivity|].
      simpl. rewrite (space_not_digit _ Fw). simpl.
      apply forallb_forall. intros c Ic. apply space_not_digit.
      rewrite forallb_forall in FW. now apply FW.
  - change (last (d :: d' :: D) 0) with (last (d' :: D) 0).
    simpl app at 1. rewrite spaceFirst_step.
    rewrite meridiemAhead_false, andb_false_r.
    + change (d' :: D ++ W ++ [a; b]) with ((d' :: D) ++ W ++ [a; b]).
      rewrite IH; [reflexivity | discriminate | exact FD].
    + simpl. simpl in FD. apply andb_true_iff in FD as [FD _]. now left.
Qed.

Lemma upperFirst_prefix P a b r :
  forallb (fun c => isDigitOrColon c || isSpaceChar c) P = true ->
  upperFirst (P ++ a :: b :: r) = P ++ upperFirst (a :: b :: r).
Proof.
  induction P as [|x P IH]; [reflexivity|]. intros H.
  simpl in H. apply andb_true_iff in H as [Hx H].
  simpl app. destruct (P ++ a :: b :: r) as [|y t] eqn:E.
  - now destruct P.
  - change (upperFirst (x :: y :: t))
      with (if isMeridiem x y then toUpperUnit x :: toUpperUnit y :: t
            else x :: upperFirst (y :: t)).
    rewrite not_meridiem_start by (now apply orb_true_iff).
    rewrite IH by assumption. reflexivity.
Qed.

Lemma upperFirst_plain P :
  forallb (fun c => isDigitOrColon c || isSpaceChar c) P = true ->
  upperFirst P = P.
Proof.
  induction P as [|x P IH]; [reflexivity|]. intros H.
  simpl in H. apply andb_true_iff in H as [Hx H].
  destruct P as [|y t]; [reflexivity|].
  change (upperFirst (x :: y :: t))
    with (if isMeridiem x y then toUpperUnit x :: toUpperUnit y :: t
          else x :: upperFirst (y :: t)).
  rewrite not_meridiem_start by (now apply orb_true_iff).
  now rewrite IH.
Qed.

Lemma nonletter_digits D :
  forallb isDigitOrColon D = true ->
  forallb (fun c => isDigitOrColon c || isSpaceChar c) D = true.
Proof.
  intros H. apply forallb_forall. intros c I.
  rewrite forallb_forall in H. now rewrite (H _ I).
Qed.

Lemma nonletter_spaces W :
  forallb isSpaceChar W = true ->
  forallb (fun c => isDigitOrColon c || isSpaceChar c) W = true.
Proof.
  intros H. apply forallb_forall. intros c I.
  rewrite forallb_forall in H. rewrite (H _ I). apply orb_true_r.
Qed.

Lemma digits_edges D :
  D <> [] -> forallb isDigitOrColon D = true ->
  startsWithSpace D = false /\ endsWithSpace D = false.
Proof.
  intros ND F. rewrite forallb_forall in F. split.
  - destruct D as [|d D]; [congruence|]. simpl.
    apply digitOrColon_solid, F. now left.
  - unfold endsWithSpace. destruct (rev D) as [|c r] eqn:E; [reflexivity|].
    apply digitOrColon_solid, F, in_rev. rewrite E. now left.
Qed.

Lemma trimStart_app_spaces w s :
  forallb isSpaceChar w = true -> trimStart (w ++ s) = trimStart s.
Proof.
  induction w as [|c w IH]; simpl; [reflexivity|].
  intros H. apply andb_true_iff in H as [-> H]. auto.
Qed.

Lemma trim_trailing_spaces D W :
  startsWithSpace D = false -> endsWithSpace D = false ->
  forallb isSpaceChar W = true -> trim (D ++ W) = D.
Proof.
  intros S E F. unfold trim, trimEnd.
  assert (T : trimStart (D ++ W) = D ++ W \/ D = []).
  { destruct D as [|d D]; [now right | left].
    simpl in *. now rewrite S. }
  destruct T as [T | ->].
  - rewrite T, rev_app_distr, trimStart_app_spaces.
    + rewrite trimStart_solid; [apply rev_involutive|].
      unfold endsWithSpace in E. destruct (rev D); [reflexivity | exact E].
    + apply forallb_forall. intros c I. apply in_rev in I.
      rewrite forallb_forall in F. auto.
  - simpl. now rewrite (trimStart_all_space _ F).
Qed.

Lemma normalizeTime_shape D W A :
  D <> [] -> forallb isDigitOrColon D = true ->
  forallb isSpaceChar W = true -> ~ In LF W ->
  (A = [] \/ exists a b, A = [a; b] /\ isMeridiem a b = true) ->
  normalTime (normalizeTime (trim (D ++ W ++ A))).
Proof.
  intros ND FD FW NL HA. rewrite normalizeTime_first_marker_eq.
  destruct (digits_edges _ ND FD) as [SD ED].
  destruct HA as [-> | (a & b & -> & M)].
  - rewrite app_nil_r, trim_trailing_spaces by assumption.
    rewrite spaceFirst_plain, upperFirst_plain
      by auto using nonletter_digits.
    now constructor.
  - destruct (meridiem_solid _ _ M) as (Sa & Sb & _).
    rewrite trim_solid.
    + rewrite spaceFirst_time by assumption.
      set (W' := if isEmpty W && isDigit (last D 0) then [SPACE] else W).
      assert (FW' : forallb isSpaceChar W' = true)
        by (subst W'; destruct (isEmpty W && isDigit (last D 0)); auto).
      rewrite app_assoc, upperFirst_prefix.
      * change (upperFirst [a; b])
          with (if isMeridiem a b then [toUpperUnit a; toUpperUnit b]
                else [a; b]).
        rewrite M, <- app_assoc.
        destruct (meridiem_units _ _ M) as [Ua ->].
        apply markedTime; try assumption.
        { subst W'. destruct (isEmpty W && isDigit (last D 0));
            [|assumption].
          intros [E | []]. discriminate E. }
        intros E. subst W'.
        destruct (isDigit (last D 0)) eqn:DL; [|reflexivity].
        rewrite andb_true_r in E. destruct W; simpl in E; discriminate.
      * rewrite forallb_app, nonletter_digits, nonletter_spaces; auto.
    + destruct D; [congruence | exact SD].
    + change (D ++ W ++ [a; b]) with (D ++ W ++ [a] ++ [b]).
      rewrite !app_assoc. now rewrite endsWithSpace_last.
Qed.

Lemma normalTime_fixed t :
  normalTime t ->
  t <> [] /\ trim t = t /\ normalizeTime t = t /\ ~ In LF t.
Proof.
  intros H. rewrite normalizeTime_first_marker_eq.
  destruct H as [D ND FD | D W X ND FD FW NL HW HX].
  - destruct (digits_edges _ ND FD) as [SD ED].
    repeat split; try assumption.
    + now apply trim_solid.
    + rewrite spaceFirst_plain, upperFirst_plain
        by auto using nonletter_digits. reflexivity.
    + intros I. rewrite forallb_forall in FD.
      specialize (FD _ I). discriminate FD.
  - destruct (digits_edges _ ND FD) as [SD ED].
    assert (M : isMeridiem X 77 = true)
      by (destruct HX as [-> | ->]; reflexivity).
    repeat split.
    + destruct D; [congruence | discriminate].
    + apply trim_solid.
      * destruct D; [congruence | exact SD].
      * change (D ++ W ++ [X; 77]) with (D ++ W ++ [X] ++ [77]).
        rewrite !app_assoc. now rewrite endsWithSpace_last.
    + rewrite spaceFirst_time by assumption.
      replace (if isEmpty W && isDigit (last D 0) then [SPACE] else W)
        with W.
      * rewrite app_assoc, upperFirst_prefix.
        -- destruct HX as [-> | ->];
             [ change (upperFirst [65; 77]) with [65; 77]
             | change (upperFirst [80; 77]) with [80; 77] ];
             now rewrite <- app_assoc.
        -- rewrite forallb_app, nonletter_digits, nonletter_spaces; auto.
      * destruct W; [|reflexivity]. now rewrite HW.
    + intros I. rewrite !in_app_iff in I.
      rewrite forallb_forall in FD. simpl in I.
      destruct I as [I | [I | [E | [E | []]]]];
        [ specialize (FD _ I); discriminate FD
        | contradiction
        | destruct HX as [-> | ->]; discriminate E
        | discriminate E ].
Qed.

(** ** The first result of a sequence *)

Lemma flat_map_head {A B : Type} (f : A -> list B) l y tl :
  flat_map f l = y :: tl ->
  exists z tl', In z l /\ f z = y :: tl'.
Proof.
  induction l as [|a l IH]; simpl; [discriminate|].
  destruct (f a) as [|b fa] eqn:E.
  - intros H. destruct (IH H) as (z & tl' & I & F). eauto.
  - intros [= -> <-]. exists a, fa. auto.
Qed.

Lemma seqTail_head ic ml t r : seqTail t r -> forall x y tl,
  matcher ic ml r x = y :: tl ->
  exists z tl' w, extends x w z /\ matcher ic ml t z = y :: tl'.
Proof.
  induction 1 as [|a r _ IH]; intros x y tl M.
  - exists x, tl, []. split; [apply extends_refl | exact M].
  - rewrite matcher_seq in M.
    apply flat_map_head in M as (z & tl' & I & M).
    apply matcher_extends in I as (w & E).
    destruct (IH _ _ _ M) as (z' & tl'' & w' & E' & M').
    exists z', tl'', (w ++ w'). split; [|exact M'].
    eapply extends_trans; eauto.
Qed.

Lemma endsWithSpace_suffix a b :
  endsWithSpace (a ++ b) = false -> endsWithSpace b = false.
Proof.
  destruct b as [|c b]; [reflexivity|].
  now rewrite endsWithSpace_app by discriminate.
Qed.

Lemma spacesThenContent_first aft : forall bef caps,
  aft <> [] -> endsWithSpace aft = false ->
  exists y tl g,
    matcher true false spacesThenContent (mkState bef aft caps) = y :: tl /\
    lookup 3 (captures y) = Some g /\ trim g <> [].
Proof.
  unfold spacesThenContent.
  induction aft as [|c rest IH]; intros bef caps NE ES; [congruence|].
  rewrite matcher_seq.
  change (matcher true false (Star spaceSet) (mkState bef (c :: rest) caps))
    with (if charMatches true spaceSet c
          then starGreedy true spaceSet (c :: bef) rest caps
               ++ [mkState bef (c :: rest) caps]
          else [mkState bef (c :: rest) caps]).
  rewrite charMatches_space. destruct (isSpaceChar c) eqn:Sc.
  - assert (NR : rest <> []).
    { intros ->. unfold endsWithSpace in ES. simpl in ES. congruence. }
    change (c :: rest) with ([c] ++ rest) in ES.
    rewrite endsWithSpace_app in ES by assumption.
    destruct (IH (c :: bef) caps NR ES) as (y & tl & g & M & L & T).
    rewrite matcher_seq in M. simpl matcher in M at 2.
    rewrite flat_map_app, M.
    eexists y, _, g. split; [reflexivity | auto].
  - rewrite flat_map_one, matcher_group, plus_cons.
    rewrite (nonSpace_matches_dot _ _ Sc).
    destruct (starGreedy_head true Dot rest (c :: bef) caps)
      as (w & tl & E & A).
    rewrite E. simpl map.
    eexists _, _, (c :: w). split; [reflexivity|]. split.
    + simpl. f_equal. apply consumed_after. simpl. now f_equal.
    + rewrite trim_nil_iff. simpl. now rewrite Sc.
Qed.

Lemma single_line_tail re :
  In re singleLinePatterns ->
  seqTail spacesThenContent (source re) /\
  ignoreCase re = true /\ multiline re = false.
Proof.
  intros I. simpl in I.
  repeat (destruct I as [<- | I];
          [split; [repeat constructor | split; reflexivity]|]).
  destruct I.
Qed.

Lemma content_solid re line r :
  In re singleLinePatterns -> endsWithSpace line = false ->
  exec re line = Some r ->
  exists g, group r 3 = Some g /\ trim g <> [].
Proof.
  intros I ES E.
  destruct (single_line_tail _ I) as (ST & IC & ML).
  apply execFrom_some in E as (pre & post & A & _ & tl & M).
  rewrite IC, ML in M.
  destruct (seqTail_head _ _ _ _ ST _ _ _ M) as (z & tl' & w & [X _] & M').
  simpl in X. destruct z as [bef aft caps]. simpl in X.
  destruct aft as [|c aft].
  - simpl in M'. discriminate M'.
  - destruct (spacesThenContent_first (c :: aft) bef caps)
      as (y & tl'' & g & M'' & L & T); [discriminate | |].
    + rewrite A, X in ES. now apply endsWithSpace_suffix, endsWithSpace_suffix in ES.
    + rewrite M'' in M'. injection M' as Ey _.
      exists g. unfold group. rewrite <- Ey. auto.
Qed.

(** ** What [parseLine] returns on a trimmed line *)

Lemma time_capture re line r n g :
  ignoreCase re = true -> multiline re = false ->
  groupBodies n (source re) = [timeBody] ->
  ~ In LF line -> exec re line = Some r -> group r n = Some g ->
  normalTime (normalizeTime (trim g)).
Proof.
  intros IC ML GB NL E G.
  destruct (exec_capture _ _ _ _ _ E G) as (Inc & sub & x & y & I & M & ->).
  rewrite GB in I. destruct I as [<- | []]. rewrite IC, ML in M.
  destruct (timeBody_shape _ _ M) as (D & W & A & C & ND & FD & FW & HA).
  rewrite C in *. apply normalizeTime_shape; try assumption.
  intros K. apply NL, Inc. rewrite !in_app_iff. auto.
Qed.

Lemma parseLine_wellFormed line m :
  trimmedLine line -> parseLine line = Normal (Some m) -> wellFormed m.
Proof.
  intros (NE & SS & ES & NL) H.
  destruct (parseLine_cases line)
    as [[_ K] | (pre & f & re & post & r & tuc & P & _ & E & Fd & K)];
    [congruence|].
  rewrite K in H. injection H as <-.
  assert (I : In (f, re) patterns)
    by (rewrite P; apply in_app_iff; right; now left).
  destruct (fields_returns _ _ _ _ I E) as (g1 & g2 & g3 & G1 & G2 & G3 & Fd').
  rewrite Fd' in Fd. injection Fd as <-.
  assert (S3 : In re singleLinePatterns ->
               trim g3 <> []).
  { intros Is. destruct (content_solid _ _ _ Is ES E) as (g & G & T).
    congruence. }
  pose proof (trim_edges g3) as [T1 T2].
  simpl in I.
  repeat (destruct I as [[= <- <-] | I];
    [ first
        [ rewrite multiline_exec_none in E;
          [discriminate | assumption | simpl; tauto]
        | split;
          [ simpl; eapply time_capture; try eassumption; reflexivity
          | split; [simpl; eauto|];
            simpl; repeat split; try assumption;
            apply S3; simpl; tauto ] ] |]).
  destruct I.
Qed.

Lemma appendContent_wellFormed line m :
  trimmedLine line -> wellFormed m ->
  wellFormed (appendContent m (SPACE :: line)).
Proof.
  intros (NE & SS & ES & NL) (T & U & CN & CS & CE).
  repeat split; simpl; try assumption.
  - destruct (content m); [congruence | discriminate].
  - destruct (content m); [congruence | exact CS].
  - rewrite endsWithSpace_app by discriminate.
    change (SPACE :: line) with ([SPACE] ++ line).
    now rewrite endsWithSpace_app.
Qed.

Lemma linesOf_trimmed text :
  Forall trimmedLine (linesOf text).
Proof.
  apply Forall_forall. intros line I.
  pose proof (linesOf_no_LF _ _ I) as NL.
  unfold linesOf in I. apply filter_In in I as [I NE].
  apply in_map_iff in I as (l & <- & _).
  destruct (trim_edges l) as [S E].
  repeat split; try assumption.
  intros K. rewrite K in NE. discriminate.
Qed.

Lemma parse_wellFormed text msgs :
  parse text = Normal msgs -> Forall wellFormed msgs.
Proof.
  intros H.
  destruct (parse_invariant trimmedLine wellFormed) with (text := text)
    as (msgs' & E & F).
  - apply parseLine_wellFormed.
  - intros line m L _. now apply appendContent_wellFormed.
  - apply linesOf_trimmed.
  - congruence.
Qed.

(** ** Reading the standard form back *)

Lemma reads_seq a b w1 w2 rest caps caps1 caps2 :
  reads a w1 (w2 ++ rest) caps caps1 ->
  reads b w2 rest caps1 caps2 ->
  reads (Seq a b) (w1 ++ w2) rest caps caps2.
Proof.
  intros Ha Hb bef. rewrite <- app_assoc, matcher_seq.
  destruct (Ha bef) as (bef1 & tl1 & E1).
  destruct (Hb bef1) as (bef2 & tl2 & E2).
  exists bef2. rewrite E1. simpl. rewrite E2.
  eexists. reflexivity.
Qed.

Lemma reads_group n a w rest caps caps' :
  reads a w rest caps caps' ->
  reads (Group n a) w rest caps ((n, w) :: caps').
Proof.
  intros Ha bef. destruct (Ha bef) as (bef1 & tl1 & E1).
  exists bef1. rewrite matcher_group, E1. simpl map.
  rewrite setCapture_app. eexists. reflexivity.
Qed.

Lemma reads_chr cs c rest caps :
  charMatches true cs c = true -> reads (Chr cs) [c] rest caps caps.
Proof.
  intros M bef. exists (c :: bef). simpl. unfold stepChar. simpl.
  rewrite M. eexists. reflexivity.
Qed.

Lemma reads_plus cs w rest caps :
  w <> [] -> forallb (charMatches true cs) w = true ->
  stopsAt (charMatches true cs) rest ->
  reads (Plus cs) w rest caps caps.
Proof.
  intros NE F S bef. exists (rev w ++ bef).
  exact (plus_run true false cs bef w rest caps NE F S).
Qed.

Lemma reads_star cs w rest caps :
  forallb (charMatches true cs) w = true ->
  stopsAt (charMatches true cs) rest ->
  reads (Star cs) w rest caps caps.
Proof.
  intros F S bef. exists (rev w ++ bef).
  exact (star_run true false cs bef w rest caps F S).
Qed.

Lemma no_members {A : Type} (l : list A) : (forall y, ~ In y l) -> l = [].
Proof.
  destruct l as [|a l]; [reflexivity|]. intros H.
  destruct (H a). now left.
Qed.

Lemma reads_no_marker c rest caps :
  (forall b, isMeridiem c b = false) ->
  reads (Opt (Alt (lit "AM") (lit "PM"))) [] (c :: rest) caps caps.
Proof.
  intros H bef. exists bef. simpl app.
  change (matcher true false (Opt ?r) ?x)
    with (filter (progressed x) (matcher true false r x) ++ [x]).
  rewrite (no_members (matcher _ _ _ _)); [eexists; reflexivity|].
  intros y I. apply meridiem_in in I as (a & b & r & E & M & _).
  injection E as <- _. now rewrite H in M.
Qed.

Lemma reads_marker a b rest caps :
  isMeridiem a b = true ->
  reads (Opt (Alt (lit "AM") (lit "PM"))) [a; b] rest caps caps.
Proof.
  intros M bef. exists (b :: a :: bef). simpl app.
  change (matcher true false (Opt ?r) ?x)
    with (filter (progressed x) (matcher true false r x) ++ [x]).
  rewrite (proj1 (meridiem_steps _ _ _ _ _)), M.
  simpl filter. unfold progressed at 1. simpl.
  replace (length rest =? S (S (length rest)))%nat with false
    by (symmetry; apply Nat.eqb_neq; lia).
  eexists. reflexivity.
Qed.

Lemma bracket_no_marker b : isMeridiem 93 b = false.
Proof. reflexivity. Qed.

Lemma stopsAt_space_digit s :
  match s with c :: _ => isDigitOrColon c = false | [] => True end ->
  stopsAt (charMatches true digitOrColon) s.
Proof.
  destruct s as [|c s]; unfold stopsAt; [auto|].
  now rewrite charMatches_digitOrColon.
Qed.

Lemma reads_time t rest caps :
  normalTime t -> reads timeBody t (93 :: rest) caps caps.
Proof.
  intros [D ND FD | D W X ND FD FW NL HW HX]; unfold timeBody.
  - rewrite <- (app_nil_r D).
    apply (reads_seq _ _ D [] _ caps caps caps).
    + apply reads_plus; [assumption | |reflexivity].
      now rewrite (forallb_eq _ _ _ charMatches_digitOrColon).
    + apply (reads_seq _ _ [] [] _ caps caps caps).
      * apply reads_star; reflexivity.
      * apply reads_no_marker, bracket_no_marker.
  - assert (M : isMeridiem X 77 = true)
      by (destruct HX as [-> | ->]; reflexivity).
    destruct (meridiem_solid _ _ M) as (SX & _ & DX & _).
    apply (reads_seq _ _ D (W ++ [X; 77]) _ caps caps caps).
    + apply reads_plus; [assumption | |].
      * now rewrite (forallb_eq _ _ _ charMatches_digitOrColon).
      * apply stopsAt_space_digit.
        destruct W as [|w W]; [exact DX|]. simpl.
        simpl in FW. apply andb_true_iff in FW as [Fw _].
        destruct (isDigitOrColon w) eqn:K; [|reflexivity].
        apply digitOrColon_solid in K. congruence.
    + apply (reads_seq _ _ W [X; 77] _ caps caps caps).
      * apply reads_star.
        -- now rewrite (forallb_eq _ _ _ (charMatches_space true)).
        -- change (charMatches true spaceSet X = false).
           now rewrite charMatches_space.
      * now apply reads_marker.
Qed.

Lemma execFrom_head re bef aft y :
  headIs (matcher (ignoreCase re) (multiline re) (source re)
                  (mkState bef aft [])) y ->
  execFrom re bef aft = Some (mkMatch bef y).
Proof.
  intros (tl & E). destruct aft; simpl; now rewrite E.
Qed.

Lemma reads_contentTail c caps :
  c <> [] -> startsWithSpace c = false ->
  forallb (fun u => negb (isLineTerminator u)) c = true ->
  reads contentTail ([58] ++ [32] ++ c) [] caps ((3%nat, c) :: caps).
Proof.
  intros NE SS NT. unfold contentTail.
  apply (reads_seq _ _ [58] ([32] ++ c) _ caps caps); [now apply reads_chr|].
  apply (reads_seq _ _ [32] c _ caps caps).
  - apply reads_star; [reflexivity|].
    destruct c as [|u c]; [congruence|].
    change (charMatches true spaceSet u = false).
    now rewrite charMatches_space.
  - apply reads_group, reads_plus; [assumption | exact NT | exact I].
Qed.

Lemma space_before_colon K bef rest caps :
  matcher true false
    (Star spaceSet ;; Group 2 (Plus (notChar ":")) ;; K)%regex
    (mkState bef (32 :: 58 :: rest) caps)
  = matcher true false (Group 2 (Plus (notChar ":")) ;; K)%regex
            (mkState bef (32 :: 58 :: rest) caps).
Proof.
  rewrite matcher_seq.
  change (matcher true false (Star spaceSet)
                  (mkState bef (32 :: 58 :: rest) caps))
    with [mkState (32 :: bef) (58 :: rest) caps;
          mkState bef (32 :: 58 :: rest) caps].
  change (flat_map ?f [?a; ?b]) with (f a ++ f b ++ []).
  rewrite app_nil_r.
  replace (matcher true false (Group 2 (Plus (notChar ":")) ;; K)%regex
                   (mkState (32 :: bef) (58 :: rest) caps))
    with (@nil State); [reflexivity|].
  rewrite matcher_seq, matcher_group, plus_cons. reflexivity.
Qed.

Lemma reads_user u rest caps :
  u <> [] -> ~ In COLON u ->
  reads (Group 2 (Plus (notChar ":"))) u (58 :: rest) caps
        ((2%nat, u) :: caps).
Proof.
  intros NE NC. apply reads_group, reads_plus; [assumption | |reflexivity].
  rewrite (forallb_eq _ _ _ charMatches_notColon).
  apply forallb_forall. intros c I. apply negb_true_iff.
  destruct (isColon c) eqn:E; [|reflexivity].
  apply N.eqb_eq in E. subst c. contradiction.
Qed.

Lemma reads_after_bracket u c caps :
  ~ In COLON u -> startsWithSpace u = false ->
  c <> [] -> startsWithSpace c = false ->
  forallb (fun a => negb (isLineTerminator a)) c = true ->
  reads (Star spaceSet ;; Group 2 (Plus (notChar ":")) ;; contentTail)%regex
        ([32] ++ u ++ [58] ++ [32] ++ c) [] caps
        ((3%nat, c) :: (2%nat, if isEmpty u then [SPACE] else u) :: caps).
Proof.
  intros NC SU NE SC NT. destruct u as [|a u].
  - intros bef. simpl app. rewrite space_before_colon.
    revert bef.
    apply (reads_seq _ _ [32] ([58] ++ [32] ++ c) [] caps
                     ((2%nat, [32]) :: caps)).
    + apply reads_user; [discriminate|].
      intros [E | []]. discriminate E.
    + now apply reads_contentTail.
  - apply (reads_seq _ _ [32] ((a :: u) ++ [58] ++ [32] ++ c) [] caps caps).
    + apply reads_star; [reflexivity|].
      change (charMatches true spaceSet a = false).
      now rewrite charMatches_space.
    + apply (reads_seq _ _ (a :: u) ([58] ++ [32] ++ c) [] caps
                       ((2%nat, a :: u) :: caps)).
      * apply reads_user; [discriminate | assumption].
      * now apply reads_contentTail.
Qed.

Lemma standardLine_parts m :
  standardLine m
  = ([91] ++ time m ++ [93] ++
     [32] ++ user m ++ [58] ++ [32] ++ content m) ++ [].
Proof.
  unfold standardLine. rewrite app_nil_r. reflexivity.
Qed.

Lemma reads_standardLine m :
  wellFormed m -> roundTrips m ->
  reads (source Pattern.discord) (standardLine m) [] []
        [(3%nat, content m);
         (2%nat, if isEmpty (user m) then [SPACE] else user m);
         (1%nat, time m)].
Proof.
  intros (NT & (name & EU) & CN & CS & CE) (NC & UE & LT).
  assert (SU : startsWithSpace (user m) = false).
  { rewrite EU in NC, UE |- *. now apply cleanUsername_fixed. }
  rewrite standardLine_parts. rewrite app_nil_r.
  unfold Pattern.discord, source.
  apply (reads_seq _ _ [91] _ [] [] []); [now apply reads_chr|].
  apply (reads_seq _ _ (time m) _ [] [] [(1%nat, time m)]).
  { apply reads_group. now apply reads_time. }
  apply (reads_seq _ _ [93] _ [] _ [(1%nat, time m)]);
    [now apply reads_chr|].
  now apply reads_after_bracket.
Qed.

Lemma standardLine_trimmed m :
  wellFormed m -> roundTrips m -> trimmedLine (standardLine m).
Proof.
  intros (NT & (name & EU) & CN & CS & CE) (NC & UE & LT).
  destruct (normalTime_fixed _ NT) as (_ & _ & _ & TL).
  assert (UL : ~ In LF (user m)).
  { rewrite EU in NC, UE |- *. now apply cleanUsername_fixed. }
  unfold standardLine. split; [discriminate|].
  split; [reflexivity|]. split.
  - rewrite !app_assoc, endsWithSpace_app; assumption.
  - rewrite !in_app_iff. simpl.
    intros [[E | []] | [I | [[E | [E | []]] | [I | [[E | [E | []]] | I]]]]];
      try discriminate E; try contradiction.
    rewrite forallb_forall in LT. specialize (LT _ I). discriminate LT.
Qed.

Lemma parseLine_standardLine m :
  wellFormed m -> roundTrips m ->
  parseLine (standardLine m) = Normal (Some (retagged m)).
Proof.
  intros W R.
  destruct (standardLine_trimmed _ W R) as (_ & _ & _ & NL).
  destruct (reads_standardLine _ W R []) as (bef' & H).
  apply (execFrom_head Pattern.discord) in H. rewrite app_nil_r in H.
  unfold parseLine.
  change patterns
    with ([(imessage, Pattern.imessage)] ++
          (discord, Pattern.discord) :: skipn 2 patterns).
  rewrite (parseLineWith_first [(imessage, Pattern.imessage)]
             discord Pattern.discord (skipn 2 patterns) (standardLine m)
             (mkMatch [] (mkState bef' []
                [(3%nat, content m);
                 (2%nat, if isEmpty (user m) then [SPACE] else user m);
                 (1%nat, time m)]))).
  - destruct W as (NT & (name & EU) & CN & CS & CE).
    destruct R as (NC & UE & LT).
    destruct (normalTime_fixed _ NT) as (_ & TT & TN & _).
    unfold fields, groupTrim, group. simpl.
    rewrite TT, TN, (trim_solid _ CS CE).
    unfold retagged. do 2 f_equal. f_equal.
    destruct (isEmpty (user m)) eqn:IE.
    + apply isEmpty_true in IE. rewrite IE. reflexivity.
    + rewrite EU in NC, UE |- *.
      destruct (cleanUsername_fixed _ NC UE) as (_ & -> & -> & _).
      reflexivity.
  - repeat constructor. simpl.
    apply multiline_exec_none; [assumption | simpl; tauto].
  - exact H.
Qed.

(** ** The round trip *)

Lemma split_join ls :
  ls <> [] -> Forall (fun l => ~ In LF l) ls ->
  split LF (join [LF] ls) = ls.
Proof.
  induction ls as [|a ls IH]; [congruence|]. intros _ F.
  inversion F as [|? ? Ha Hls]; subst.
  destruct ls as [|b ls]; [now apply split_single|].
  change (join [LF] (a :: b :: ls)) with (a ++ LF :: join [LF] (b :: ls)).
  rewrite split_app_sep, (split_single _ _ Ha), IH; [reflexivity| |assumption].
  discriminate.
Qed.

Lemma linesOf_join ls :
  ls <> [] -> Forall trimmedLine ls -> linesOf (join [LF] ls) = ls.
Proof.
  intros NE F. unfold linesOf. rewrite split_join; [|assumption|].
  - induction F as [|l ls (NEl & S & E & _) _ IH]; [reflexivity|].
    simpl. rewrite (trim_solid _ S E), (isEmpty_false _ NEl). simpl.
    f_equal. destruct ls; [reflexivity | apply IH; discriminate].
  - eapply Forall_impl; [|exact F]. now intros l (_ & _ & _ & H).
Qed.

Lemma parseLoop_all_open ms : forall st,
  Forall (fun m => parseLine (standardLine m) = Normal (Some (retagged m)))
         ms ->
  exists st', parseLoop (map standardLine ms) st = Normal st' /\
              closeAll st' = closeAll st ++ map retagged ms.
Proof.
  induction ms as [|m ms IH]; intros st F; simpl.
  - exists st. now rewrite app_nil_r.
  - inversion F as [|? ? Hm Hms]; subst.
    destruct st as [messages cur]. unfold parseStep. rewrite Hm. simpl.
    destruct (IH (match cur with Some c => messages ++ [c] | None => messages end,
                  Some (retagged m)) Hms) as (st' & E & C).
    exists st'. split; [exact E|]. rewrite C. unfold closeAll. simpl.
    destruct cur; simpl; rewrite <- ?app_assoc; reflexivity.
Qed.

Lemma parse_closeAll text st :
  existsb (fun c => negb (isSpaceChar c)) text = true ->
  parseLoop (linesOf text) ([], None) = Normal st ->
  parse text = Normal (closeAll st).
Proof.
  intros B L. rewrite (parse_nonblank _ B), L. simpl.
  unfold closeAll. destruct (snd st); [reflexivity|].
  now rewrite app_nil_r.
Qed.

Lemma parse_toStandardFormat msgs :
  Forall wellFormed msgs -> Forall roundTrips msgs ->
  parse (toStandardFormat msgs) = Normal (map retagged msgs).
Proof.
  intros W R. destruct msgs as [|m msgs]; [reflexivity|].
  assert (F : Forall (fun m => wellFormed m /\ roundTrips m) (m :: msgs)).
  { apply Forall_forall. intros x I. rewrite Forall_forall in W, R. auto. }
  destruct (parseLoop_all_open (m :: msgs) ([], None)) as (st & E & C).
  { eapply Forall_impl; [|exact F].
    intros x [Wx Rx]. now apply parseLine_standardLine. }
  change (closeAll ([], None) ++ map retagged (m :: msgs))
    with (map retagged (m :: msgs)) in C.
  rewrite <- C. apply parse_closeAll.
  - unfold toStandardFormat. simpl map.
    destruct (map standardLine msgs); reflexivity.
  - unfold toStandardFormat. rewrite linesOf_join; [exact E | discriminate|].
    apply Forall_forall. intros l I. apply in_map_iff in I as (x & <- & I).
    rewrite Forall_forall in F. destruct (F _ I).
    now apply standardLine_trimmed.
Qed.

(** C3, as amended: for every list of messages produced by [parse] in
    which no user contains a colon or ends with white space and no content
    contains a line terminator, the parse of its standard form is a list of
    the same length whose messages have the same time, user and content,
    each with the format tag discord. *)
Theorem roundtrip_standard_form (text : jsstring) (msgs : list Message) :
  parse text = Normal msgs -> Forall roundTrips msgs ->
  parse (toStandardFormat msgs) = Normal (map retagged msgs) /\
  length (map retagged msgs) = length msgs /\
  map triple (map retagged msgs) = map triple msgs /\
  Forall (fun m => format m = discord) (map retagged msgs).
Proof.
  intros P R. split; [|split; [|split]].
  - apply parse_toStandardFormat; [|assumption].
    now apply parse_wellFormed with text.
  - apply length_map.
  - rewrite map_map. reflexivity.
  - apply Forall_forall. intros m I.
    apply in_map_iff in I as (x & <- & _). reflexivity.
Qed.

(** C3 on a text with a continuation line and a whatsapp2 line. *)
Lemma roundtrip_standard_form_witness :
  parse (str "[10:30 AM] John: Hello" ++ LF :: str "still talking" ++ LF ::
         str "Jane, 9:05pm: see you")
    = Normal [mkMessage (str "10:30 AM") (str "John")
                        (str "Hello still talking") discord;
              mkMessage (str "9:05 PM") (str "Jane")
                        (str "see you") whatsapp2] /\
  parse (str "[10:30 AM] John: Hello still talking" ++ LF ::
         str "[9:05 PM] Jane: see you")
    = Normal [mkMessage (str "10:30 AM") (str "John")
                        (str "Hello still talking") discord;
              mkMessage (str "9:05 PM") (str "Jane")
                        (str "see you") discord].
Proof.
  assert (P : parse (str "[10:30 AM] John: Hello" ++ LF ::
                     str "still talking" ++ LF ::
                     str "Jane, 9:05pm: see you")
              = Normal [mkMessage (str "10:30 AM") (str "John")
                                  (str "Hello still talking") discord;
                        mkMessage (str "9:05 PM") (str "Jane")
                                  (str "see you") whatsapp2])
    by (vm_compute; reflexivity).
  split; [exact P|].
  apply (roundtrip_standard_form _ _ P).
  repeat constructor; vm_compute; intuition discriminate.
Defined.

(** C3 fails as stated: a user with a colon in it, which the whatsapp2
    rule lets through, is cut at that colon when the standard form is read
    back; a user that ends with a space loses the space; and a content with
    a carriage return in it, folded in from a continuation line, is cut
    there. *)
Lemma roundtrip_changes_fields :
  (let msgs := [mkMessage (str "10:30") (str "a:b") (str "hi") whatsapp2] in
   parse (str "a:b, 10:30: hi") = Normal msgs /\
   parse (toStandardFormat msgs)
     = Normal [mkMessage (str "10:30") (str "a") (str "b: hi") discord] /\
   forall msgs', parse (toStandardFormat msgs) = Normal msgs' ->
                 map triple msgs' <> map triple msgs) /\
  (let msgs := [mkMessage (str "10:30") (str "a ") (str "hi") whatsapp2] in
   parse (str "a :, 10:30: hi") = Normal msgs /\
   parse (toStandardFormat msgs)
     = Normal [mkMessage (str "10:30") (str "a") (str "hi") discord]) /\
  (let msgs := [mkMessage (str "10:30") (str "a")
                          (str "hi x" ++ CR :: str "y") discord] in
   parse (str "[10:30] a: hi" ++ LF :: str "x" ++ CR :: str "y")
     = Normal msgs /\
   parse (toStandardFormat msgs)
     = Normal [mkMessage (str "10:30") (str "a") (str "hi x") discord]).
Proof.
  split; [|split].
  - split; [vm_compute; reflexivity|].
    split; [vm_compute; reflexivity|].
    intros msgs' H. vm_compute in H. injection H as <-.
    vm_compute. discriminate.
  - split; vm_compute; reflexivity.
  - split; vm_compute; reflexivity.
Qed.

(** * Further properties of the program *)

(** ** [parse] as a function of the lines *)

Lemma split_incl sep s : forall l, In l (split sep s) -> incl l s.
Proof.
  induction s as [|c r IH]; simpl.
  - intros l [<- | []]. apply incl_refl.
  - destruct (c =? sep).
    + intros l [<- | H]; [intros a [] | apply incl_tl; auto].
    + destruct (split sep r) as [|l0 ls] eqn:S.
      * intros l [<- | []]. intros a [<- | []]. now left.
      * intros l [<- | H].
        -- apply incl_cons; [now left|]. apply incl_tl, IH. now left.
        -- apply incl_tl, IH. now right.
Qed.

Lemma linesOf_blank text :
  forallb isSpaceChar text = true -> linesOf text = [].
Proof.
  intros F. unfold linesOf.
  assert (H : forall l, In l (split LF text) -> trim l = []).
  { intros l I. apply trim_all_space, forallb_forall. intros c Ic.
    rewrite forallb_forall in F. apply F. exact (split_incl _ _ _ I _ Ic). }
  induction (split LF text) as [|l ls IH]; [reflexivity|].
  simpl. rewrite (H l) by now left. simpl. apply IH.
  intros l' I. apply H. now right.
Qed.

Lemma blank_forallb text :
  existsb (fun c => negb (isSpaceChar c)) text = false ->
  forallb isSpaceChar text = true.
Proof.
  intros H. apply forallb_forall. intros c I.
  destruct (isSpaceChar c) eqn:C; [reflexivity|].
  assert (existsb (fun c => negb (isSpaceChar c)) text = true)
    by (apply existsb_exists; exists c; now rewrite C).
  congruence.
Qed.

Lemma parse_lines text :
  parse text
  = (st <- parseLoop (linesOf text) ([], None) ;; Normal (closeAll st)).
Proof.
  destruct (existsb (fun c => negb (isSpaceChar c)) text) eqn:B.
  - rewrite (parse_nonblank _ B).
    destruct (parseLoop _ _) as [[ms cur]|]; [|reflexivity].
    simpl. unfold closeAll. simpl. destruct cur; [reflexivity|].
    now rewrite app_nil_r.
  - rewrite (parse_blank _ B).
    now rewrite (linesOf_blank _ (blank_forallb _ B)).
Qed.

Lemma linesOf_app a b : linesOf (a ++ LF :: b) = linesOf a ++ linesOf b.
Proof.
  unfold linesOf. now rewrite split_app_sep, map_app, filter_app.
Qed.

Lemma linesOf_line l :
  ~ In LF l -> linesOf l = if isEmpty (trim l) then [] else [trim l].
Proof.
  intros NL. unfold linesOf. rewrite (split_single _ _ NL). simpl.
  destruct (isEmpty (trim l)); reflexivity.
Qed.

Lemma trim_trim l : trim (trim l) = trim l.
Proof. destruct (trim_edges l). now apply trim_solid. Qed.

Lemma trim_no_LF l : ~ In LF l -> ~ In LF (trim l).
Proof. intros NL I. now apply NL, trim_incl. Qed.

(** X1: [parse] does not see the white space around a line, nor a line
    made of white space only: with the line [l] replaced by its trimmed
    text the result is the same, and when [l] is blank the result is that
    of the text without the line. *)
Theorem parse_ignores_line_padding (a l b : jsstring) :
  ~ In LF l ->
  parse (a ++ LF :: l ++ LF :: b) = parse (a ++ LF :: trim l ++ LF :: b) /\
  (trim l = [] -> parse (a ++ LF :: l ++ LF :: b) = parse (a ++ LF :: b)).
Proof.
  intros NL. rewrite !parse_lines, !linesOf_app.
  rewrite (linesOf_line l NL), (linesOf_line (trim l) (trim_no_LF _ NL)).
  rewrite trim_trim. split; [reflexivity|].
  intros ->. reflexivity.
Qed.

(** X1 on an indented line and on a line of two spaces. *)
Lemma parse_ignores_line_padding_witness :
  parse (str "[1:00] a: b" ++ LF :: str "  more " ++ LF :: str "[1:01] c: d")
    = parse (str "[1:00] a: b" ++ LF :: str "more" ++ LF :: str "[1:01] c: d")
  /\
  parse (str "[1:00] a: b" ++ LF :: str "  " ++ LF :: str "[1:01] c: d")
    = parse (str "[1:00] a: b" ++ LF :: str "[1:01] c: d").
Proof.
  split.
  - apply (parse_ignores_line_padding (str "[1:00] a: b") (str "  more ")
             (str "[1:01] c: d")).
    vm_compute. intuition discriminate.
  - apply (parse_ignores_line_padding (str "[1:00] a: b") (str "  ")
             (str "[1:01] c: d")).
    + vm_compute. intuition discriminate.
    + reflexivity.
Defined.

Lemma parseLine_unmatched line :
  noRule (fun re => matchesSomewhere re line) patterns ->
  parseLine line = Normal None.
Proof. intros H. apply parseLineWith_none, noRule_exec, H. Qed.

(** X2: a first line that no rule matches is dropped without a trace: the
    parse of the text is the parse of what follows the line. *)
Theorem parse_drops_leading_unmatched (l t : jsstring) :
  ~ In LF l ->
  noRule (fun re => matchesSomewhere re (trim l)) patterns ->
  parse (l ++ LF :: t) = parse t.
Proof.
  intros NL U. rewrite !parse_lines, linesOf_app, (linesOf_line l NL).
  destruct (isEmpty (trim l)); [reflexivity|].
  simpl. now rewrite (parseLine_unmatched _ U).
Qed.

(** X2 on a heading before a bracketed line. *)
Lemma parse_drops_leading_unmatched_witness :
  parse (str "Chat export" ++ LF :: str "[1:00] a: b")
    = parse (str "[1:00] a: b").
Proof.
  apply (parse_drops_leading_unmatched (str "Chat export")
           (str "[1:00] a: b")).
  - vm_compute. intuition discriminate.
  - apply noRule_from_exec. repeat constructor.
Defined.

(** ** Cutting a text at a line that opens a message *)

Lemma parseLoop_returns lines st : exists st', parseLoop lines st = Normal st'.
Proof.
  destruct (parseLoop_invariant (fun _ => True) (fun _ => True)) with
    (lines := lines) (st := st) as (st' & E & _); auto.
  - apply Forall_forall. auto.
  - split; [apply Forall_forall; auto | destruct (snd st); exact I].
  - eauto.
Qed.

Lemma parseLoop_prefix lines : forall pre ms cur ms' cur',
  parseLoop lines (ms, cur) = Normal (ms', cur') ->
  parseLoop lines (pre ++ ms, cur) = Normal (pre ++ ms', cur').
Proof.
  induction lines as [|line rest IH]; intros pre ms cur ms' cur'; simpl.
  - now intros [= -> ->].
  - destruct (parseLine line) as [[p|]|]; simpl; [| |discriminate].
    + intros H. destruct cur as [c|].
      * rewrite <- app_assoc. now apply IH.
      * now apply IH.
    + destruct cur as [c|]; simpl; intros H; now apply IH.
Qed.

Lemma parseLoop_opened line rest st p :
  parseLine line = Normal (Some p) ->
  exists st0 st',
    parseLoop (line :: rest) ([], None) = Normal st0 /\
    parseLoop (line :: rest) st = Normal st' /\
    closeAll st' = closeAll st ++ closeAll st0.
Proof.
  intros E. destruct st as [ms cur]. simpl. rewrite !E. simpl.
  destruct (parseLoop_returns rest ([], Some p)) as ([ms0 cur0] & L).
  exists (ms0, cur0). rewrite L.
  pose proof (parseLoop_prefix rest
                (match cur with Some c => ms ++ [c] | None => ms end)
                [] (Some p) ms0 cur0 L) as K.
  rewrite app_nil_r in K. rewrite K. eexists. split; [reflexivity|].
  split; [reflexivity|]. unfold closeAll. simpl.
  destruct cur; simpl; rewrite <- ?app_assoc; reflexivity.
Qed.

Lemma matched_parseLine line :
  ~ noRule (fun re => matchesSomewhere re line) patterns ->
  exists p, parseLine line = Normal (Some p).
Proof.
  intros H.
  destruct (parseLine_cases line)
    as [[K _] | (pre & f & re & post & r & tuc & _ & _ & _ & _ & K)];
    [|eauto].
  destruct H. unfold noRule in *. eapply Forall_impl; [|exact K].
  intros e N M. apply N. now apply exec_matchesSomewhere.
Qed.

(** X3: a text can be cut before any line that opens a message: when the
    first line of the second part is matched by some rule, the parse of
    the two parts joined by a line feed is the parse of the first part
    followed by the parse of the second. *)
Theorem parse_cut_at_opening_line (t1 t2 first : jsstring)
    (rest : list jsstring) :
  linesOf t2 = first :: rest ->
  ~ noRule (fun re => matchesSomewhere re first) patterns ->
  exists m1 m2,
    parse t1 = Normal m1 /\ parse t2 = Normal m2 /\
    parse (t1 ++ LF :: t2) = Normal (m1 ++ m2).
Proof.
  intros L2 M. destruct (matched_parseLine _ M) as (p & E).
  rewrite !parse_lines, linesOf_app, parseLoop_app, L2.
  destruct (parseLoop_returns (linesOf t1) ([], None)) as (st1 & L1).
  rewrite L1. cbv beta iota delta [bind].
  destruct (parseLoop_opened first rest st1 p E) as (st0 & st' & A & B & C).
  rewrite A, B, C. eauto.
Qed.

(** X3 on two bracketed lines with a continuation line each. *)
Lemma parse_cut_at_opening_line_witness :
  exists m1 m2,
    parse (str "[1:00] a: b" ++ LF :: str "more") = Normal m1 /\
    parse (str "[1:01] c: d" ++ LF :: str "again") = Normal m2 /\
    parse ((str "[1:00] a: b" ++ LF :: str "more") ++ LF ::
           (str "[1:01] c: d" ++ LF :: str "again")) = Normal (m1 ++ m2).
Proof.
  apply (parse_cut_at_opening_line _ _ (str "[1:01] c: d") [str "again"]).
  - vm_compute. reflexivity.
  - intros H. apply noRule_exec in H.
    inversion H as [|? ? _ H1]; subst. inversion H1 as [|? ? H2 _]; subst.
    vm_compute in H2. discriminate H2.
Defined.

(** ** One message for each line that a rule matches *)

Lemma continues_refl m : continues m m.
Proof. repeat split. exists []. now rewrite app_nil_r. Qed.

Lemma continues_append m o s :
  continues m o -> continues (appendContent m s) o.
Proof.
  intros (T & U & F & tail & C). repeat split; try assumption.
  exists (tail ++ s). simpl. now rewrite C, app_assoc.
Qed.

Lemma parseLoop_openers lines : forall st os,
  Forall2 continues (closeAll st) os ->
  exists st', parseLoop lines st = Normal st' /\
              Forall2 continues (closeAll st') (os ++ openers lines).
Proof.
  induction lines as [|line rest IH]; intros st os F.
  - exists st. simpl. now rewrite app_nil_r.
  - destruct st as [ms cur]. simpl. unfold openers in *. simpl.
    destruct (parseLine_returns line) as ([p|] & E); rewrite E; simpl.
    + match goal with
      | |- context [os ++ p :: ?X] =>
          change (os ++ p :: X) with (os ++ [p] ++ X)
      end.
      rewrite (app_assoc os [p]). apply IH.
      replace (closeAll (match cur with Some c => ms ++ [c] | None => ms end,
                         Some p))
        with (closeAll (ms, cur) ++ [p]).
      * apply Forall2_app; [assumption|].
        constructor; [apply continues_refl | constructor].
      * unfold closeAll. simpl. destruct cur; [reflexivity|].
        now rewrite app_nil_r.
    + destruct cur as [c|]; simpl; [|now apply IH].
      apply IH. unfold closeAll in *. simpl in *.
      apply Forall2_app_inv_l in F as (os1 & os2 & F1 & F2 & ->).
      apply Forall2_app; [assumption|].
      inversion F2 as [|? o ? ? Hc Hn]; subst.
      constructor; [now apply continues_append | assumption].
Qed.

(** X4: [parse] returns one message for each line that a rule matches, in
    the order of the lines, none dropped, doubled or moved: the message
    has the time, user and format that [parseLine] gives for the line, and
    a content that starts with the content [parseLine] gives. *)
Theorem parse_keeps_order (text : jsstring) :
  exists msgs,
    parse text = Normal msgs /\
    Forall2 continues msgs (openers (linesOf text)).
Proof.
  rewrite parse_lines.
  destruct (parseLoop_openers (linesOf text) ([], None) [])
    as (st & E & F); [constructor|].
  rewrite E. simpl. eauto.
Qed.

(** ** What every returned message looks like *)

Lemma stripColons_nil s : stripColons s = [] -> forallb isColon s = true.
Proof.
  induction s as [|c r IH]; [reflexivity|].
  change (stripColons (c :: r))
    with (if forallb isColon (c :: r) then [] else c :: stripColons r).
  destruct (forallb isColon (c :: r)); [reflexivity | discriminate].
Qed.

Lemma endsWithColon_cons c s :
  s <> [] -> endsWithColon (c :: s) = endsWithColon s.
Proof.
  intros NE. unfold endsWithColon. simpl.
  destruct (rev s) eqn:E; [|reflexivity].
  apply (f_equal (@rev N)) in E. rewrite rev_involutive in E.
  now destruct NE.
Qed.

Lemma endsWithColon_stripColons s : endsWithColon (stripColons s) = false.
Proof.
  induction s as [|c r IH]; [reflexivity|].
  change (stripColons (c :: r))
    with (if forallb isColon (c :: r) then [] else c :: stripColons r).
  destruct (forallb isColon (c :: r)) eqn:F; [reflexivity|].
  destruct (stripColons r) as [|d p] eqn:S.
  - apply stripColons_nil in S. simpl in F. rewrite S, andb_true_r in F.
    unfold endsWithColon. simpl. exact F.
  - rewrite endsWithColon_cons by discriminate. exact IH.
Qed.

Lemma cleanUsername_output name (u := cleanUsername name) :
  forallb (fun c => negb (isQuote c)) u = true /\
  spacedFrom false u = true /\
  startsWithSpace u = false /\ endsWithColon u = false.
Proof.
  subst u. rewrite cleanUsername_plain. unfold cleanUsernamePlain.
  set (q := filter (fun c => negb (isQuote c)) name).
  set (v := trim (collapse false q)).
  destruct (stripColons_parts v) as (w & E & _).
  split; [|split; [|split]].
  - apply forallb_forall. intros c I.
    assert (Iv : In c v) by (rewrite E; apply in_app_iff; now left).
    apply trim_incl, collapse_incl in Iv as [-> | Iq]; [reflexivity|].
    unfold q in Iq. apply filter_In in Iq as [_ Iq]. exact Iq.
  - apply spacedFrom_prefix with w. rewrite <- E. unfold v.
    destruct (trim_parts (collapse false q)) as (a & b & P & _).
    pose proof (spacedFrom_collapse q false) as K. rewrite P in K.
    apply spacedFrom_suffix in K. now apply spacedFrom_prefix in K.
  - destruct (stripColons v) as [|c u'] eqn:U; [reflexivity|].
    apply startsWithSpace_prefix with w; [|discriminate].
    rewrite <- E. apply trim_edges.
  - apply endsWithColon_stripColons.
Qed.

Lemma parseLine_content_incl line m :
  parseLine line = Normal (Some m) -> incl (content m) line.
Proof.
  intros H.
  destruct (parseLine_cases line)
    as [[_ K] | (pre & f & re & post & r & tuc & P & _ & E & Fd & K)];
    [congruence|].
  rewrite K in H. injection H as <-.
  assert (I : In (f, re) patterns)
    by (rewrite P; apply in_app_iff; right; now left).
  destruct (fields_returns _ _ _ _ I E) as (g1 & g2 & g3 & _ & _ & G3 & Fd').
  rewrite Fd' in Fd. injection Fd as <-.
  destruct (exec_capture _ _ _ _ _ E G3) as [Inc _].
  assert (C : incl (trim g3) line).
  { intros c Ic. apply Inc. now apply trim_incl. }
  destruct f; exact C.
Qed.

Lemma parse_tidy text :
  exists msgs, parse text = Normal msgs /\ Forall tidy msgs.
Proof.
  destruct (parse_invariant trimmedLine
              (fun m => wellFormed m /\ ~ In LF (content m)))
    with (text := text) as (msgs & E & F).
  - intros line m L H. split; [now apply parseLine_wellFormed with line|].
    intros I. apply (parseLine_content_incl _ _ H) in I.
    now destruct L as (_ & _ & _ & NL).
  - intros line m L _ [W NL]. split; [now apply appendContent_wellFormed|].
    simpl. rewrite in_app_iff. intros [I | [I | I]]; try contradiction.
    + discriminate I.
    + now destruct L as (_ & _ & _ & NL').
  - apply linesOf_trimmed.
  - exists msgs. split; [exact E|].
    eapply Forall_impl; [|exact F].
    intros m [(NT & (name & EU) & CN & CS & CE) NL].
    destruct (normalTime_fixed _ NT) as (T1 & T2 & T3 & T4).
    destruct (cleanUsername_output name) as (U1 & U2 & U3 & U4).
    rewrite <- EU in U1, U2, U3, U4.
    repeat split; try assumption.
    + now apply trim_solid.
    + rewrite !in_app_iff. intros [I | [I | I]]; try contradiction.
      assert (LF = SPACE); [|discriminate].
      eapply spacedFrom_space; eauto.
Qed.

(** X5: every message that [parse] returns has a time that is not empty
    and that the trim and [normalizeTime] leave as it is, a user without
    quotes, without white space at its start, without a colon at its end
    and with single spaces as its only white space, a content that is not
    empty and is trimmed, and no line feed in any of the three. *)
Theorem parse_output_tidy (text : jsstring) :
  exists msgs, parse text = Normal msgs /\ Forall tidy msgs.
Proof.
  destruct (parse_tidy text) as (msgs & E & F).
  exists msgs. split; assumption.
Qed.

(** ** The lines of the standard form *)

Lemma join_app sep (a b : list jsstring) :
  a <> [] -> b <> [] ->
  join sep (a ++ b) = join sep a ++ sep ++ join sep b.
Proof.
  intros NA NB. induction a as [|x a IH]; [congruence|].
  destruct a as [|y a].
  - simpl. destruct b; [congruence | reflexivity].
  - change (join sep ((x :: y :: a) ++ b))
      with (x ++ sep ++ join sep ((y :: a) ++ b)).
    rewrite IH by discriminate.
    change (join sep (x :: y :: a)) with (x ++ sep ++ join sep (y :: a)).
    now rewrite <- !app_assoc.
Qed.




(** X7: the standard form of two lists of messages put end to end is the
    standard form of the first, a line feed, and the standard form of the
    second, when neither list is empty. *)
Theorem toStandardFormat_app (a b : list Message) :
  a <> [] -> b <> [] ->
  toStandardFormat (a ++ b)
  = toStandardFormat a ++ [LF] ++ toStandardFormat b.
Proof.
  intros NA NB. unfold toStandardFormat. rewrite map_app.
  apply join_app; [destruct a | destruct b]; try congruence; discriminate.
Qed.

(** X7 on one message and one message. *)
Lemma toStandardFormat_app_witness :
  toStandardFormat
    ([mkMessage (str "1:00") (str "a") (str "b") discord] ++
     [mkMessage (str "1:01") (str "c") (str "d") discord])
  = str "[1:00] a: b" ++ [LF] ++ str "[1:01] c: d".
Proof.
  apply (toStandardFormat_app
           [mkMessage (str "1:00") (str "a") (str "b") discord]
           [mkMessage (str "1:01") (str "c") (str "d") discord]);
    discriminate.
Defined.

(** ** The characters a line needs *)

Lemma charMatches_unit ic u c :
  u < 65 \/ (90 < u /\ u < 97) \/ 122 < u ->
  charMatches ic (Atom (CChar u)) c = true -> c = u.
Proof.
  intros R. simpl. intros H. apply N.eqb_eq in H.
  destruct ic; simpl in H; [|now symmetry].
  assert (Eu : toUpperUnit u = u).
  { destruct (upper_cases u) as [E | [K _]]; [exact E | lia]. }
  rewrite Eu in H.
  destruct (upper_cases c) as [E | [K E]]; rewrite E in H; lia.
Qed.

Lemma matcher_requiresUnit ic ml u r : forall x y,
  u < 65 \/ (90 < u /\ u < 97) \/ 122 < u ->
  requiresUnit u r = true -> In y (matcher ic ml r x) ->
  exists w, extends x w y /\ In u w.
Proof.
  induction r; intros x y U R; simpl in R; try discriminate; simpl.
  - destruct cs as [|[c| |]|]; try discriminate.
    apply N.eqb_eq in R. subst c.
    intros H. apply stepChar_in in H as (c & M & E & _).
    apply (charMatches_unit _ _ _ U) in M. subst c.
    exists [u]. split; [assumption | now left].
  - rewrite in_flat_map. intros (z & H1 & H2).
    apply orb_true_iff in R as [R | R].
    + apply (IHr1 _ _ U R) in H1 as (w & E1 & I).
      apply matcher_extends in H2 as (v & E2).
      exists (w ++ v). split; [eapply extends_trans; eauto|].
      apply in_app_iff. now left.
    + apply matcher_extends in H1 as (w & E1).
      apply (IHr2 _ _ U R) in H2 as (v & E2 & I).
      exists (w ++ v). split; [eapply extends_trans; eauto|].
      apply in_app_iff. now right.
  - apply andb_true_iff in R as [R1 R2].
    rewrite in_app_iff. intros [H | H]; eauto.
  - rewrite in_map_iff. intros (z & <- & H).
    apply (IHr _ _ U R) in H as (w & E & I). exists w. split; assumption.
Qed.

Lemma exec_requiresUnit re s r u :
  u < 65 \/ (90 < u /\ u < 97) \/ 122 < u ->
  requiresUnit u (source re) = true -> exec re s = Some r -> In u s.
Proof.
  intros U R E. apply execFrom_some in E as (pre & post & A & _ & tl & C).
  assert (H : In (final r) (matcher (ignoreCase re) (multiline re)
                (source re) (mkState (prefix r) post [])))
    by (rewrite C; now left).
  apply (matcher_requiresUnit _ _ _ _ _ _ U R) in H as (w & [E _] & I).
  simpl in E. subst s. apply in_app_iff. right.
  rewrite E. apply in_app_iff. now left.
Qed.

Lemma delimiters_required f re u :
  In (f, re) patterns -> In u (delimiters f) ->
  (u < 65 \/ (90 < u /\ u < 97) \/ 122 < u) /\
  requiresUnit u (source re) = true.
Proof.
  intros I D. simpl in I.
  repeat (destruct I as [[= <- <-] | I];
          [simpl in D;
           repeat (destruct D as [<- | D];
                   [split; [unfold COLON, LF; lia | reflexivity]|]);
           destruct D|]).
  destruct I.
Qed.

Lemma parseLine_delimiters line m :
  parseLine line = Normal (Some m) ->
  Forall (fun u => In u line) (delimiters (format m)).
Proof.
  intros H.
  destruct (parseLine_cases line)
    as [[_ K] | (pre & f & re & post & r & tuc & P & _ & E & _ & K)];
    [congruence|].
  rewrite K in H. injection H as <-. rewrite format_messageOf.
  assert (I : In (f, re) patterns)
    by (rewrite P; apply in_app_iff; right; now left).
  apply Forall_forall. intros u D.
  destruct (delimiters_required _ _ _ I D) as [U R].
  exact (exec_requiresUnit _ _ _ _ U R E).
Qed.

(** X8: a string that [parseLine] takes holds the fixed characters of the
    rule it reports: both brackets and a colon for discord, a dash and a
    colon for whatsapp1, a comma and a colon for whatsapp2, both
    parentheses and a colon for generic1, and a line feed for the
    multi-line rules (with both brackets for telegram). *)
Theorem parseLine_needs_delimiters (line : jsstring) (m : Message) :
  parseLine line = Normal (Some m) ->
  Forall (fun u => In u line) (delimiters (format m)).
Proof.
  intros H. apply Forall_forall. intros u D.
  pose proof (parseLine_delimiters _ _ H) as F.
  rewrite Forall_forall in F. now apply F.
Qed.

(** X8 on a line of the generic1 rule. *)
Lemma parseLine_needs_delimiters_witness :
  Forall (fun u => In u (str "Ann (9:15): hello")) [40; 41; COLON].
Proof.
  apply (parseLine_needs_delimiters (str "Ann (9:15): hello")
           (mkMessage (str "9:15") (str "Ann") (str "hello") generic1)).
  vm_compute. reflexivity.
Defined.

(** X9: a text without a colon, or with none of the opening bracket, the
    dash, the comma and the opening parenthesis, gives no message. *)
Theorem parse_without_delimiters (text : jsstring) :
  ~ In COLON text \/ (forall u, In u [91; 45; 44; 40] -> ~ In u text) ->
  parse text = Normal [].
Proof.
  intros H. rewrite parse_lines, parseLoop_unmatched; [reflexivity|].
  apply Forall_forall. intros line I.
  destruct (parseLine_returns line) as ([m|] & E); [exfalso | exact E].
  pose proof (linesOf_no_LF _ _ I) as NL.
  pose proof (parseLine_singleline_tag _ _ NL E) as T.
  pose proof (parseLine_delimiters _ _ E) as D.
  rewrite Forall_forall in D.
  assert (Inc : incl line text).
  { unfold linesOf in I. apply filter_In in I as [I _].
    apply in_map_iff in I as (l & <- & I).
    intros c Ic. apply trim_incl in Ic. exact (split_incl _ _ _ I _ Ic). }
  unfold hasMultilineTag in T.
  destruct H as [H | H].
  - apply H, Inc, D. destruct (format m); try discriminate T; simpl; tauto.
  - destruct (format m) eqn:Fm; try discriminate T.
    + apply (H 91); [simpl; tauto|]. apply Inc, D. simpl; tauto.
    + apply (H 45); [simpl; tauto|]. apply Inc, D. simpl; tauto.
    + apply (H 44); [simpl; tauto|]. apply Inc, D. simpl; tauto.
    + apply (H 40); [simpl; tauto|]. apply Inc, D. simpl; tauto.
    + apply (H 91); [simpl; tauto|]. apply Inc, D. simpl; tauto.
Qed.

(** X9 on the three-line layout of the iMessage example, which has colons
    but none of the four characters. *)
Lemma parse_without_delimiters_witness :
  parse (str "John Doe" ++ LF :: str "10:30 AM" ++ LF :: str "Hey what's up")
    = Normal [].
Proof.
  apply parse_without_delimiters. right.
  intros u [<- | [<- | [<- | [<- | []]]]]; vm_compute; intuition discriminate.
Defined.

(** ** The detector and the lines it reads *)

(** X10: [detectFormat] reads the first five lines only: whatever comes
    after the fifth line does not change its answer. *)
Theorem detectFormat_reads_five_lines (text more : jsstring) :
  (5 <= length (split LF text))%nat ->
  detectFormat (text ++ LF :: more) = detectFormat text.
Proof.
  intros L. unfold detectFormat.
  rewrite split_app_sep, firstn_app.
  replace (5 - length (split LF text))%nat with 0%nat by lia.
  simpl firstn at 2. now rewrite app_nil_r.
Qed.

(** X10 on five plain lines followed by a bracketed line. *)
Lemma detectFormat_reads_five_lines_witness :
  detectFormat (str "a" ++ LF :: str "b" ++ LF :: str "c" ++ LF ::
                str "d" ++ LF :: str "e" ++ LF :: str "[1:00] x: y")
  = detectFormat (str "a" ++ LF :: str "b" ++ LF :: str "c" ++ LF ::
                  str "d" ++ LF :: str "e").
Proof.
  apply (detectFormat_reads_five_lines
           (str "a" ++ LF :: str "b" ++ LF :: str "c" ++ LF ::
            str "d" ++ LF :: str "e") (str "[1:00] x: y")).
  vm_compute. lia.
Defined.

(** X11: [detectFormat] never answers standard: the discord pattern is the
    same and is tested before it. *)
Theorem detectFormat_never_standard (text : jsstring) :
  detectFormat text <> "standard"%string.
Proof.
  unfold detectFormat.
  destruct (firstMatching patterns _) as [f|] eqn:E; [|discriminate].
  destruct f; try discriminate.
  apply firstMatching_some in E as (pre & pat & post & P & M & F).
  destruct (standard_after_discord _ _ _ P) as [I ->].
  rewrite Forall_forall in F. now destruct (F _ I).
Qed.

Lemma starGreedy_base ic cs bef aft caps :
  In (mkState bef aft caps) (starGreedy ic cs bef aft caps).
Proof.
  destruct aft as [|c r]; simpl; [now left|].
  destruct (charMatches ic cs c); [|now left].
  apply in_app_iff. right. now left.
Qed.

Lemma starGreedy_mem ic cs w : forall bef rest caps,
  forallb (charMatches ic cs) w = true ->
  In (mkState (rev w ++ bef) rest caps)
     (starGreedy ic cs bef (w ++ rest) caps).
Proof.
  induction w as [|c w IH]; intros bef rest caps F.
  - apply starGreedy_base.
  - simpl in F. apply andb_true_iff in F as [M F].
    simpl. rewrite M. apply in_app_iff. left.
    rewrite <- app_assoc. now apply IH.
Qed.

Lemma starLazy_mem ic cs w : forall bef rest caps,
  forallb (charMatches ic cs) w = true ->
  In (mkState (rev w ++ bef) rest caps)
     (starLazy ic cs bef (w ++ rest) caps).
Proof.
  induction w as [|c w IH]; intros bef rest caps F.
  - destruct rest; now left.
  - simpl in F. apply andb_true_iff in F as [M F].
    simpl. rewrite M. right.
    rewrite <- app_assoc. now apply IH.
Qed.

Lemma stepChar_widen ic cs l r x y :
  In y (stepChar ic cs x) -> In (widen l r y) (stepChar ic cs (widen l r x)).
Proof.
  intros H. apply stepChar_in in H as (c & M & [A B] & C).
  unfold stepChar, widen. simpl. rewrite A, B, C. simpl. rewrite M.
  now left.
Qed.

Lemma starGreedy_widen ic cs l r x y :
  In y (starGreedy ic cs (before x) (after x) (captures x)) ->
  In (widen l r y)
     (starGreedy ic cs (before x ++ l) (after x ++ r) (captures x)).
Proof.
  intros H. apply starGreedy_in in H as (w & F & A & B & C).
  unfold widen. rewrite A, B, C, <- !app_assoc.
  now apply starGreedy_mem.
Qed.

Lemma starLazy_widen ic cs l r x y :
  In y (starLazy ic cs (before x) (after x) (captures x)) ->
  In (widen l r y)
     (starLazy ic cs (before x ++ l) (after x ++ r) (captures x)).
Proof.
  intros H. apply starLazy_in in H as (w & F & A & B & C).
  unfold widen. rewrite A, B, C, <- !app_assoc.
  now apply starLazy_mem.
Qed.

Lemma matcher_widen ic ml l rr r : assertionFree r = true ->
  forall x y, In y (matcher ic ml r x) ->
              In (widen l rr y) (matcher ic ml r (widen l rr x)).
Proof.
  induction r; intros AF x y; simpl in AF; try discriminate; simpl.
  - intros [<- | []]. now left.
  - apply stepChar_widen.
  - apply andb_true_iff in AF as [A1 A2].
    rewrite !in_flat_map. intros (z & H1 & H2).
    exists (widen l rr z). split; [now apply IHr1 | now apply IHr2].
  - apply andb_true_iff in AF as [A1 A2].
    rewrite !in_app_iff. intros [H | H]; [left | right]; auto.
  - rewrite !in_map_iff. intros (z & <- & H).
    exists (widen l rr z). split; [|now apply IHr].
    apply matcher_extends in H as (w & [A _]).
    unfold setCapture, widen. simpl. do 3 f_equal.
    rewrite (consumed_after x w z A). apply consumed_after.
    simpl. now rewrite A, app_assoc.
  - rewrite !in_app_iff, !filter_In.
    intros [[H P] | [<- | []]]; [left | right; now left].
    split; [now apply IHr|].
    unfold progressed, widen in *. simpl. rewrite !length_app.
    destruct (Nat.eqb_spec (length (after y)) (length (after x)));
      [discriminate P|].
    apply negb_true_iff, Nat.eqb_neq. lia.
  - apply starGreedy_widen.
  - rewrite !in_flat_map. intros (z & H1 & H2).
    exists (widen l rr z). split; [now apply stepChar_widen|].
    now apply (starGreedy_widen ic cs l rr z y).
  - rewrite !in_flat_map. intros (z & H1 & H2).
    exists (widen l rr z). split; [now apply stepChar_widen|].
    now apply (starLazy_widen ic cs l rr z y).
Qed.

Lemma matchesSomewhere_widen re a s b :
  assertionFree (source re) = true ->
  matchesSomewhere re s -> matchesSomewhere re (a ++ s ++ b).
Proof.
  intros AF (pre & post & -> & M).
  exists (a ++ pre), (post ++ b). split; [now rewrite <- !app_assoc|].
  destruct (matcher _ _ _ (mkState (rev pre) post [])) as [|y tl] eqn:E;
    [congruence|].
  assert (I : In y (matcher (ignoreCase re) (multiline re) (source re)
                            (mkState (rev pre) post [])))
    by (rewrite E; now left).
  apply (matcher_widen _ _ (rev a) b _ AF) in I.
  unfold widen in I. simpl in I. rewrite rev_app_distr.
  intros K. rewrite K in I. destruct I.
Qed.

Lemma join_contains sep ls l :
  In l ls -> exists A B, join sep ls = A ++ l ++ B.
Proof.
  induction ls as [|x ls IH]; [intros []|].
  intros [-> | I].
  - destruct ls as [|y ls].
    + exists [], []. simpl. now rewrite app_nil_r.
    + exists [], (sep ++ join sep (y :: ls)). reflexivity.
  - destruct (IH I) as (A & B & E). destruct ls as [|y ls]; [destruct I|].
    exists (x ++ sep ++ A), B.
    change (join sep (x :: y :: ls)) with (x ++ sep ++ join sep (y :: ls)).
    rewrite E. now rewrite <- !app_assoc.
Qed.

Lemma firstn_In {A : Type} n (l : list A) x : In x (firstn n l) -> In x l.
Proof.
  revert l. induction n as [|n IH]; intros [|a l]; simpl; try tauto.
  intros [-> | H]; auto.
Qed.

Lemma firstMatching_exists table sample f re :
  In (f, re) table -> test re sample = true ->
  exists f', firstMatching table sample = Some f'.
Proof.
  induction table as [|[f0 re0] rest IH]; [intros []|].
  simpl. intros [[= -> ->] | I] T.
  - rewrite T. eauto.
  - destruct (test re0 sample); eauto.
Qed.

Lemma single_line_assertionFree f re :
  In (f, re) patterns -> hasMultilineTag (mkMessage [] [] [] f) = false ->
  assertionFree (source re) = true.
Proof.
  intros I T. simpl in I.
  repeat (destruct I as [[= <- <-] | I];
          [first [reflexivity | discriminate T]|]).
  destruct I.
Qed.

(** X12: the detector agrees with the parser on the head of the text:
    when one of the first five lines opens a message, [detectFormat] does
    not answer unknown. *)
Theorem detectFormat_knows_opened_lines (text line : jsstring)
    (m : Message) :
  In line (firstn 5 (split LF text)) ->
  parseLine (trim line) = Normal (Some m) ->
  detectFormat text <> "unknown"%string.
Proof.
  intros I H.
  assert (NL : ~ In LF (trim line)).
  { apply trim_no_LF. apply (split_no_sep LF text). now apply firstn_In in I. }
  pose proof (parseLine_singleline_tag _ _ NL H) as T.
  destruct (parseLine_cases (trim line))
    as [[_ K] | (pre & f & re & post & r & tuc & P & _ & E & _ & K)];
    [congruence|].
  rewrite K in H. injection H as <-.
  unfold hasMultilineTag in T. rewrite format_messageOf in T.
  assert (Ip : In (f, re) patterns)
    by (rewrite P; apply in_app_iff; right; now left).
  assert (AF : assertionFree (source re) = true)
    by (apply (single_line_assertionFree f); assumption).
  assert (M : matchesSomewhere re (trim line))
    by (apply exec_matchesSomewhere; congruence).
  destruct (trim_parts line) as (a & b & El & _).
  destruct (join_contains [LF] _ _ I) as (A & B & Es).
  apply (matchesSomewhere_widen re a _ b AF) in M. rewrite <- El in M.
  apply (matchesSomewhere_widen re A _ B AF) in M. rewrite <- Es in M.
  apply test_matchesSomewhere in M.
  destruct (firstMatching_exists _ _ _ _ Ip M) as (f' & Ef).
  unfold detectFormat. rewrite Ef. destruct f'; discriminate.
Qed.

(** X12 on a text whose third line opens a message. *)
Lemma detectFormat_knows_opened_lines_witness :
  detectFormat (str "Chat export" ++ LF :: LF :: str "  Ann, 9:15: hello")
    <> "unknown"%string.
Proof.
  apply (detectFormat_knows_opened_lines _ (str "  Ann, 9:15: hello")
           (mkMessage (str "9:15") (str "Ann") (str "hello") whatsapp2)).
  - vm_compute. tauto.
  - vm_compute. reflexivity.
Defined.

(** ** [cleanUsername] without regular expressions *)

(** X13: [cleanUsername] takes the single and double quotes out of the
    name, replaces every run of white space by one space, trims the
    result, and then takes the colons at its end away, in that order. *)
Theorem cleanUsername_steps (name : jsstring) :
  cleanUsername name
  = stripColons
      (trim (collapse false (filter (fun c => negb (isQuote c)) name))).
Proof.
  unfold cleanUsername.
  rewrite replaceAll_quotes, replaceAll_spaces.
  apply replace_trailingColons.
Qed.

Lemma colons_end s :
  s <> [] -> forallb isColon s = true -> endsWithColon s = true.
Proof.
  intros NE F. unfold endsWithColon.
  destruct (rev s) as [|c r] eqn:E.
  - apply (f_equal (@rev N)) in E. rewrite rev_involutive in E.
    now destruct NE.
  - rewrite forallb_forall in F. apply F, in_rev. rewrite E. now left.
Qed.

Lemma stripColons_id s : endsWithColon s = false -> stripColons s = s.
Proof.
  induction s as [|c r IH]; [reflexivity|]. intros E.
  change (stripColons (c :: r))
    with (if forallb isColon (c :: r) then [] else c :: stripColons r).
  destruct (forallb isColon (c :: r)) eqn:F.
  - rewrite colons_end in E; [discriminate | discriminate | exact F].
  - f_equal. apply IH. destruct r as [|d r]; [reflexivity|].
    now rewrite endsWithColon_cons in E by discriminate.
Qed.

Lemma app_same_middle (a u w : jsstring) : u = a ++ u ++ w -> a = [] /\ w = [].
Proof.
  intros E. apply (f_equal (@length N)) in E.
  rewrite !length_app in E.
  destruct a; [|simpl in E; lia]. destruct w; [auto | simpl in E; lia].
Qed.

(** X14: the names that [cleanUsername] returns unchanged are exactly the
    names without quotes, with single spaces as their only white space,
    without white space at either end and without a colon at the end. *)
Theorem cleanUsername_fixed_points (u : jsstring) :
  cleanUsername u = u <-> cleanName u.
Proof.
  split.
  - intros E. destruct (cleanUsername_output u) as (Q & S & SS & C).
    rewrite E in Q, S, SS, C. repeat split; try assumption.
    rewrite cleanUsername_plain in E. unfold cleanUsernamePlain in E.
    rewrite (filter_all _ _ Q), (collapse_spaced _ _ S) in E.
    destruct (stripColons_parts (trim u)) as (w & Ew & _).
    rewrite E in Ew. destruct (trim_parts u) as (a & b & Eu & _).
    rewrite Ew, <- app_assoc in Eu.
    apply app_same_middle in Eu as [_ Eu].
    apply app_eq_nil in Eu as [-> _]. rewrite app_nil_r in Ew.
    rewrite <- Ew. apply trim_edges.
  - intros (Q & S & SS & ES & C).
    rewrite cleanUsername_plain. unfold cleanUsernamePlain.
    rewrite (filter_all _ _ Q), (collapse_spaced _ _ S).
    rewrite (trim_solid _ SS ES). now apply stripColons_id.
Qed.

(** ** [normalizeTime] and the characters of its argument *)

Lemma length_upperFirst s : length (upperFirst s) = length s.
Proof.
  induction s as [|a rest IH]; [reflexivity|].
  destruct rest as [|b rest']; [reflexivity|].
  change (upperFirst (a :: b :: rest'))
    with (if isMeridiem a b then toUpperUnit a :: toUpperUnit b :: rest'
          else a :: upperFirst (b :: rest')).
  destruct (isMeridiem a b); [reflexivity|].
  change (S (length (upperFirst (b :: rest'))) = S (length (b :: rest'))).
  now rewrite IH.
Qed.

Lemma length_spaceFirst s :
  length (spaceFirst s)
  = (length s + if digitBeforeMarker s then 1 else 0)%nat.
Proof.
  induction s as [|d rest IH]; [reflexivity|].
  rewrite spaceFirst_step. simpl digitBeforeMarker.
  destruct (isDigit d && meridiemAhead rest); simpl; [lia|].
  rewrite IH. lia.
Qed.

(** X15: [normalizeTime] makes the string longer by one code unit when
    some digit in it is immediately followed by a meridiem marker, and
    keeps its length otherwise. *)
Theorem normalizeTime_length (time : jsstring) :
  length (normalizeTime time)
  = (length time + if digitBeforeMarker time then 1 else 0)%nat.
Proof.
  rewrite normalizeTime_first_marker_eq, length_upperFirst.
  apply length_spaceFirst.
Qed.

Lemma upper_upper c : toUpperUnit (toUpperUnit c) = toUpperUnit c.
Proof.
  destruct (upper_cases c) as [E | [R E]]; rewrite !E; [reflexivity|].
  unfold toUpperUnit. decide_units. reflexivity.
Qed.

Lemma squash_cons c s :
  squash (c :: s)
  = if c =? SPACE then squash s else toUpperUnit c :: squash s.
Proof. unfold squash. simpl. destruct (c =? SPACE); reflexivity. Qed.

Lemma meridiem_not_space a b :
  isMeridiem a b = true ->
  (a =? SPACE) = false /\ (b =? SPACE) = false /\
  (toUpperUnit a =? SPACE) = false /\ (toUpperUnit b =? SPACE) = false.
Proof.
  intros M. destruct (meridiem_units _ _ M) as [Ua Ub].
  destruct (meridiem_solid _ _ M) as (Sa & Sb & _).
  repeat split.
  - destruct (N.eqb_spec a SPACE); [subst; discriminate Sa | reflexivity].
  - destruct (N.eqb_spec b SPACE); [subst; discriminate Sb | reflexivity].
  - destruct Ua as [-> | ->]; reflexivity.
  - rewrite Ub. reflexivity.
Qed.

Lemma squash_upperFirst s : squash (upperFirst s) = squash s.
Proof.
  induction s as [|a rest IH]; [reflexivity|].
  destruct rest as [|b rest']; [reflexivity|].
  change (upperFirst (a :: b :: rest'))
    with (if isMeridiem a b then toUpperUnit a :: toUpperUnit b :: rest'
          else a :: upperFirst (b :: rest')).
  destruct (isMeridiem a b) eqn:M.
  - destruct (meridiem_not_space _ _ M) as (A1 & B1 & A2 & B2).
    rewrite !squash_cons, A1, B1, A2, B2, !upper_upper. reflexivity.
  - rewrite !(squash_cons a), IH. reflexivity.
Qed.

Lemma squash_spaceFirst s : squash (spaceFirst s) = squash s.
Proof.
  induction s as [|d rest IH]; [reflexivity|].
  rewrite spaceFirst_step.
  destruct (isDigit d && meridiemAhead rest).
  - rewrite !(squash_cons d), (squash_cons SPACE). reflexivity.
  - rewrite !(squash_cons d), IH. reflexivity.
Qed.

(** X16: [normalizeTime] changes nothing but spaces and case: without
    their spaces and in upper case, its argument and its result are the
    same string. *)
Theorem normalizeTime_keeps_text (time : jsstring) :
  squash (normalizeTime time) = squash time.
Proof.
  rewrite normalizeTime_first_marker_eq, squash_upperFirst.
  apply squash_spaceFirst.
Qed.

(** ** Where the content comes from *)

(** X17: [parse] makes up no content: every code unit of the content of a
    returned message is a code unit of the text, or the space that joins
    a continuation line. *)
Theorem parse_content_from_text (text : jsstring) :
  exists msgs,
    parse text = Normal msgs /\
    Forall (fun m => incl (content m) (SPACE :: text)) msgs.
Proof.
  assert (Inc : forall line, In line (linesOf text) -> incl line text).
  { intros line I. unfold linesOf in I. apply filter_In in I as [I _].
    apply in_map_iff in I as (l & <- & I).
    intros c Ic. apply trim_incl in Ic. exact (split_incl _ _ _ I _ Ic). }
  apply parse_invariant with (L := fun line => incl line text).
  - intros line m L H c Ic. right.
    apply L. exact (parseLine_content_incl _ _ H _ Ic).
  - intros line m L _ H c Ic. simpl in Ic. rewrite in_app_iff in Ic.
    destruct Ic as [Ic | [<- | Ic]]; [now apply H | now left|].
    right. now apply L.
  - apply Forall_forall. exact Inc.
Qed.

(** ** Every rule needs a timestamp *)

Lemma matcher_ml ic ml ml' r : assertionFree r = true ->
  forall x, matcher ic ml r x = matcher ic ml' r x.
Proof.
  induction r; intros AF x; simpl in AF; try discriminate; simpl;
    try reflexivity.
  - apply andb_true_iff in AF as [A1 A2]. rewrite (IHr1 A1).
    apply flat_map_ext. intros z. now apply IHr2.
  - apply andb_true_iff in AF as [A1 A2]. now rewrite IHr1, IHr2.
  - now rewrite IHr.
  - now rewrite IHr.
Qed.

Lemma time_required f re s r :
  In (f, re) patterns -> exec re s = Some r ->
  exists c, In c s /\ isDigitOrColon c = true.
Proof.
  intros I E.
  assert (H : ignoreCase re = true /\
              groupBodies (timeIndex f) (source re) = [timeBody] /\
              binds (timeIndex f) (source re) = true).
  { simpl in I.
    repeat (destruct I as [[= <- <-] | I]; [repeat split|]). destruct I. }
  destruct H as (IC & GB & B).
  destruct (exec_binds _ _ _ _ B E) as (g & G).
  destruct (exec_capture _ _ _ _ _ E G) as (Inc & sub & x & y & Is & M & ->).
  rewrite GB in Is. destruct Is as [<- | []].
  rewrite IC, (matcher_ml true _ false timeBody eq_refl) in M.
  destruct (timeBody_shape _ _ M) as (D & W & A & C & ND & FD & _).
  destruct D as [|d D]; [congruence|].
  exists d. split.
  - apply Inc. rewrite C. now left.
  - simpl in FD. now apply andb_true_iff in FD as [FD _].
Qed.

Lemma join_incl sep ls c :
  In c (join sep ls) -> In c sep \/ exists l, In l ls /\ In c l.
Proof.
  induction ls as [|x ls IH]; [intros []|].
  destruct ls as [|y ls].
  - intros H. right. exists x. split; [now left | exact H].
  - change (join sep (x :: y :: ls)) with (x ++ sep ++ join sep (y :: ls)).
    rewrite !in_app_iff. intros [H | [H | H]].
    + right. exists x. split; [now left | exact H].
    + now left.
    + destruct (IH H) as [K | (l & Il & Ic)]; [now left | right].
      exists l. split; [now right | exact Ic].
Qed.

(** X18: every rule needs a timestamp: on a text with no digit and no
    colon [detectFormat] answers unknown. *)
Theorem detectFormat_needs_time (text : jsstring) :
  (forall c, In c text -> isDigitOrColon c = false) ->
  detectFormat text = "unknown"%string.
Proof.
  intros H. unfold detectFormat.
  destruct (firstMatching patterns _) as [f|] eqn:E; [exfalso | reflexivity].
  apply firstMatching_some in E as (pre & pat & post & P & M & _).
  apply exec_matchesSomewhere in M.
  destruct (exec pat _) as [r|] eqn:X; [|congruence].
  assert (I : In (f, pat) patterns)
    by (rewrite P; apply in_app_iff; right; now left).
  destruct (time_required _ _ _ _ I X) as (c & Ic & Dc).
  apply join_incl in Ic as [[<- | []] | (l & Il & Ic)]; [discriminate Dc|].
  apply firstn_In in Il.
  rewrite (H c) in Dc; [discriminate|].
  exact (split_incl _ _ _ Il _ Ic).
Qed.

(** X18 on three lines of words. *)
Lemma detectFormat_needs_time_witness :
  detectFormat (str "John Doe" ++ LF :: str "later" ++ LF :: str "Hey")
  = "unknown"%string.
Proof.
  apply detectFormat_needs_time.
  intros c I. vm_compute in I.
  repeat (destruct I as [<- | I]; [reflexivity|]). destruct I.
Defined.

(** ** Line ends with a carriage return *)

Lemma last_line a : exists a1 a2,
  ~ In LF a2 /\ (a = a2 \/ a = a1 ++ LF :: a2).
Proof.
  induction a as [|c r (r1 & r2 & NL & [-> | ->])].
  - exists [], []. auto.
  - destruct (N.eqb_spec c LF) as [-> | NE].
    + exists [], r2. auto.
    + exists [], (c :: r2). split; [|now left].
      intros [E | I]; [now apply NE | contradiction].
  - exists (c :: r1), r2. auto.
Qed.

Lemma trim_app_spaces s w :
  forallb isSpaceChar w = true -> trim (s ++ w) = trim s.
Proof.
  intros F. destruct (trim_parts s) as (a & b & E & Fa & Fb).
  destruct (trim_edges s) as [S1 S2].
  destruct (trim s) as [|c t] eqn:T.
  - apply trim_all_space.
    rewrite E, !forallb_app, Fa, Fb. exact F.
  - rewrite E at 1. rewrite <- !app_assoc. unfold trim at 1.
    rewrite trimStart_app_spaces by assumption.
    simpl app. rewrite trimStart_solid by exact S1.
    change (c :: t ++ b ++ w) with ((c :: t) ++ (b ++ w)).
    unfold trimEnd. rewrite rev_app_distr, trimStart_app_spaces.
    + rewrite trimStart_solid; [apply rev_involutive|].
      unfold endsWithSpace in S2.
      destruct (rev (c :: t)); [reflexivity | exact S2].
    + apply forallb_forall. intros u I. apply in_rev in I.
      apply in_app_iff in I.
      rewrite forallb_forall in Fb, F. destruct I; auto.
Qed.

Lemma linesOf_trailing_spaces a w :
  forallb isSpaceChar w = true -> ~ In LF w ->
  linesOf (a ++ w) = linesOf a.
Proof.
  intros F NL. destruct (last_line a) as (a1 & a2 & N2 & [-> | ->]).
  - assert (N3 : ~ In LF (a2 ++ w)) by (rewrite in_app_iff; tauto).
    now rewrite (linesOf_line _ N2), (linesOf_line _ N3), trim_app_spaces.
  - assert (N3 : ~ In LF (a2 ++ w)) by (rewrite in_app_iff; tauto).
    rewrite <- app_assoc. simpl app. rewrite !linesOf_app.
    now rewrite (linesOf_line _ N2), (linesOf_line _ N3), trim_app_spaces.
Qed.

(** X19: a carriage return before a line feed changes nothing: the parse
    of a text with the line end CR LF is the parse of the text with the
    line end LF. *)
Theorem parse_ignores_carriage_return (a b : jsstring) :
  parse (a ++ CR :: LF :: b) = parse (a ++ LF :: b).
Proof.
  rewrite !parse_lines.
  change (a ++ CR :: LF :: b) with (a ++ [CR] ++ LF :: b).
  rewrite app_assoc, !linesOf_app.
  rewrite linesOf_trailing_spaces; [reflexivity | reflexivity|].
  intros [E | []]. discriminate E.
Qed.

(** X14 on a name of two words. *)
Lemma cleanUsername_fixed_points_witness :
  cleanUsername (str "John Doe") = str "John Doe".
Proof.
  apply (cleanUsername_fixed_points (str "John Doe")).
  repeat split.
Defined.
